(** * Gmail to Slack forwarder: the ingestion pipeline, embedded and verified

    The Apps Script sources are embedded function by function:
    - the pattern classifier ([checkMultiplePatterns], [checkSubjectPattern]),
    - the spreadsheet ledger ([isMessageProcessedInSheet],
      [markMessageProcessedInSheet], [cleanupOldEntriesInSheet]),
    - the Drive archiver ([generateSimpleFilename], [ensureUniqueFilename],
      [saveAttachmentToDrive]),
    - the body formatter and the Slack dispatcher ([formatEmailBody],
      [sendLongEmailBody]),
    - the coordinator ([processEmails]),
    - and, around them, the entry point of the archiver and its folder
      names ([processAttachments], [cleanSubjectForFolder]), the message
      processor ([processMessage]), the ledger statistics
      ([getTrackingStats]), and the body preview and the folder links of the
      notifier ([buildSlackMessage], [sendDriveFolderNotification]).

    JavaScript strings are sequences of UTF-16 code units.  The host
    services (SpreadsheetApp, DriveApp, UrlFetchApp, GmailApp) are a state
    [World] threaded through a small state-and-exception monad [Script], in
    which [tryCatch] is the source's [try { } catch (error) { }] and every
    call of a host API may throw, as a schedule of faults in the state
    decides.  The definitions come first, the theorems after them. *)

From Stdlib Require Import String Ascii List NArith ZArith Arith Bool Lia.
From Stdlib Require DecimalNat.
Import ListNotations.

Set Implicit Arguments.

(* ================================================================== *)
(** * JavaScript values *)

(** A string is its sequence of UTF-16 code units. *)
Definition CodeUnit := N.
Definition JsString := list CodeUnit.

(** [lit "abc"] is the JavaScript literal ['abc'] (ASCII literals only). *)
Definition lit (s : string) : JsString :=
  map N_of_ascii (list_ascii_of_string s).

Definition unit_eqb (a b : CodeUnit) : bool := N.eqb a b.

Fixpoint jsEq (s t : JsString) : bool :=
  match s, t with
  | [], [] => true
  | a :: s', b :: t' => unit_eqb a b && jsEq s' t'
  | _, _ => false
  end.

(** A property that may hold a value, [null], or be [undefined]. *)
Inductive Nullable (A : Type) : Type :=
| Defined (a : A)
| Null
| Undefined.
Arguments Null {A}.
Arguments Undefined {A}.

(** How the evaluation of an expression ends: with a value, or by
    throwing an [Error] whose [message] is kept. *)
Inductive Completion (A : Type) : Type :=
| Normal (a : A)
| Throw (message : JsString).
Arguments Throw {A}.

(** [x || d] on strings: the empty string and [undefined] are falsy. *)
Definition orDefault (x : option JsString) (d : JsString) : JsString :=
  match x with
  | Some (c :: s) => c :: s
  | _ => d
  end.

(* ================================================================== *)
(** * PatternClassifier (emailProcessor: checkMultiplePatterns) *)

Section Classifier.

(** A configured pattern is an opaque value with the two operations the
    classifier uses.  [test p subject] is [p.test(subject)]: it answers
    true or false, or throws (a configured value that is no regular
    expression).  Patterns carry no [g] or [y] flag, so [test] has no
    state. *)
Variable Pattern : Type.
Variable toString : Pattern -> JsString.
Variable test : Pattern -> JsString -> Completion bool.

(** [subject.match(pattern)], kept abstract. *)
Variable MatchArray : Type.
Variable jsMatch : JsString -> Pattern -> MatchArray.

(** One element of [results]. *)
Record PatternResult : Type := mkPatternResult {
  pattern : JsString;
  isMatchP : bool;
  matchDetailsP : option MatchArray;
  errorP : option JsString
}.

Record Summary : Type := mkSummary {
  totalPatterns : nat;
  matchedCount : nat;
  finalResult : bool
}.

(** The object returned by the classifier; absent properties are [None]. *)
Record MatchResult : Type := mkMatchResult {
  isMatch : bool;
  matchedPattern : Nullable JsString;
  checkedPatterns : list JsString;
  allResults : option (list PatternResult);
  matchMode : option JsString;
  summary : option Summary;
  matchDetails : option MatchArray;
  error : option JsString
}.

(** [CONFIG.SUBJECT_PATTERNS] and the legacy [CONFIG.SUBJECT_PATTERN]. *)
Record SubjectPatterns : Type := mkSubjectPatterns {
  ENABLE_MULTIPLE_PATTERNS : bool;
  MATCH_MODE : option JsString;
  PATTERNS : option (list Pattern)
}.

Record PatternConfig : Type := mkPatternConfig {
  SUBJECT_PATTERNS : option SubjectPatterns;
  SUBJECT_PATTERN : Pattern
}.

(** The [try] block of one loop iteration: the element pushed on
    [results], in both the normal and the [catch] branch. *)
Definition evaluatePattern (subject : JsString) (p : Pattern) : PatternResult :=
  match test p subject with
  | Normal m =>
      mkPatternResult (toString p) m
        (if m then Some (jsMatch subject p) else None) None
  | Throw msg =>
      mkPatternResult (toString p) false None (Some msg)
  end.

(** The [for] loop.  [inl r] is the [return] inside the loop ('any' mode,
    first match); [inr (results, checkedPatterns)] is the state when the
    loop runs to its end. *)
Fixpoint patternLoop (mode subject : JsString) (patterns : list Pattern)
         (results : list PatternResult) (checked : list JsString)
  : MatchResult + (list PatternResult * list JsString) :=
  match patterns with
  | [] => inr (results, checked)
  | p :: rest =>
      let patternString := toString p in
      let checked := checked ++ [patternString] in
      let r := evaluatePattern subject p in
      let results := results ++ [r] in
      match test p subject with
      | Normal true =>
          if jsEq mode (lit "any") then
            inl (mkMatchResult true (Defined patternString) checked
                   (Some results) (Some mode) None None None)
          else patternLoop mode subject rest results checked
      | _ => patternLoop mode subject rest results checked
      end
  end.

(** Pattern [p] matches [subject]: [p.test(subject)] returns [true]. *)
Definition matches (subject : JsString) (p : Pattern) : bool :=
  match test p subject with
  | Normal true => true
  | _ => false
  end.

(** [CONFIG.SUBJECT_PATTERNS.PATTERNS || []] and
    [CONFIG.SUBJECT_PATTERNS.MATCH_MODE || 'any']. *)
Definition patternsOf (cfg : SubjectPatterns) : list Pattern :=
  match PATTERNS cfg with Some ps => ps | None => [] end.
Definition matchModeOf (cfg : SubjectPatterns) : JsString :=
  orDefault (MATCH_MODE cfg) (lit "any").

(** [results.find(r => r.isMatch)?.pattern] *)
Definition firstMatchPattern (results : list PatternResult) : Nullable JsString :=
  match find isMatchP results with
  | Some r => Defined (pattern r)
  | None => Undefined
  end.

Definition checkMultiplePatterns (cfg : SubjectPatterns) (subject : JsString)
  : MatchResult :=
  let patterns := patternsOf cfg in
  let mode := matchModeOf cfg in
  match patternLoop mode subject patterns [] [] with
  | inl r => r
  | inr (results, checked) =>
      let hasMatches := existsb isMatchP results in
      let allMatch := forallb isMatchP results in
      let finalMatch := if jsEq mode (lit "any") then hasMatches else allMatch in
      mkMatchResult finalMatch
        (if finalMatch then firstMatchPattern results else Null)
        checked (Some results) (Some mode)
        (Some (mkSummary (length patterns)
                 (length (filter isMatchP results)) finalMatch))
        None None
  end.

(** The legacy single-pattern branch of [checkSubjectPattern], with its
    [catch]. *)
Definition legacyPattern (cfg : PatternConfig) (subject : JsString)
  : MatchResult :=
  match test (SUBJECT_PATTERN cfg) subject with
  | Normal m =>
      mkMatchResult m
        (if m then Defined (toString (SUBJECT_PATTERN cfg)) else Null)
        [toString (SUBJECT_PATTERN cfg)] None None None
        (if m then Some (jsMatch subject (SUBJECT_PATTERN cfg)) else None)
        None
  | Throw msg =>
      mkMatchResult false Undefined [] None None None None (Some msg)
  end.

(** [checkSubjectPattern]: the multi-pattern classifier when enabled, else
    the legacy single pattern. *)
Definition checkSubjectPattern (cfg : PatternConfig) (subject : JsString)
  : MatchResult :=
  match SUBJECT_PATTERNS cfg with
  | Some sp =>
      if ENABLE_MULTIPLE_PATTERNS sp then checkMultiplePatterns sp subject
      else legacyPattern cfg subject
  | None => legacyPattern cfg subject
  end.

End Classifier.

Arguments mkPatternResult {MatchArray}.
Arguments mkMatchResult {MatchArray}.

(* ================================================================== *)
(** * Host objects and the script monad *)

Local Open Scope Z_scope.

(** A spreadsheet cell. *)
Inductive Cell : Type :=
| CStr (s : JsString)
| CNum (n : Z)
| CDate (t : Z).

Definition Row := list Cell.

(** A Gmail message: each method either returns or throws. *)
Record GmailMessage : Type := mkMessage {
  getId : Completion JsString;
  getSubject : Completion JsString;
  getFrom : Completion JsString;
  isInTrash : Completion bool
}.

Record GmailThread : Type := mkThread {
  getFirstMessageSubject : Completion JsString;
  getMessages : Completion (list GmailMessage)
}.

(** What [UrlFetchApp.fetch] posts to the Slack webhook. *)
Inductive SlackPost : Type :=
| BodyPart (text title chunk footer : JsString)
| ErrorSummary (processedCount errorCount : nat) (executionTime : Z)
| ErrorNotification (errorMessage : JsString).

(** The state of the host services a run can observe and change.
    - [sheet]: all rows of the 'ProcessedMessages' sheet, header first;
      [None] when the spreadsheet has no sheet of that name;
    - [faults]: the outcome of the coming host API calls, in call order
      ([true]: that call throws); when exhausted, calls succeed;
    - [clock]: [new Date().getTime()];
    - [webhook]: the script property SLACK_WEBHOOK_URL;
    - [outbox]: the requests posted to the webhook so far, oldest first;
    - [replies]: HTTP status of the coming webhook responses (200 when
      exhausted);
    - [files]: the names of the files in the email's Drive folder;
    - [mailbox]: what [GmailApp.search] returns. *)
Record World : Type := mkWorld {
  sheet : option (list Row);
  faults : list bool;
  clock : Z;
  webhook : option JsString;
  outbox : list SlackPost;
  replies : list Z;
  files : list JsString;
  mailbox : list GmailThread
}.

Definition setSheet (s : option (list Row)) (w : World) : World :=
  mkWorld s (faults w) (clock w) (webhook w) (outbox w) (replies w) (files w) (mailbox w).
Definition setFaults (f : list bool) (w : World) : World :=
  mkWorld (sheet w) f (clock w) (webhook w) (outbox w) (replies w) (files w) (mailbox w).
Definition setOutbox (o : list SlackPost) (w : World) : World :=
  mkWorld (sheet w) (faults w) (clock w) (webhook w) o (replies w) (files w) (mailbox w).
Definition setReplies (r : list Z) (w : World) : World :=
  mkWorld (sheet w) (faults w) (clock w) (webhook w) (outbox w) r (files w) (mailbox w).
Definition setFiles (f : list JsString) (w : World) : World :=
  mkWorld (sheet w) (faults w) (clock w) (webhook w) (outbox w) (replies w) f (mailbox w).

(** A script over a state [S]: it runs in a state, completes normally or
    throws, and leaves a state behind in both cases (effects done before a
    [throw] stay). *)
Definition ScriptOn (S A : Type) : Type := S -> Completion A * S.

(** Most scripts only touch the host services. *)
Definition Script (A : Type) : Type := ScriptOn World A.

Definition ret {S A} (a : A) : ScriptOn S A := fun s => (Normal a, s).

Definition throw {S A} (message : JsString) : ScriptOn S A :=
  fun s => (Throw message, s).

Definition bind {S A B} (m : ScriptOn S A) (k : A -> ScriptOn S B) : ScriptOn S B :=
  fun s =>
    match m s with
    | (Normal a, s') => k a s'
    | (Throw e, s') => (Throw e, s')
    end.

(** [try { body } catch (error) { handler }] *)
Definition tryCatch {S A} (body : ScriptOn S A) (handler : JsString -> ScriptOn S A)
  : ScriptOn S A :=
  fun s =>
    match body s with
    | (Normal a, s') => (Normal a, s')
    | (Throw e, s') => handler e s'
    end.

Declare Scope script_scope.
Delimit Scope script_scope with script.
Notation "x <- m ;; k" := (bind m (fun x => k))
  (at level 100, m at next level, right associativity) : script_scope.
Notation "m ;;; k" := (bind m (fun _ => k))
  (at level 100, right associativity) : script_scope.
Local Open Scope script_scope.

(** Calling a method of a message or thread object. *)
Definition call {S A} (c : Completion A) : ScriptOn S A := fun s => (c, s).

(** A call of a host API: it throws when the next scheduled outcome is a
    fault, and otherwise does [op]. *)
Definition host {A} (op : World -> A * World) : Script A :=
  fun w =>
    match faults w with
    | true :: fs => (Throw (lit "Service error"), setFaults fs w)
    | false :: fs => let (a, w') := op (setFaults fs w) in (Normal a, w')
    | [] => let (a, w') := op w in (Normal a, w')
    end.

(** [new Date().getTime()] *)
Definition now : Script Z := fun w => (Normal (clock w), w).

(* ================================================================== *)
(** * DeduplicationLedger (spreadsheetManager) *)

Definition MAX_ROWS : Z := 10000.
Definition CLEANUP_BATCH_SIZE : Z := 1000.
Definition HEADERS : Row :=
  [CStr (lit "Message ID"); CStr (lit "Subject"); CStr (lit "Sender");
   CStr (lit "Processed Date"); CStr (lit "Timestamp")].

(** [getOrCreateTrackingSpreadsheet()]: one host call that returns the
    spreadsheet or throws (its own [catch] rethrows). *)
Definition getOrCreateTrackingSpreadsheet : Script unit :=
  host (fun w => (tt, w)).

(** [spreadsheet.getSheetByName(SHEET_NAME)]: [false] stands for [null]. *)
Definition getSheetByName : Script bool :=
  host (fun w => (match sheet w with Some _ => true | None => false end, w)).

Definition rowsOf (w : World) : list Row :=
  match sheet w with Some rows => rows | None => [] end.

(** [sheet.getLastRow()] *)
Definition getLastRow : Script Z :=
  host (fun w => (Z.of_nat (length (rowsOf w)), w)).

Definition firstCell (r : Row) : Cell := nth 0 r (CStr []).

(** [sheet.getRange(row, 1, numRows, 1).getValues().flat()] *)
Definition getColumnValues (row numRows : Z) : Script (list Cell) :=
  host (fun w =>
          (map firstCell
             (firstn (Z.to_nat numRows) (skipn (Z.to_nat (row - 1)) (rowsOf w))),
           w)).

(** [sheet.appendRow(r)] *)
Definition appendRow (r : Row) : Script unit :=
  host (fun w => (tt, setSheet (Some (rowsOf w ++ [r])) w)).

(** [sheet.deleteRows(rowPosition, howMany)] *)
Definition deleteRows (rowPosition howMany : Z) : Script unit :=
  host (fun w =>
          (tt,
           setSheet
             (Some (firstn (Z.to_nat (rowPosition - 1)) (rowsOf w) ++
                    skipn (Z.to_nat (rowPosition - 1 + howMany)) (rowsOf w)))
             w)).

(** [messageIds.includes(messageId)] for a string [messageId]. *)
Definition cellIs (messageId : JsString) (c : Cell) : bool :=
  match c with
  | CStr s => jsEq s messageId
  | _ => false
  end.

Definition includes (messageIds : list Cell) (messageId : JsString) : bool :=
  existsb (cellIs messageId) messageIds.

(** The [try] block of [isMessageProcessedInSheet]. *)
Definition isMessageProcessedInSheet_try (messageId : JsString) : Script bool :=
  getOrCreateTrackingSpreadsheet ;;;
  found <- getSheetByName ;;
  if negb found then ret false
  else
    lastRow <- getLastRow ;;
    if lastRow <=? 1 then ret false
    else
      messageIds <- getColumnValues 2 (lastRow - 1) ;;
      ret (includes messageIds messageId).

Definition isMessageProcessedInSheet (messageId : JsString) : Script bool :=
  tryCatch (isMessageProcessedInSheet_try messageId) (fun _ => ret false).

(** The [try] block of [cleanupOldEntriesInSheet]. *)
Definition cleanupOldEntriesInSheet_try : Script unit :=
  getOrCreateTrackingSpreadsheet ;;;
  found <- getSheetByName ;;
  if negb found then ret tt
  else
    lastRow <- getLastRow ;;
    let rowsToDelete := lastRow - MAX_ROWS - 1 in
    if rowsToDelete <=? 0 then ret tt
    else deleteRows 2 (Z.min rowsToDelete CLEANUP_BATCH_SIZE).

Definition cleanupOldEntriesInSheet : Script unit :=
  tryCatch cleanupOldEntriesInSheet_try (fun _ => ret tt).

(** The [try] block of [markMessageProcessedInSheet]. *)
Definition markMessageProcessedInSheet_try (message : GmailMessage) : Script unit :=
  messageId <- call (getId message) ;;
  subject <- call (getSubject message) ;;
  sender <- call (getFrom message) ;;
  processedDate <- now ;;
  let timestamp := processedDate in
  getOrCreateTrackingSpreadsheet ;;;
  found <- getSheetByName ;;
  if negb found then throw (lit "ProcessedMessages sheet not found")
  else
    appendRow [CStr messageId; CStr subject; CStr sender;
               CDate processedDate; CNum timestamp] ;;;
    rowCount <- getLastRow ;;
    if MAX_ROWS + CLEANUP_BATCH_SIZE <? rowCount
    then cleanupOldEntriesInSheet
    else ret tt.

Definition markMessageProcessedInSheet (message : GmailMessage) : Script unit :=
  tryCatch (markMessageProcessedInSheet_try message) (fun _ => ret tt).

(** The row that [markMessageProcessedInSheet] appends for a message whose
    getters return, at time [t]. *)
Definition ledgerRow (messageId subject sender : JsString) (t : Z) : Row :=
  [CStr messageId; CStr subject; CStr sender; CDate t; CNum t].

(** The data rows of the sheet (all rows but the header) and the number of
    them that record [messageId]. *)
Definition dataRows (w : World) : list Row := tl (rowsOf w).

Definition entriesFor (messageId : JsString) (w : World) : nat :=
  length (filter (fun r => cellIs messageId (firstCell r)) (dataRows w)).

(** All three getters that [markMessageProcessedInSheet] calls return. *)
Definition readable (message : GmailMessage) : bool :=
  match getId message, getSubject message, getFrom message with
  | Normal _, Normal _, Normal _ => true
  | _, _, _ => false
  end.

(** [isMessageAlreadyProcessed] (emailProcessor). *)
Definition isMessageAlreadyProcessed_try (message : GmailMessage) : Script bool :=
  messageId <- call (getId message) ;;
  isProcessed <- isMessageProcessedInSheet messageId ;;
  if isProcessed then ret true else ret false.

Definition isMessageAlreadyProcessed (message : GmailMessage) : Script bool :=
  tryCatch (isMessageAlreadyProcessed_try message) (fun _ => ret false).

(* ================================================================== *)
(** * String operations of the host language *)

(** [String.prototype.trim]: white space and line terminators. *)
Definition isWhiteSpace (c : CodeUnit) : bool :=
  existsb (N.eqb c)
    [9; 10; 11; 12; 13; 32; 160; 5760; 8192; 8193; 8194; 8195; 8196; 8197;
     8198; 8199; 8200; 8201; 8202; 8232; 8233; 8239; 8287; 12288; 65279]%N.

Fixpoint trimStart (s : JsString) : JsString :=
  match s with
  | c :: s' => if isWhiteSpace c then trimStart s' else s
  | [] => []
  end.

Fixpoint trimEnd (s : JsString) : JsString :=
  match s with
  | [] => []
  | c :: s' =>
      match trimEnd s' with
      | [] => if isWhiteSpace c then [] else [c]
      | kept => c :: kept
      end
  end.

Definition trim (s : JsString) : JsString := trimEnd (trimStart s).

(** The global [replace] of the characters illegal in file names, which are
    less-than, greater-than, colon, double quote, slash, backslash, bar,
    question mark and star, by an underscore. *)
Definition isInvalidNameChar (c : CodeUnit) : bool :=
  existsb (N.eqb c) [60; 62; 58; 34; 47; 92; 124; 63; 42]%N.

Definition underscore : CodeUnit := 95%N.
Definition dot : CodeUnit := 46%N.

Definition replaceInvalid (s : JsString) : JsString :=
  map (fun c => if isInvalidNameChar c then underscore else c) s.

(** [s.split('.')]: never empty; the pieces in order. *)
Fixpoint splitDot (s : JsString) : list JsString :=
  match s with
  | [] => [[]]
  | c :: s' =>
      if N.eqb c dot then [] :: splitDot s'
      else match splitDot s' with
           | piece :: pieces => (c :: piece) :: pieces
           | [] => [[c]]
           end
  end.

(** [parts.join('.')] *)
Fixpoint joinDot (parts : list JsString) : JsString :=
  match parts with
  | [] => []
  | [p] => p
  | p :: ps => p ++ dot :: joinDot ps
  end.

(** The decimal digits of a number in a template literal. *)
Fixpoint uintUnits (d : Decimal.uint) : JsString :=
  match d with
  | Decimal.Nil => []
  | Decimal.D0 d => 48%N :: uintUnits d
  | Decimal.D1 d => 49%N :: uintUnits d
  | Decimal.D2 d => 50%N :: uintUnits d
  | Decimal.D3 d => 51%N :: uintUnits d
  | Decimal.D4 d => 52%N :: uintUnits d
  | Decimal.D5 d => 53%N :: uintUnits d
  | Decimal.D6 d => 54%N :: uintUnits d
  | Decimal.D7 d => 55%N :: uintUnits d
  | Decimal.D8 d => 56%N :: uintUnits d
  | Decimal.D9 d => 57%N :: uintUnits d
  end.

Definition decimal (n : nat) : JsString := uintUnits (Nat.to_uint n).

(** A non-negative integer such as [new Date().getTime()]. *)
Definition decimalZ (z : Z) : JsString := uintUnits (N.to_uint (Z.to_N z)).

Definition pad2 (z : Z) : JsString :=
  if z <? 10 then 48%N :: decimalZ z else decimalZ z.

(** [Utilities.formatDate(new Date(t), 'JST', 'HHmmss')], [t] in
    milliseconds since the epoch (JST is UTC+9, no daylight saving). *)
Definition formatHHmmss (t : Z) : JsString :=
  let secs := t / 1000 + 9 * 3600 in
  pad2 ((secs / 3600) mod 24) ++ pad2 ((secs / 60) mod 60) ++ pad2 (secs mod 60).

(** [s.startsWith(prefix)] *)
Fixpoint startsWith (s prefix : JsString) : bool :=
  match prefix, s with
  | [], _ => true
  | p :: prefix', c :: s' => N.eqb c p && startsWith s' prefix'
  | _ :: _, [] => false
  end.

(** [s.substring(0, n)] and [s.substring(n)] for [0 <= n]. *)
Definition substringTo (s : JsString) (n : nat) : JsString := firstn n s.
Definition substringFrom (s : JsString) (n : nat) : JsString := skipn n s.

(** [s.endsWith(suffix)] *)
Definition endsWith (s suffix : JsString) : bool :=
  startsWith (rev s) (rev suffix).

(** A string without a dot. *)
Definition noDot (s : JsString) : bool := forallb (fun c => negb (N.eqb c dot)) s.

(** [nameParts.pop()] and what is left of [nameParts]. *)
Definition popLast (parts : list JsString) : JsString * list JsString :=
  (last parts [], removelast parts).

(** The split of a file name into [baseName] and [extension] that both
    [generateSimpleFilename] and [ensureUniqueFilename] perform. *)
Definition splitExtension (name : JsString) : JsString * JsString :=
  let nameParts := splitDot name in
  if (1 <? length nameParts)%nat
  then let (ext, rest) := popLast nameParts in (joinDot rest, dot :: ext)
  else (joinDot nameParts, []).

(* ================================================================== *)
(** * AttachmentArchiver (driveManager) *)

(** The template [`${baseName}_${n}${extension}`] that both
    [generateSimpleFilename] and [ensureUniqueFilename] fill in. *)
Definition candidate (baseName extension : JsString) (n : nat) : JsString :=
  baseName ++ underscore :: decimal n ++ extension.

(** [generateSimpleFilename(index, originalName)], run at time [t].  On a
    string [originalName] no operation of its [try] block throws. *)
Definition generateSimpleFilename (t : Z) (index : nat) (originalName : JsString)
  : JsString :=
  let timestamp := formatHHmmss t in
  match trim originalName with
  | _ :: _ =>
      let cleanName := trim (replaceInvalid originalName) in
      if (0 <? index)%nat then
        let (baseName, extension) := splitExtension cleanName in
        candidate baseName extension (index + 1)
      else cleanName
  | [] =>
      lit "attachment_" ++ decimal (index + 1) ++ underscore :: timestamp
  end.

(** [folder.getFilesByName(name).hasNext()] *)
Definition hasFileNamed (name : JsString) : Script bool :=
  host (fun w => (existsb (jsEq name) (files w), w)).

(** The [do { } while (counter < 100)] loop of [ensureUniqueFilename]; the
    body runs first, the condition is tested after [counter++].  [fuel]
    bounds the iterations of the model only. *)
Fixpoint probeLoop (fuel : nat) (baseName extension : JsString) (counter : nat)
  : Script JsString :=
  let uniqueName := candidate baseName extension counter in
  conflict <- hasFileNamed uniqueName ;;
  if negb conflict then ret uniqueName
  else
    let counter := S counter in
    match fuel with
    | O => ret uniqueName
    | S fuel' =>
        if (counter <? 100)%nat
        then probeLoop fuel' baseName extension counter
        else ret uniqueName
    end.

Definition ensureUniqueFilename_try (fileName : JsString) : Script JsString :=
  conflict <- hasFileNamed fileName ;;
  if negb conflict then ret fileName
  else
    let (baseName, extension) := splitExtension fileName in
    probeLoop 100 baseName extension 1.

Definition ensureUniqueFilename (fileName : JsString) : Script JsString :=
  tryCatch (ensureUniqueFilename_try fileName)
    (fun _ =>
       timestamp <- now ;;
       ret (fileName ++ underscore :: decimalZ timestamp)).

Record Attachment : Type := mkAttachment {
  getName : JsString;
  getSize : Z
}.

(** The attachment info objects of [saveAttachmentToDrive] and of the
    [catch] of [processAttachments]. *)
Record AttachmentInfo : Type := mkInfo {
  originalName : JsString;
  savedName : option JsString;
  size : Z;
  errorInfo : option JsString
}.

(** [folder.createFile(blob)] for a blob named [name]. *)
Definition createFile (name : JsString) : Script unit :=
  host (fun w => (tt, setFiles (files w ++ [name]) w)).

(** [saveAttachmentToDrive]; its [catch] rethrows. *)
Definition saveAttachmentToDrive (attachment : Attachment) (index : nat)
  : Script AttachmentInfo :=
  let originalName := getName attachment in
  let size := getSize attachment in
  t <- now ;;
  let safeFileName := generateSimpleFilename t index originalName in
  finalFileName <- ensureUniqueFilename safeFileName ;;
  createFile finalFileName ;;;
  ret (mkInfo originalName (Some finalFileName) size None).

(** The [attachments.forEach((attachment, index) => ...)] of
    [processAttachments], from position [index] on. *)
Fixpoint processAttachments_forEach (attachments : list Attachment) (index : nat)
         (attachmentInfo : list AttachmentInfo) : Script (list AttachmentInfo) :=
  match attachments with
  | [] => ret attachmentInfo
  | attachment :: rest =>
      info <- tryCatch (saveAttachmentToDrive attachment index)
                (fun message =>
                   ret (mkInfo (getName attachment) None (getSize attachment)
                          (Some message))) ;;
      processAttachments_forEach rest (S index) (attachmentInfo ++ [info])
  end.

(** The stored names of the attachments saved, in order. *)
Definition savedNames (infos : list AttachmentInfo) : list (option JsString) :=
  map savedName infos.

(* ================================================================== *)
(** * Body formatting (emailProcessor: formatEmailBody) *)

Definition newline : CodeUnit := 10%N.

(** The longest prefix of white space, the class of the regular
    expression's [\s]. *)
Fixpoint takeWhite (s : JsString) : JsString :=
  match s with
  | c :: s' => if isWhiteSpace c then c :: takeWhite s' else []
  | [] => []
  end.

Definition countNewlines (s : JsString) : nat :=
  length (filter (N.eqb newline) s).

(** The number of code units of [s] up to and including its last newline
    (0 when it has none). *)
Fixpoint throughLastNewline (s : JsString) : nat :=
  match s with
  | [] => 0%nat
  | c :: s' =>
      let n := throughLastNewline s' in
      if (0 <? n)%nat then S n
      else if N.eqb c newline then 1%nat else 0%nat
  end.

(** The global replacement of the matches of newline, white space, newline,
    white space, newline by two newlines.  A match starts at a newline
    whose following run of white space holds two more newlines, and, the
    quantifiers being greedy, runs through the last newline of that run.
    [skip] counts the code units of the current match still to drop. *)
Fixpoint collapseFrom (skip : nat) (s : JsString) : JsString :=
  match s with
  | [] => []
  | c :: rest =>
      match skip with
      | S k => collapseFrom k rest
      | O =>
          if N.eqb c newline then
            let run := takeWhite rest in
            if (2 <=? countNewlines run)%nat
            then newline :: newline :: collapseFrom (throughLastNewline run) rest
            else c :: collapseFrom 0 rest
          else c :: collapseFrom 0 rest
      end
  end.

Definition replaceBlankRuns (s : JsString) : JsString := collapseFrom 0 s.

(** [s.lastIndexOf(needle)] for a non-empty needle: the last position at
    which [needle] occurs in [s], or -1. *)
Fixpoint lastIndexFrom (i : Z) (s needle : JsString) (found : Z) : Z :=
  let found := if startsWith s needle then i else found in
  match s with
  | [] => found
  | _ :: s' => lastIndexFrom (i + 1) s' needle found
  end.

Definition lastIndexOf (s needle : JsString) : Z := lastIndexFrom 0 s needle (-1).

(** The options of [CONFIG] that [formatEmailBody] reads. *)
Record BodyConfig : Type := mkBodyConfig {
  SHOW_FULL_EMAIL_BODY : bool;
  BODY_PREVIEW_LENGTH : Z
}.

(** The values of main.js. *)
Definition CONFIG_body : BodyConfig := mkBodyConfig true 20000.

(** The non-ASCII literals of [formatEmailBody], as code units. *)
Definition noBodyText : JsString := [95; 26412; 25991; 12394; 12375; 95]%N.
Definition shortModeMark : JsString :=
  [46; 46; 46; 10; 10; 95; 91; 31777; 30053; 34920; 31034; 12514; 12540; 12489; 93; 95]%N.
Definition omittedMark : JsString :=
  [10; 10; 95; 91; 20197; 19979; 30053; 93; 95]%N.
Definition ellipsisOmittedMark : JsString :=
  [46; 46; 46; 10; 10; 95; 91; 20197; 19979; 30053; 93; 95]%N.

(** [formatEmailBody(body)] for a string [body]; no operation of its [try]
    block throws on a string.  The test against
    [BODY_PREVIEW_LENGTH * 0.8] is made on integers, as
    [8 * BODY_PREVIEW_LENGTH < 10 * lastSentenceEnd]. *)
Definition formatEmailBody (cfg : BodyConfig) (body : JsString) : JsString :=
  match trim body with
  | [] => noBodyText
  | _ :: _ =>
      let cleanBody := trim (replaceBlankRuns body) in
      if negb (SHOW_FULL_EMAIL_BODY cfg) && (500 <? Z.of_nat (length cleanBody)) then
        let shortPreview := substringTo cleanBody 500 in
        let lastBreak :=
          Z.max (Z.max (lastIndexOf shortPreview [12290%N])
                       (lastIndexOf shortPreview [dot]))
                (lastIndexOf shortPreview [newline]) in
        let cutPoint := if 400 <? lastBreak then lastBreak + 1 else 500 in
        substringTo cleanBody (Z.to_nat cutPoint) ++ shortModeMark
      else if Z.of_nat (length cleanBody) <=? BODY_PREVIEW_LENGTH cfg then cleanBody
      else
        let truncated := substringTo cleanBody (Z.to_nat (BODY_PREVIEW_LENGTH cfg)) in
        let lastSentenceEnd :=
          Z.max (Z.max (lastIndexOf truncated [12290%N])
                       (lastIndexOf truncated [dot]))
                (lastIndexOf truncated [newline; newline]) in
        if 8 * BODY_PREVIEW_LENGTH cfg <? 10 * lastSentenceEnd
        then substringTo truncated (Z.to_nat (lastSentenceEnd + 1)) ++ omittedMark
        else truncated ++ ellipsisOmittedMark
  end.

(* ================================================================== *)
(** * NotificationDispatcher (slackNotifier) *)

(** [getProperty(PROPERTY_KEYS.SLACK_WEBHOOK_URL)], a required property:
    it throws when the property is missing or empty, and its [catch]
    rethrows. *)
Definition getProperty_SLACK_WEBHOOK_URL : Script JsString :=
  tryCatch
    (value <- host (fun w => (webhook w, w)) ;;
     match value with
     | Some (c :: s) => ret (c :: s)
     | _ => throw (lit "Required property SLACK_WEBHOOK_URL not found in script properties.")
     end)
    (fun e => throw e).

(** [UrlFetchApp.fetch(webhookUrl, { payload })] followed by
    [getResponseCode()]: the request is recorded, the next reply is read. *)
Definition fetch (post : SlackPost) : Script Z :=
  host (fun w =>
          match replies w with
          | code :: rest => (code, setReplies rest (setOutbox (outbox w ++ [post]) w))
          | [] => (200, setOutbox (outbox w ++ [post]) w)
          end).

(** [Utilities.sleep(ms)] *)
Definition sleep (ms : Z) : Script unit := host (fun w => (tt, w)).

(** [Utilities.formatDate(date, 'JST', 'HH:mm')] *)
Definition formatHHmm (t : Z) : JsString :=
  let secs := t / 1000 + 9 * 3600 in
  pad2 ((secs / 3600) mod 24) ++ 58%N :: pad2 ((secs / 60) mod 60).

(** The non-ASCII literals of [sendLongEmailBody], as code units. *)
Definition lastPartText : JsString :=
  [65288; 26368; 32066; 12497; 12540; 12488; 65289]%N.
Definition partTextOf (partNumber : nat) : JsString :=
  [65288; 12497; 12540; 12488; 32]%N ++ decimal partNumber ++ [65289]%N.
Definition referenceTextOf (dateStr : JsString) : JsString :=
  match dateStr with
  | _ :: _ => dateStr ++ [12398; 12513; 12540; 12523]%N
  | [] => [19978; 35352; 12513; 12540; 12523]%N
  end.
Definition fullBodyText (referenceText : JsString) : JsString :=
  [8627; 32]%N ++ referenceText ++ [12398; 26412; 25991; 20840; 25991; 12391; 12377]%N.
Definition footerOf (subject : JsString) : JsString :=
  [55357; 56551; 32]%N ++ subject.

Definition chunkSize : nat := 3500.

(** The message that the loop of [sendLongEmailBody] builds for a chunk. *)
Definition bodyPartPost (subject : JsString) (emailDate : option Z)
           (partNumber : nat) (isLastPart : bool) (chunk : JsString) : SlackPost :=
  let partText := if isLastPart then lastPartText else partTextOf partNumber in
  let dateStr := match emailDate with Some t => formatHHmm t | None => [] end in
  let referenceText := referenceTextOf dateStr in
  BodyPart (if Nat.eqb partNumber 1 then fullBodyText referenceText else [])
    partText chunk (footerOf subject).

(** The [while (remainingBody.length > 0)] loop of [sendLongEmailBody];
    it returns the final [(partNumber, totalSent)].  [fuel] bounds the
    iterations of the model only. *)
Fixpoint sendParts (fuel : nat) (subject : JsString) (emailDate : option Z)
         (remainingBody : JsString) (partNumber totalSent : nat)
  : Script (nat * nat) :=
  match remainingBody, fuel with
  | [], _ => ret (partNumber, totalSent)
  | _ :: _, O => ret (partNumber, totalSent)
  | _ :: _, S fuel' =>
      let chunk :=
        substringTo remainingBody (Nat.min chunkSize (length remainingBody)) in
      let remainingBody := substringFrom remainingBody (length chunk) in
      let isLastPart := Nat.eqb (length remainingBody) 0 in
      let message := bodyPartPost subject emailDate partNumber isLastPart chunk in
      sleep 1000 ;;;
      code <- fetch message ;;
      if negb (code =? 200) then ret (partNumber, totalSent)
      else sendParts fuel' subject emailDate remainingBody
             (S partNumber) (totalSent + length chunk)%nat
  end.

Definition sendLongEmailBody (subject fullBody : JsString) (emailDate : option Z)
  : Script unit :=
  tryCatch
    (getProperty_SLACK_WEBHOOK_URL ;;;
     sendParts (length fullBody) subject emailDate fullBody 1 0 ;;;
     ret tt)
    (fun _ => ret tt).

(** The data handed to [sendSlackNotification]; [body] is the output of
    [formatEmailBody]. *)
Record EmailData : Type := mkEmailData {
  subject : JsString;
  sender : JsString;
  date : option Z;
  body : JsString
}.

(** The step of [sendSlackNotification] (webhook transport) that follows a
    primary post answered 200:
    [if (emailData.body && emailData.body.length > 1000) sendLongEmailBody(...)]. *)
Definition sendSlackNotification_longBody (emailData : EmailData) : Script unit :=
  match body emailData with
  | [] => ret tt
  | _ :: _ =>
      if (1000 <? length (body emailData))%nat
      then sendLongEmailBody (subject emailData) (body emailData) (date emailData)
      else ret tt
  end.

(** The [emailData] that [processMessage] hands to [sendSlackNotification]:
    its [body] is [formatEmailBody(body)]. *)
Definition notifiedEmailData (cfg : BodyConfig) (subject sender : JsString)
           (date : option Z) (body : JsString) : EmailData :=
  mkEmailData subject sender date (formatEmailBody cfg body).

(** The chunk texts of the body parts among some posts, in order. *)
Definition bodyChunks (posts : list SlackPost) : list JsString :=
  flat_map (fun p => match p with
                     | BodyPart _ _ chunk _ => [chunk]
                     | _ => []
                     end) posts.

(** [sendErrorSummary]: everything in a [try] whose [catch] only logs. *)
Definition sendErrorSummary (processed errors : nat) (executionTime : Z)
  : Script unit :=
  tryCatch
    (getProperty_SLACK_WEBHOOK_URL ;;;
     fetch (ErrorSummary processed errors executionTime) ;;;
     ret tt)
    (fun _ => ret tt).

(** [sendErrorNotification]: likewise. *)
Definition sendErrorNotification (errorMessage : JsString) : Script unit :=
  tryCatch
    (getProperty_SLACK_WEBHOOK_URL ;;;
     fetch (ErrorNotification errorMessage) ;;;
     ret tt)
    (fun _ => ret tt).

(* ================================================================== *)
(** * IngestionCoordinator (main: processEmails) *)

(** The local variables of one run of [processEmails], next to the host
    state. *)
Record Run : Type := mkRun {
  world : World;
  processedCount : nat;
  errorCount : nat;
  checkedCount : nat;
  threadHasNewMessages : bool
}.

(** What the run logs at 'Processing Complete'. *)
Record Report : Type := mkReport {
  checked : nat;
  processed : nat;
  errors : nat
}.

(** A host script run from inside [processEmails]. *)
Definition inWorld {A} (m : Script A) : ScriptOn Run A :=
  fun r =>
    let (c, w') := m (world r) in
    (c, mkRun w' (processedCount r) (errorCount r) (checkedCount r)
          (threadHasNewMessages r)).

Definition incrChecked : ScriptOn Run unit :=
  fun r => (Normal tt, mkRun (world r) (processedCount r) (errorCount r)
                         (S (checkedCount r)) (threadHasNewMessages r)).
Definition incrProcessed : ScriptOn Run unit :=
  fun r => (Normal tt, mkRun (world r) (S (processedCount r)) (errorCount r)
                         (checkedCount r) (threadHasNewMessages r)).
Definition incrError : ScriptOn Run unit :=
  fun r => (Normal tt, mkRun (world r) (processedCount r) (S (errorCount r))
                         (checkedCount r) (threadHasNewMessages r)).
Definition setThreadHasNewMessages (b : bool) : ScriptOn Run unit :=
  fun r => (Normal tt, mkRun (world r) (processedCount r) (errorCount r)
                         (checkedCount r) b).

(** [xs.forEach(f)] *)
Fixpoint forEach {S X} (f : X -> ScriptOn S unit) (xs : list X) : ScriptOn S unit :=
  match xs with
  | [] => ret tt
  | x :: rest => f x ;;; forEach f rest
  end.

(** [validateConfiguration]: the webhook URL must be there and well formed;
    [getOrCreateDriveFolder()] is one host call. *)
Definition validateConfiguration : Script unit :=
  webhookUrl <- getProperty_SLACK_WEBHOOK_URL ;;
  if negb (startsWith webhookUrl (lit "https://hooks.slack.com/"))
  then throw (lit "Invalid Slack webhook URL in script properties")
  else host (fun w => (tt, w)).

(** [GmailApp.search(query, 0, MAX_EMAILS_PER_RUN * 3)] *)
Definition search : Script (list GmailThread) :=
  host (fun w => (mailbox w, w)).

(** [addProcessedLabel(thread)]: two Gmail calls in a [try] whose [catch]
    only logs; labels are not part of [World]. *)
Definition addProcessedLabel : Script unit :=
  tryCatch (host (fun w => (tt, w)) ;;; host (fun w => (tt, w)))
    (fun _ => ret tt).

Section Coordinator.

(** [processMessage(message)] classifies, archives and notifies.  Its
    whole body is a [try] whose [catch] returns [false], so it always
    returns a boolean; it reads and writes Drive and the Slack channel of
    notifications but never the tracking sheet, the summary posts or the
    counters, so here it is the boolean it returns. *)
Variable processMessage : GmailMessage -> bool.

(** The [try] block of the callback of [messages.forEach]. *)
Definition forEachMessage_try (message : GmailMessage) : ScriptOn Run unit :=
  incrChecked ;;;
  trashed <- call (isInTrash message) ;;
  if trashed then ret tt
  else
    already <- inWorld (isMessageAlreadyProcessed message) ;;
    if already then ret tt
    else
      call (getSubject message) ;;;
      if processMessage message then
        incrProcessed ;;;
        setThreadHasNewMessages true ;;;
        inWorld (markMessageProcessedInSheet message)
      else ret tt.

Definition forEachMessage (message : GmailMessage) : ScriptOn Run unit :=
  tryCatch (forEachMessage_try message) (fun _ => incrError).

(** The [try] block of the callback of [threads.forEach]. *)
Definition forEachThread_try (thread : GmailThread) : ScriptOn Run unit :=
  call (getFirstMessageSubject thread) ;;;
  messages <- call (getMessages thread) ;;
  setThreadHasNewMessages false ;;;
  forEach forEachMessage messages ;;;
  fun r =>
    (if threadHasNewMessages r then inWorld addProcessedLabel else ret tt) r.

Definition forEachThread (thread : GmailThread) : ScriptOn Run unit :=
  tryCatch (forEachThread_try thread) (fun _ => incrError).

(** The [try] block of [processEmails].  [None] is the early [return]
    on an empty search result. *)
Definition processEmails_try (startTime : Z) : Script (option Report) :=
  validateConfiguration ;;;
  threads <- search ;;
  if Nat.eqb (length threads) 0 then ret None
  else
    fun w =>
      match forEach forEachThread threads (mkRun w 0 0 0 false) with
      | (Throw e, r) => (Throw e, world r)
      | (Normal _, r) =>
          (endTime <- now ;;
           let executionTime := endTime - startTime in
           (if (0 <? errorCount r)%nat
            then sendErrorSummary (processedCount r) (errorCount r) executionTime
            else ret tt) ;;;
           ret (Some (mkReport (checkedCount r) (processedCount r) (errorCount r))))
            (world r)
      end.

Definition processEmails : Script (option Report) :=
  startTime <- now ;;
  tryCatch (processEmails_try startTime)
    (fun message =>
       sendErrorNotification
         (lit "Critical error in Gmail forwarder: " ++ message) ;;;
       throw message).

(** Observers of a run, used to state what its counters count.
    [raised m s] is 1 when script [m] throws from state [s]. *)
Definition raised {S A} (m : ScriptOn S A) (s : S) : nat :=
  match fst (m s) with
  | Throw _ => 1%nat
  | Normal _ => 0%nat
  end.

(** The number of messages of [ms] whose [try] block throws, each run in
    the state its predecessors left. *)
Fixpoint messageFailures (ms : list GmailMessage) (r : Run) : nat :=
  match ms with
  | [] => 0%nat
  | m :: rest =>
      (raised (forEachMessage_try m) r +
       messageFailures rest (snd (forEachMessage m r)))%nat
  end.

(** The messages of a thread whose two getters return. *)
Definition threadMessages (thread : GmailThread) : option (list GmailMessage) :=
  match getFirstMessageSubject thread, getMessages thread with
  | Normal _, Normal ms => Some ms
  | _, _ => None
  end.

Definition startThread (r : Run) : Run :=
  mkRun (world r) (processedCount r) (errorCount r) (checkedCount r) false.

(** The failures of a batch: one per thread whose getters throw, and the
    message failures of the other threads. *)
Fixpoint batchFailures (threads : list GmailThread) (r : Run) : nat :=
  match threads with
  | [] => 0%nat
  | thread :: rest =>
      (match threadMessages thread with
       | None => 1
       | Some ms => messageFailures ms (startThread r)
       end +
       batchFailures rest (snd (forEachThread thread r)))%nat
  end.

(** The number of messages a batch holds in threads that can be read. *)
Fixpoint batchSize (threads : list GmailThread) : nat :=
  match threads with
  | [] => 0%nat
  | thread :: rest =>
      (match threadMessages thread with
       | None => 0
       | Some ms => length ms
       end + batchSize rest)%nat
  end.

End Coordinator.

(* ================================================================== *)
(** * Sample data *)

(** A message that is not in the trash and whose getters return. *)
Definition sampleMessage (n : nat) : GmailMessage :=
  mkMessage (Normal (lit "msg-" ++ decimal n)) (Normal (lit "subject"))
    (Normal (lit "sender@example.com")) (Normal false).

(** A message whose [isInTrash] throws. *)
Definition brokenMessage : GmailMessage :=
  mkMessage (Normal (lit "msg-broken")) (Normal (lit "subject"))
    (Normal (lit "sender@example.com")) (Throw (lit "Service error")).

(** A reliable world with a freshly created tracking sheet. *)
Definition freshWorld : World :=
  mkWorld (Some [HEADERS]) [] 1700000000000
    (Some (lit "https://hooks.slack.com/services/T/B/x")) [] [] [] [].

(** A sample pattern language: a literal that the subject must start with;
    [None] is a configured value that is no regular expression, so its
    [test] throws. *)
Definition SamplePattern : Type := option JsString.
Definition sampleToString (p : SamplePattern) : JsString :=
  match p with
  | Some s => lit "/^" ++ s ++ lit "/"
  | None => lit "null"
  end.
Definition sampleTest (p : SamplePattern) (subject : JsString) : Completion bool :=
  match p with
  | Some s => Normal (startsWith subject s)
  | None => Throw (lit "pattern.test is not a function")
  end.
Definition sampleMatch (subject : JsString) (p : SamplePattern) : unit := tt.

Definition samplePatterns : list SamplePattern :=
  [Some (lit "x"); None; Some (lit "ab"); Some (lit "a")].

(** A mailbox of one thread of three messages, the second of which cannot
    be read, and a reliable world holding it. *)
Definition sampleThread : GmailThread :=
  mkThread (Normal (lit "subject"))
    (Normal [sampleMessage 1; brokenMessage; sampleMessage 2]).

Definition sampleMailboxWorld : World :=
  mkWorld (Some [HEADERS]) [] 1700000000000
    (Some (lit "https://hooks.slack.com/services/T/B/x")) [] [] [] [sampleThread].

(** A folder that holds a.txt and every a_1.txt ... a_99.txt. *)
Definition crowdedFolder : list JsString :=
  lit "a.txt" :: map (candidate (lit "a") (lit ".txt")) (seq 1 99).

Definition crowdedWorld : World := setFiles crowdedFolder freshWorld.

(** A body of 3501 code units, and a world whose webhook rejects the next
    request. *)
Definition longBody : JsString := repeat 97%N 3501.
Definition rejectingWorld : World := setReplies [500] freshWorld.

(** A long body of 20001 code units. *)
Definition veryLongBody : JsString := repeat 97%N (Z.to_nat 20001).

(* ================================================================== *)
(** * Invariants of scripts *)

(** [preserves I m]: the state left by [m], whether it returns or throws,
    satisfies [I] when the state it started in does. *)
Definition preserves {S A} (I : S -> Prop) (m : ScriptOn S A) : Prop :=
  forall s, I s -> I (snd (m s)).

(** The invariants used below: scripts that do not post keep the outbox,
    and a store without scheduled faults stays so. *)
Definition sameOutbox (o : list SlackPost) (w : World) : Prop := outbox w = o.
Definition reliable (w : World) : Prop := faults w = [].
Definition sameWebhook (u : option JsString) (w : World) : Prop := webhook w = u.

(** The names [ensureUniqueFilename] can give to the first and to the
    second of two attachments called report.pdf. *)
Definition firstReportNames : list JsString :=
  lit "report.pdf" :: map (candidate (lit "report") (lit ".pdf")) (seq 1 99).
Definition secondReportProbes : list JsString :=
  map (candidate (lit "report_2") (lit ".pdf")) (seq 1 99).

(* ================================================================== *)
(** * Folder names (driveManager: cleanSubjectForFolder) *)

Definition space : CodeUnit := 32%N.

(** The global replacement of every maximal run of white space by one
    space.  [inRun] tells that the unit before was white space, so that the
    run it belongs to has been replaced already. *)
Fixpoint collapseWhite (inRun : bool) (s : JsString) : JsString :=
  match s with
  | [] => []
  | c :: rest =>
      if isWhiteSpace c
      then if inRun then collapseWhite true rest else space :: collapseWhite true rest
      else c :: collapseWhite false rest
  end.

Definition replaceWhiteRuns (s : JsString) : JsString := collapseWhite false s.

(** The global replacement of each of [units] by an underscore. *)
Definition replaceEach (units : list CodeUnit) (s : JsString) : JsString :=
  map (fun c => if existsb (N.eqb c) units then underscore else c) s.

(** The Japanese brackets and the slashes that [cleanSubjectForFolder]
    replaces after it has cut the subject. *)
Definition cornerBrackets : list CodeUnit := [12304; 12305]%N.
Definition quoteBrackets : list CodeUnit := [12300; 12301]%N.
Definition slashes : list CodeUnit := [65295; 47]%N.

(** [cleanSubjectForFolder(subject)] for a string [subject], on which no
    operation of its [try] block throws. *)
Definition cleanSubjectForFolder (subject : JsString) : JsString :=
  replaceEach slashes
    (replaceEach quoteBrackets
       (replaceEach cornerBrackets
          (substringTo (trim (replaceWhiteRuns (replaceInvalid subject))) 100))).

(** A string in which no two units of white space follow each other. *)
Fixpoint spaced (s : JsString) : bool :=
  match s with
  | c :: (d :: _) as rest => negb (isWhiteSpace c && isWhiteSpace d) && spaced rest
  | _ => true
  end.

(** The units that a folder name made by [cleanSubjectForFolder] cannot
    hold. *)
Definition isUnwantedInFolderName (c : CodeUnit) : bool :=
  isInvalidNameChar c || existsb (N.eqb c) (cornerBrackets ++ quoteBrackets ++ slashes).

(* ================================================================== *)
(** * Blank runs (emailProcessor: formatEmailBody) *)

(** No newline of [s] is followed by white space that holds two more
    newlines: the regular expression of [formatEmailBody] matches
    nowhere. *)
Fixpoint blankRunFree (s : JsString) : bool :=
  match s with
  | [] => true
  | c :: rest =>
      negb (N.eqb c newline && (2 <=? countNewlines (takeWhite rest))%nat) &&
      blankRunFree rest
  end.

(* ================================================================== *)
(** * The main message (slackNotifier: buildSlackMessage) *)

(** The note that ends a preview that has been cut. *)
Definition previewMark : JsString :=
  [10; 10; 95; 91; 26412; 25991; 12398; 20840; 25991; 12399; 32154; 12365; 12398;
   12513; 12483; 12475; 12540; 12472; 12391; 34920; 31034; 12373; 12428; 12414;
   12377; 93; 95]%N.

(** The [bodyPreview] that [buildSlackMessage] puts in the body field of
    the main message. *)
Definition buildSlackMessage_bodyPreview (emailData : EmailData) : JsString :=
  let bodyPreview := match body emailData with [] => noBodyText | _ :: _ => body emailData end in
  let isLongBody := (1000 <? length bodyPreview)%nat in
  if isLongBody then substringTo bodyPreview 500 ++ previewMark else bodyPreview.

(* ================================================================== *)
(** * Folder links (slackNotifier: sendDriveFolderNotification) *)

(** The two properties of a saved attachment that the folder notification
    reads; [None] is [undefined] or [null]. *)
Record SavedAttachment : Type := mkSaved {
  folderUrl : option JsString;
  folderPath : option JsString
}.

Record FolderLink : Type := mkFolderLink {
  url : JsString;
  path : JsString
}.

(** [map.set(key, value)] on the entries of a [Map], kept in insertion
    order: a key that is there keeps its place and gets the new value. *)
Fixpoint mapSet (key : JsString) (value : FolderLink) (entries : list (JsString * FolderLink))
  : list (JsString * FolderLink) :=
  match entries with
  | [] => [(key, value)]
  | (k, v) :: rest =>
      if jsEq k key then (k, value) :: rest else (k, v) :: mapSet key value rest
  end.

(** [new Map(pairs)] *)
Definition newMap (pairs : list (JsString * FolderLink)) : list (JsString * FolderLink) :=
  fold_left (fun entries p => mapSet (fst p) (snd p) entries) pairs [].

(** The pair that [.map(att => [att.folderUrl, { url, path }])] makes of an
    attachment that passed the filter [att.folderUrl && att.folderPath]. *)
Definition folderPair (att : SavedAttachment) : list (JsString * FolderLink) :=
  match folderUrl att, folderPath att with
  | Some (c :: u), Some (d :: p) => [(c :: u, mkFolderLink (c :: u) (d :: p))]
  | _, _ => []
  end.

(** The [uniqueFolders] of [sendDriveFolderNotification]. *)
Definition uniqueFolders (savedAttachments : list SavedAttachment) : list FolderLink :=
  map snd (newMap (flat_map folderPair savedAttachments)).

(* ================================================================== *)
(** * Ledger statistics (spreadsheetManager: getTrackingStats) *)

Record TrackingStats : Type := mkTrackingStats {
  messageCount : Z;
  oldestDate : option Z;
  newestDate : option Z;
  rowLimit : Z
}.

(** [sheet.getRange(row, column, numRows, 1).getValues().flat()]; a cell
    that was never written reads as the empty string. *)
Definition getRangeColumn (row column numRows : Z) : Script (list Cell) :=
  host (fun w =>
          (map (fun r => nth (Z.to_nat (column - 1)) r (CStr []))
             (firstn (Z.to_nat numRows) (skipn (Z.to_nat (row - 1)) (rowsOf w))),
           w)).

(** [dates.filter(d => d instanceof Date).map(d => d.getTime())] *)
Definition validDateTimes (dates : list Cell) : list Z :=
  flat_map (fun d => match d with CDate t => [t] | _ => [] end) dates.

(** The [try] block of [getTrackingStats]; [None] is [null]. *)
Definition getTrackingStats_try : Script (option TrackingStats) :=
  getOrCreateTrackingSpreadsheet ;;;
  found <- getSheetByName ;;
  if negb found then ret None
  else
    lastRow <- getLastRow ;;
    let messageCount := Z.max 0 (lastRow - 1) in
    range <- (if 0 <? messageCount
              then
                dates <- getRangeColumn 2 4 messageCount ;;
                match validDateTimes dates with
                | [] => ret (None, None)
                | t :: times =>
                    ret (Some (fold_left Z.min times t), Some (fold_left Z.max times t))
                end
              else ret (None, None)) ;;
    host (fun w => (tt, w)) ;;;
    host (fun w => (tt, w)) ;;;
    ret (Some (mkTrackingStats messageCount (fst range) (snd range) MAX_ROWS)).

Definition getTrackingStats : Script (option TrackingStats) :=
  tryCatch getTrackingStats_try (fun _ => ret None).

(* ================================================================== *)
(** * Message processing (emailProcessor: processMessage) *)

(** The further getters of a Gmail message that [processMessage] calls. *)
Record MessageContent : Type := mkContent {
  getDate : Completion Z;
  getPlainBody : Completion JsString;
  getAttachments : Completion (list Attachment)
}.

(** The info that [processMessage] makes for an attachment when
    [processAttachments] has thrown. *)
Definition processingFailed (attachment : Attachment) : AttachmentInfo :=
  mkInfo (getName attachment) None (getSize attachment) (Some (lit "Processing failed")).

Section ProcessMessage.

Variable Pattern : Type.
Variable toString : Pattern -> JsString.
Variable test : Pattern -> JsString -> Completion bool.
Variable MatchArray : Type.
Variable jsMatch : JsString -> Pattern -> MatchArray.

(** [CONFIG], as far as [processMessage] and the functions it calls read
    it. *)
Variable patternConfig : PatternConfig Pattern.
Variable bodyConfig : BodyConfig.

(** The two services [processMessage] calls, whatever they do:
    [processAttachments(attachments, subject, date)] and
    [sendSlackNotification(emailData)], the latter with the attachment
    infos of its [emailData]. *)
Variable processAttachments :
  list Attachment -> JsString -> Z -> Script (list AttachmentInfo).
Variable sendSlackNotification : EmailData -> list AttachmentInfo -> Script unit.

(** The [try] block of [processMessage]. *)
Definition processMessage_try (message : GmailMessage) (content : MessageContent)
  : Script bool :=
  subject <- call (getSubject message) ;;
  sender <- call (getFrom message) ;;
  date <- call (getDate content) ;;
  body <- call (getPlainBody content) ;;
  attachments <- call (getAttachments content) ;;
  messageId <- call (getId message) ;;
  let patternMatch := checkSubjectPattern toString test jsMatch patternConfig subject in
  if negb (isMatch patternMatch) then ret false
  else
    attachmentInfo <-
      (if (0 <? length attachments)%nat
       then tryCatch (processAttachments attachments subject date)
              (fun _ => ret (map processingFailed attachments))
       else ret []) ;;
    tryCatch
      (sendSlackNotification
         (mkEmailData subject sender (Some date) (formatEmailBody bodyConfig body))
         attachmentInfo)
      (fun _ => ret tt) ;;;
    ret true.

Definition processMessage (message : GmailMessage) (content : MessageContent)
  : Script bool :=
  tryCatch (processMessage_try message content) (fun _ => ret false).

End ProcessMessage.

(* ================================================================== *)
(** * The entry point of the archiver (driveManager: processAttachments) *)

Section ProcessAttachments.

(** What [processAttachments] does before its loop, whatever it does:
    [getProperty(PROPERTY_KEYS.DRIVE_FOLDER_ID)], outside the [try], and
    inside it the opening of the folder of the email
    ([DriveApp.getFolderById], [createEmailFolder] and the getters of the
    two folders that are logged).  [files] are the files of the folder
    opened. *)
Variable getProperty_DRIVE_FOLDER_ID : Script JsString.
Variable openEmailFolder : JsString -> JsString -> Z -> Script unit.

Definition processAttachments (attachments : list Attachment) (subject : JsString)
           (emailDate : Z) : Script (list AttachmentInfo) :=
  if Nat.eqb (length attachments) 0 then ret []
  else
    baseFolderId <- getProperty_DRIVE_FOLDER_ID ;;
    tryCatch
      (openEmailFolder baseFolderId subject emailDate ;;;
       processAttachments_forEach attachments 0 [])
      (fun message => throw (lit "Drive folder access failed: " ++ message)).

End ProcessAttachments.

(* ================================================================== *)
(** * Further observers of a run *)

(** A thread whose getters throw. *)
Definition unreadable (thread : GmailThread) : bool :=
  match threadMessages thread with
  | None => true
  | Some _ => false
  end.

(** The names of the files that attachment infos report as saved. *)
Definition savedFiles (infos : list AttachmentInfo) : list JsString :=
  flat_map (fun info => match savedName info with
                        | Some name => [name]
                        | None => []
                        end) infos.

(* ================================================================== *)
(** * Facts about strings *)

Lemma jsEq_refl (s : JsString) : jsEq s s = true.
Proof.
  induction s as [|c s IH]; simpl; [reflexivity|].
  unfold unit_eqb. now rewrite N.eqb_refl, IH.
Qed.

Lemma jsEq_eq (s t : JsString) : jsEq s t = true <-> s = t.
Proof.
  split.
  - revert t. induction s as [|c s IH]; intros [|d t]; simpl; try discriminate; auto.
    intros H. apply andb_true_iff in H as [Hc Hs].
    apply N.eqb_eq in Hc. subst d. f_equal. now apply IH.
  - intros ->. apply jsEq_refl.
Qed.

Lemma jsEq_neq (s t : JsString) : jsEq s t = false <-> s <> t.
Proof.
  split.
  - intros H E. apply jsEq_eq in E. congruence.
  - intros H. destruct (jsEq s t) eqn:E; [|reflexivity].
    apply jsEq_eq in E. contradiction.
Qed.

(** The first element of a list that satisfies a test, with what precedes
    it. *)
Lemma first_split {A} (f : A -> bool) (l : list A) :
  existsb f l = true ->
  exists pre x post,
    l = pre ++ x :: post /\ (forall y, In y pre -> f y = false) /\ f x = true.
Proof.
  induction l as [|a l IH]; simpl; [discriminate|].
  destruct (f a) eqn:Fa.
  - intros _. exists [], a, l. repeat split; auto. intros y [].
  - simpl. intros H. destruct (IH H) as (pre & x & post & -> & Hpre & Hx).
    exists (a :: pre), x, post. repeat split; auto.
    intros y [<-|Hy]; auto.
Qed.

(* ================================================================== *)
(** * The classifier *)

Section ClassifierFacts.

Variable Pattern : Type.
Variable toString : Pattern -> JsString.
Variable test : Pattern -> JsString -> Completion bool.
Variable MatchArray : Type.
Variable jsMatch : JsString -> Pattern -> MatchArray.

Local Abbreviation evaluate := (evaluatePattern toString test jsMatch).
Local Abbreviation loop := (patternLoop toString test jsMatch).
Local Abbreviation classify := (checkMultiplePatterns toString test jsMatch).
Local Abbreviation classifySubject := (checkSubjectPattern toString test jsMatch).
Local Abbreviation matchesP := (matches test).

Lemma matches_true (S : JsString) (p : Pattern) :
  matchesP S p = true <-> test p S = Normal true.
Proof.
  unfold matches. destruct (test p S) as [[|]|]; split; congruence.
Qed.

Lemma evaluatePattern_isMatch (S : JsString) (p : Pattern) :
  isMatchP (evaluate S p) = matchesP S p.
Proof.
  unfold evaluatePattern, matches.
  destruct (test p S) as [[|]|]; reflexivity.
Qed.

Lemma evaluatePattern_pattern (S : JsString) (p : Pattern) :
  pattern (evaluate S p) = toString p.
Proof.
  unfold evaluatePattern. destruct (test p S); reflexivity.
Qed.

(** The loop runs to its end over patterns none of which matches. *)
Lemma patternLoop_no_match mode S ps results checked :
  (forall p, In p ps -> matchesP S p = false) ->
  loop mode S ps results checked =
  inr (results ++ map (evaluate S) ps, checked ++ map toString ps).
Proof.
  revert results checked.
  induction ps as [|p ps IH]; intros results checked H; simpl.
  - now rewrite !app_nil_r.
  - assert (Hp : matchesP S p = false) by (apply H; now left).
    unfold matches in Hp.
    destruct (test p S) as [[|]|] eqn:T; try discriminate;
      rewrite IH by (intros q Hq; apply H; now right);
      now rewrite <- !app_assoc.
Qed.

(** In 'any' mode the loop returns at the first pattern that matches. *)
Lemma patternLoop_any_first S pre p post results checked :
  (forall q, In q pre -> matchesP S q = false) ->
  matchesP S p = true ->
  loop (lit "any") S (pre ++ p :: post) results checked =
  inl (mkMatchResult true (Defined (toString p))
         (checked ++ map toString (pre ++ [p]))
         (Some (results ++ map (evaluate S) (pre ++ [p])))
         (Some (lit "any")) None None None).
Proof.
  revert results checked.
  induction pre as [|q pre IH]; intros results checked Hpre Hp; simpl.
  - apply matches_true in Hp. now rewrite Hp.
  - assert (Hq : matchesP S q = false) by (apply Hpre; now left).
    unfold matches in Hq.
    destruct (test q S) as [[|]|] eqn:T; try discriminate;
      rewrite IH by (auto; intros r Hr; apply Hpre; now right);
      now rewrite <- !app_assoc.
Qed.

(** In any other mode the loop never returns early. *)
Lemma patternLoop_all mode S ps results checked :
  jsEq mode (lit "any") = false ->
  loop mode S ps results checked =
  inr (results ++ map (evaluate S) ps, checked ++ map toString ps).
Proof.
  intros Hm. revert results checked.
  induction ps as [|p ps IH]; intros results checked; simpl.
  - now rewrite !app_nil_r.
  - rewrite Hm.
    destruct (test p S) as [[|]|]; rewrite IH; now rewrite <- !app_assoc.
Qed.

Lemma existsb_evaluate S ps :
  existsb (@isMatchP MatchArray) (map (evaluate S) ps) = existsb (matchesP S) ps.
Proof.
  induction ps as [|p ps IH]; simpl; [reflexivity|].
  now rewrite evaluatePattern_isMatch, IH.
Qed.

Lemma forallb_evaluate S ps :
  forallb (@isMatchP MatchArray) (map (evaluate S) ps) = forallb (matchesP S) ps.
Proof.
  induction ps as [|p ps IH]; simpl; [reflexivity|].
  now rewrite evaluatePattern_isMatch, IH.
Qed.

Lemma not_true_matches S p : test p S <> Normal true -> matchesP S p = false.
Proof.
  intros H. destruct (matchesP S p) eqn:E; [|reflexivity].
  apply matches_true in E. contradiction.
Qed.

(** C4.  In 'any' mode, for every subject and every pattern list (empty or
    not), [checkMultiplePatterns] answers [isMatch = true] exactly when some
    pattern of the list matches the subject; then the list splits at its
    first matching pattern, [matchedPattern] is that pattern, and the
    patterns evaluated are those up to it and no further. *)
Theorem checkMultiplePatterns_any_mode (cfg : SubjectPatterns Pattern) (S : JsString) :
  matchModeOf cfg = lit "any" ->
  let r := classify cfg S in
  (isMatch r = true <->
   exists p, In p (patternsOf cfg) /\ test p S = Normal true) /\
  (forall pre p post,
      patternsOf cfg = pre ++ p :: post ->
      (forall q, In q pre -> test q S <> Normal true) ->
      test p S = Normal true ->
      isMatch r = true /\
      matchedPattern r = Defined (toString p) /\
      checkedPatterns r = map toString (pre ++ [p])) /\
  (isMatch r = true ->
   exists pre p post,
     patternsOf cfg = pre ++ p :: post /\
     (forall q, In q pre -> test q S <> Normal true) /\
     test p S = Normal true /\
     matchedPattern r = Defined (toString p)).
Proof.
  intros Hmode r.
  assert (Hfirst : forall pre p post,
             patternsOf cfg = pre ++ p :: post ->
             (forall q, In q pre -> test q S <> Normal true) ->
             test p S = Normal true ->
             r = mkMatchResult true (Defined (toString p))
                   (map toString (pre ++ [p]))
                   (Some (map (evaluate S) (pre ++ [p])))
                   (Some (lit "any")) None None None).
  { intros pre p post HP Hpre Hp. subst r. unfold checkMultiplePatterns.
    rewrite Hmode, HP.
    rewrite patternLoop_any_first;
      [reflexivity | intros q Hq; now apply not_true_matches, Hpre
      | now apply matches_true]. }
  assert (Hsplit : existsb (matchesP S) (patternsOf cfg) = true ->
                   exists pre p post,
                     patternsOf cfg = pre ++ p :: post /\
                     (forall q, In q pre -> test q S <> Normal true) /\
                     test p S = Normal true).
  { intros E. destruct (first_split _ _ E) as (pre & p & post & HP & Hpre & Hp).
    exists pre, p, post. repeat split; auto.
    - intros q Hq T. apply matches_true in T. rewrite (Hpre q Hq) in T. discriminate.
    - now apply matches_true. }
  assert (Hnone : existsb (matchesP S) (patternsOf cfg) = false -> isMatch r = false).
  { intros E. subst r. unfold checkMultiplePatterns. rewrite Hmode.
    rewrite patternLoop_no_match.
    - simpl. now rewrite existsb_evaluate.
    - intros p Hp. destruct (matchesP S p) eqn:M; [|reflexivity].
      assert (existsb (matchesP S) (patternsOf cfg) = true)
        by (apply existsb_exists; eauto).
      congruence. }
  split; [|split].
  - split.
    + intros Hr. destruct (existsb (matchesP S) (patternsOf cfg)) eqn:E.
      * apply existsb_exists in E as (p & Hin & Hp).
        exists p. split; [assumption | now apply matches_true].
      * rewrite (Hnone eq_refl) in Hr. discriminate.
    + intros (p & Hin & Hp).
      assert (E : existsb (matchesP S) (patternsOf cfg) = true).
      { apply existsb_exists. exists p. split; [assumption | now apply matches_true]. }
      destruct (Hsplit E) as (pre & x & post & HP & Hpre & Hx).
      now rewrite (Hfirst _ _ _ HP Hpre Hx).
  - intros pre p post HP Hpre Hp. now rewrite (Hfirst _ _ _ HP Hpre Hp).
  - intros Hr. destruct (existsb (matchesP S) (patternsOf cfg)) eqn:E.
    + destruct (Hsplit eq_refl) as (pre & x & post & HP & Hpre & Hx).
      exists pre, x, post. repeat split; auto.
      now rewrite (Hfirst _ _ _ HP Hpre Hx).
    + rewrite (Hnone eq_refl) in Hr. discriminate.
Qed.

(** C5.  In 'all' mode, for every subject and every pattern list, the loop
    of [checkMultiplePatterns] evaluates every pattern of the list, in
    order: [checkedPatterns] and [allResults] have one entry per pattern.  A
    pattern whose [test] throws is recorded with [isMatch = false] and the
    error message, and the evaluation goes on.  [isMatch] is true exactly
    when every pattern of the list matches the subject. *)
Theorem checkMultiplePatterns_all_mode (cfg : SubjectPatterns Pattern) (S : JsString) :
  matchModeOf cfg = lit "all" ->
  let r := classify cfg S in
  checkedPatterns r = map toString (patternsOf cfg) /\
  allResults r = Some (map (evaluate S) (patternsOf cfg)) /\
  (forall p, isMatchP (evaluate S p) = true <-> test p S = Normal true) /\
  (forall p message,
      test p S = Throw message ->
      evaluate S p = mkPatternResult (toString p) false None (Some message)) /\
  (isMatch r = true <->
   forall p, In p (patternsOf cfg) -> test p S = Normal true).
Proof.
  intros Hmode r. subst r. unfold checkMultiplePatterns.
  rewrite Hmode, patternLoop_all by reflexivity.
  simpl. repeat split.
  - intros H. rewrite evaluatePattern_isMatch in H. now apply matches_true.
  - intros H. rewrite evaluatePattern_isMatch. now apply matches_true.
  - intros p message T. unfold evaluatePattern. now rewrite T.
  - rewrite forallb_evaluate, forallb_forall.
    intros H p Hp. now apply matches_true, H.
  - rewrite forallb_evaluate, forallb_forall.
    intros H p Hp. now apply matches_true, H.
Qed.

(** C10.  With an empty pattern list, [checkMultiplePatterns] answers
    [isMatch = false] in 'any' mode and [isMatch = true] in 'all' mode, there
    with an undefined [matchedPattern]; so [checkSubjectPattern] classifies
    every subject as a match under 'all' mode with no pattern configured. *)
Theorem checkMultiplePatterns_empty_list (enable : bool) (legacy : Pattern) (S : JsString) :
  isMatch (classify (mkSubjectPatterns enable (Some (lit "any")) (Some [])) S) = false /\
  isMatch (classify (mkSubjectPatterns enable (Some (lit "all")) (Some [])) S) = true /\
  matchedPattern (classify (mkSubjectPatterns enable (Some (lit "all")) (Some [])) S)
    = Undefined /\
  isMatch (classify (mkSubjectPatterns enable (Some (lit "all")) None) S) = true /\
  isMatch (classifySubject
             (mkPatternConfig
                (Some (mkSubjectPatterns true (Some (lit "all")) (Some [])))
                legacy) S) = true.
Proof. repeat split. Qed.

End ClassifierFacts.

(* ================================================================== *)
(** * The script monad *)

(** A [try] whose [catch] returns a value never throws. *)
Lemma tryCatch_total {S A} (body : ScriptOn S A) (a : A) (s : S) :
  exists b s', tryCatch body (fun _ => ret a) s = (Normal b, s').
Proof.
  unfold tryCatch, ret. destruct (body s) as [[b|e] s']; eauto.
Qed.

(** What the [catch] does with a [throw] of the [try] block. *)
Lemma tryCatch_throw {S A} (body : ScriptOn S A) (a : A) (s s' : S) (e : JsString) :
  body s = (Throw e, s') ->
  tryCatch body (fun _ => ret a) s = (Normal a, s').
Proof. unfold tryCatch, ret. now intros ->. Qed.

(** With no fault scheduled, a host call does its operation. *)
Lemma host_reliable {A} (op : World -> A * World) (w : World) :
  faults w = [] ->
  host op w = (Normal (fst (op w)), snd (op w)).
Proof. unfold host. intros ->. now destruct (op w). Qed.

#[local] Arguments Z.of_nat : simpl never.
#[local] Arguments Z.to_nat : simpl never.
#[local] Arguments Z.leb : simpl never.
#[local] Arguments Z.ltb : simpl never.
#[local] Arguments Z.add : simpl never.
#[local] Arguments Z.sub : simpl never.
#[local] Arguments Z.min : simpl never.

(* ================================================================== *)
(** * The ledger *)

Lemma isMessageProcessedInSheet_faulty (messageId : JsString) (w : World) :
  In true (firstn 4 (faults w)) ->
  fst (isMessageProcessedInSheet messageId w) = Normal false.
Proof.
  destruct w as [sh fs ck wh ob rp fl mb].
  unfold isMessageProcessedInSheet, isMessageProcessedInSheet_try, tryCatch, bind,
    getOrCreateTrackingSpreadsheet, getSheetByName, getLastRow, getColumnValues,
    host, ret.
  simpl. intros H.
  destruct fs as [|[] [|[] [|[] [|[] fs]]]]; simpl in *;
    try tauto; try reflexivity;
    destruct sh; simpl; try reflexivity;
    try (destruct (_ <=? 1); simpl; reflexivity);
    intuition discriminate.
Qed.

(** The membership query on a reliable store: it looks the identifier up
    in the first column of the data rows. *)
Lemma isMessageProcessedInSheet_reliable (messageId : JsString) (w : World) (rows : list Row) :
  faults w = [] ->
  sheet w = Some rows ->
  isMessageProcessedInSheet messageId w =
  (Normal (includes (map firstCell (tl rows)) messageId), w).
Proof.
  destruct w as [sh fs ck wh ob rp fl mb]. simpl. intros -> ->.
  unfold isMessageProcessedInSheet, isMessageProcessedInSheet_try, tryCatch, bind,
    getOrCreateTrackingSpreadsheet, getSheetByName, getLastRow, getColumnValues,
    host, ret.
  simpl.
  destruct rows as [|r rows]; simpl; [reflexivity|].
  destruct (Z.leb_spec (Z.of_nat (S (length rows))) 1) as [E|E]; simpl.
  - destruct rows; simpl in *; [reflexivity | lia].
  - replace (Z.to_nat _) with (length rows) by lia.
    now rewrite firstn_all.
Qed.

(** Recording on a reliable store: the row is appended; then, when the sheet
    has grown beyond [MAX_ROWS + CLEANUP_BATCH_SIZE] rows, the
    [CLEANUP_BATCH_SIZE] oldest data rows are deleted. *)
Lemma markMessageProcessedInSheet_reliable
      (message : GmailMessage) (w : World) (h : Row) (data : list Row)
      (messageId subject sender : JsString) :
  faults w = [] ->
  sheet w = Some (h :: data) ->
  getId message = Normal messageId ->
  getSubject message = Normal subject ->
  getFrom message = Normal sender ->
  markMessageProcessedInSheet message w =
  (Normal tt,
   setSheet
     (Some (h :: skipn (if MAX_ROWS + CLEANUP_BATCH_SIZE <? Z.of_nat (length data) + 2
                        then 1000%nat else 0%nat)
                   (data ++ [ledgerRow messageId subject sender (clock w)])))
     w).
Proof.
  destruct w as [sh fs ck wh ob rp fl mb]. simpl. intros -> -> Hid Hsj Hsd.
  unfold markMessageProcessedInSheet, markMessageProcessedInSheet_try, tryCatch,
    bind, call, now, getOrCreateTrackingSpreadsheet, getSheetByName, appendRow,
    getLastRow, host, ret.
  rewrite Hid, Hsj, Hsd. simpl.
  rewrite length_app. simpl.
  replace (Z.of_nat (S (length data + 1))) with (Z.of_nat (length data) + 2) by lia.
  destruct (Z.ltb_spec (MAX_ROWS + CLEANUP_BATCH_SIZE) (Z.of_nat (length data) + 2)) as [E|E];
    simpl; [|reflexivity].
  unfold cleanupOldEntriesInSheet, cleanupOldEntriesInSheet_try, tryCatch, bind,
    getOrCreateTrackingSpreadsheet, getSheetByName, getLastRow, deleteRows, host, ret.
  simpl. rewrite length_app. simpl.
  unfold MAX_ROWS, CLEANUP_BATCH_SIZE in *.
  destruct (Z.leb_spec (Z.of_nat (S (length data + 1)) - 10000 - 1) 0) as [E'|E']; [lia|].
  simpl. unfold setSheet. simpl. do 3 f_equal.
  replace (Z.to_nat (2 - 1)) with 1%nat by lia.
  replace (Z.to_nat _) with 1001%nat by lia.
  reflexivity.
Qed.

Lemma setSheet_setSheet (a b : option (list Row)) (w : World) :
  setSheet a (setSheet b w) = setSheet a w.
Proof. reflexivity. Qed.

Lemma last_skipn_snoc {A} (n : nat) (l : list A) (x d : A) :
  (n <= length l)%nat -> last (skipn n (l ++ [x])) d = x.
Proof.
  intros H. rewrite skipn_app.
  replace (n - length l)%nat with 0%nat by lia.
  simpl. apply last_last.
Qed.


(** One record call on a reliable store, seen from the data rows: the new
    row is appended, and at most [CLEANUP_BATCH_SIZE] of the oldest rows
    are gone, never the new one. *)
Lemma markMessageProcessedInSheet_batch
      (message : GmailMessage) (w : World) (h : Row) (data : list Row)
      (messageId subject sender : JsString) :
  faults w = [] ->
  sheet w = Some (h :: data) ->
  getId message = Normal messageId ->
  getSubject message = Normal subject ->
  getFrom message = Normal sender ->
  exists n,
    (Z.of_nat n <= CLEANUP_BATCH_SIZE) /\ (n <= length data)%nat /\
    (Z.of_nat (length data) + 2 <= MAX_ROWS + CLEANUP_BATCH_SIZE -> n = 0%nat) /\
    (MAX_ROWS + CLEANUP_BATCH_SIZE < Z.of_nat (length data) + 2 ->
     Z.of_nat n = CLEANUP_BATCH_SIZE) /\
    markMessageProcessedInSheet message w =
    (Normal tt,
     setSheet (Some (h :: skipn n (data ++ [ledgerRow messageId subject sender (clock w)]))) w).
Proof.
  intros Hf Hs Hid Hsj Hsd.
  rewrite (markMessageProcessedInSheet_reliable _ _ Hf Hs Hid Hsj Hsd).
  unfold MAX_ROWS, CLEANUP_BATCH_SIZE.
  destruct (Z.ltb_spec (10000 + 1000) (Z.of_nat (length data) + 2)) as [E|E].
  - exists 1000%nat. repeat split; lia.
  - exists 0%nat. repeat split; lia.
Qed.

(** Any number of record calls on a reliable store: each call that finds
    the sheet beyond its bound takes [CLEANUP_BATCH_SIZE - 1] rows off it, the
    others add one row and stay within the bound; and the row of the last
    message recorded is the last row. *)
Lemma record_sequence (ms : list GmailMessage) :
  forall (w : World) (h : Row) (data : list Row),
    faults w = [] ->
    sheet w = Some (h :: data) ->
    forallb readable ms = true ->
    exists data',
      forEach markMessageProcessedInSheet ms w =
      (Normal tt, setSheet (Some (h :: data')) w) /\
      Z.of_nat (length data') <=
      Z.max (MAX_ROWS + CLEANUP_BATCH_SIZE - 1)
            (Z.of_nat (length data) -
             (CLEANUP_BATCH_SIZE - 1) * Z.of_nat (length ms)) /\
      (forall m pre, ms = pre ++ [m] ->
         exists messageId subject sender,
           getId m = Normal messageId /\ getSubject m = Normal subject /\
           getFrom m = Normal sender /\
           last data' [] = ledgerRow messageId subject sender (clock w)).
Proof.
  induction ms as [|m ms IH]; intros w h data Hf Hs Hr.
  - exists data. simpl. unfold ret. repeat split; auto.
    + destruct w; simpl in *. now subst.
    + unfold MAX_ROWS, CLEANUP_BATCH_SIZE. lia.
    + intros m pre E. now destruct pre.
  - simpl in Hr. apply andb_true_iff in Hr as [Hm Hr].
    unfold readable in Hm.
    destruct (getId m) as [messageId|] eqn:Hid; try discriminate.
    destruct (getSubject m) as [subject|] eqn:Hsj; try discriminate.
    destruct (getFrom m) as [sender|] eqn:Hsd; try discriminate.
    destruct (markMessageProcessedInSheet_batch _ _ Hf Hs Hid Hsj Hsd)
      as (n & Hn & Hnd & Hsmall & Hlarge & Hmark).
    set (data1 := skipn n (data ++ [ledgerRow messageId subject sender (clock w)])) in *.
    assert (Hlen1 : Z.of_nat (length data1) = Z.of_nat (length data) + 1 - Z.of_nat n).
    { unfold data1. rewrite length_skipn, length_app. simpl. clear - Hnd. lia. }
    destruct (IH (setSheet (Some (h :: data1)) w) h data1) as (data' & Hrun & Hb' & Hlast); auto.
    exists data'. simpl forEach. unfold bind. rewrite Hmark, Hrun.
    split; [reflexivity|]. split.
    + change (length (m :: ms)) with (S (length ms)).
      clearbody data1. clear - Hlen1 Hb' Hn Hsmall Hlarge.
      unfold MAX_ROWS, CLEANUP_BATCH_SIZE in *. lia.
    + intros m' pre E. destruct ms as [|m2 ms].
      * destruct pre as [|p [|q pre]]; simpl in E; try discriminate.
        injection E as <-.
        exists messageId, subject, sender. repeat split; auto.
        simpl in Hrun. unfold ret in Hrun. injection Hrun as Hrun.
        assert (data' = data1) by congruence. subst data'.
        unfold data1. now apply last_skipn_snoc.
      * destruct pre as [|p pre]; simpl in E; [discriminate|].
        injection E as _ E. exact (Hlast m' pre E).
Qed.

Lemma last_In {A} (l : list A) (d x : A) : last l d = x -> x <> d -> In x l.
Proof.
  induction l as [|a l IH]; simpl; [congruence|].
  destruct l as [|b l]; [intros <- _; now left|].
  intros H Hx. right. now apply IH.
Qed.

Lemma includes_In (messageId subject sender : JsString) (t : Z) (data : list Row) :
  In (ledgerRow messageId subject sender t) data ->
  includes (map firstCell data) messageId = true.
Proof.
  intros H. unfold includes. apply existsb_exists.
  exists (CStr messageId). split.
  - change (CStr messageId) with (firstCell (ledgerRow messageId subject sender t)).
    now apply in_map.
  - simpl. apply jsEq_refl.
Qed.




(* ================================================================== *)
(** * The coordinator and the ledger *)

Lemma includes_entries (messageId : JsString) (data : list Row) :
  includes (map firstCell data) messageId = false <->
  length (filter (fun r => cellIs messageId (firstCell r)) data) = 0%nat.
Proof.
  unfold includes. induction data as [|r data IH]; simpl; [tauto|].
  destruct (cellIs messageId (firstCell r)); simpl; [split; discriminate | exact IH].
Qed.

Lemma filter_skipn_nil {A} (f : A -> bool) (n : nat) (l : list A) :
  filter f l = [] -> filter f (skipn n l) = [].
Proof.
  revert n. induction l as [|a l IH]; intros [|n]; simpl; auto.
  destruct (f a); [discriminate | auto].
Qed.

Lemma isMessageAlreadyProcessed_reliable
      (message : GmailMessage) (w : World) (h : Row) (data : list Row)
      (messageId : JsString) :
  faults w = [] ->
  sheet w = Some (h :: data) ->
  getId message = Normal messageId ->
  isMessageAlreadyProcessed message w =
  (Normal (includes (map firstCell data) messageId), w).
Proof.
  intros Hf Hs Hid.
  unfold isMessageAlreadyProcessed, isMessageAlreadyProcessed_try, tryCatch, bind, call.
  rewrite Hid, (isMessageProcessedInSheet_reliable messageId _ Hf Hs). simpl.
  now destruct (includes (map firstCell data) messageId).
Qed.

Lemma preserves_ret {S A} (I : S -> Prop) (a : A) : preserves I (ret a).
Proof. intros s H. exact H. Qed.

Lemma preserves_throw {S A} (I : S -> Prop) (e : JsString) :
  preserves I (@throw S A e).
Proof. intros s H. exact H. Qed.

Lemma preserves_call {S A} (I : S -> Prop) (c : Completion A) :
  preserves I (@call S A c).
Proof. intros s H. exact H. Qed.

Lemma preserves_bind {S A B} (I : S -> Prop) (m : ScriptOn S A) (k : A -> ScriptOn S B) :
  preserves I m -> (forall a, preserves I (k a)) -> preserves I (bind m k).
Proof.
  intros Hm Hk s H. unfold bind. specialize (Hm s H).
  destruct (m s) as [[a|e] s']; simpl in *; [now apply Hk | assumption].
Qed.

Lemma preserves_tryCatch {S A} (I : S -> Prop) (m : ScriptOn S A)
      (handler : JsString -> ScriptOn S A) :
  preserves I m -> (forall e, preserves I (handler e)) -> preserves I (tryCatch m handler).
Proof.
  intros Hm Hh s H. unfold tryCatch. specialize (Hm s H).
  destruct (m s) as [[a|e] s']; simpl in *; [assumption | now apply Hh].
Qed.

Lemma preserves_if {S A} (I : S -> Prop) (b : bool) (m1 m2 : ScriptOn S A) :
  preserves I m1 -> preserves I m2 -> preserves I (if b then m1 else m2).
Proof. now destruct b. Qed.

Lemma preserves_host {A} (I : World -> Prop) (op : World -> A * World) :
  (forall w b fs, I w -> faults w = b :: fs -> I (setFaults fs w)) ->
  (forall w, I w -> I (snd (op w))) ->
  preserves I (host op).
Proof.
  intros Hpop Hop w H. unfold host.
  destruct (faults w) as [|[] fs] eqn:F; simpl.
  - specialize (Hop w H). now destruct (op w).
  - now apply (Hpop w true fs).
  - specialize (Hop _ (Hpop w false fs H F)). now destruct (op (setFaults fs w)).
Qed.

Lemma preserves_forEach {S X} (I : S -> Prop) (f : X -> ScriptOn S unit) (xs : list X) :
  (forall x, preserves I (f x)) -> preserves I (forEach f xs).
Proof.
  intros Hf. induction xs as [|x xs IH]; simpl.
  - apply preserves_ret.
  - apply preserves_bind; auto.
Qed.

Lemma preserves_inWorld {A} (I : World -> Prop) (m : Script A) :
  preserves I m -> preserves (fun r => I (world r)) (inWorld m).
Proof.
  intros Hm r H. unfold inWorld. specialize (Hm (world r) H).
  now destruct (m (world r)).
Qed.

(** Solves [preserves I m] for the scripts of the ledger, by the structure
    of [m]. *)
Ltac preserve :=
  repeat first
    [ apply preserves_ret | apply preserves_throw | apply preserves_call
    | apply preserves_bind; [|intros ?]
    | apply preserves_tryCatch; [|intros ?]
    | apply preserves_if
    | apply preserves_host;
      [ intros [? ? ? ? ? ? ? ?] ? ? ? ?; simpl in *; congruence
      | intros [? ? ? ? ? ? ? ?] ?; simpl in *; congruence ]
    | progress cbv zeta ].

Lemma isMessageAlreadyProcessed_preserves (I : World -> Prop) (message : GmailMessage) :
  I = reliable \/ (exists o, I = sameOutbox o) \/ (exists u, I = sameWebhook u) ->
  preserves I (isMessageAlreadyProcessed message).
Proof.
  intros [->|[[o ->]|[u ->]]];
    unfold isMessageAlreadyProcessed, isMessageAlreadyProcessed_try,
      isMessageProcessedInSheet, isMessageProcessedInSheet_try,
      getOrCreateTrackingSpreadsheet, getSheetByName, getLastRow, getColumnValues,
      reliable, sameOutbox, sameWebhook;
    preserve.
Qed.

Lemma markMessageProcessedInSheet_preserves (I : World -> Prop) (message : GmailMessage) :
  I = reliable \/ (exists o, I = sameOutbox o) \/ (exists u, I = sameWebhook u) ->
  preserves I (markMessageProcessedInSheet message).
Proof.
  intros [->|[[o ->]|[u ->]]];
    unfold markMessageProcessedInSheet, markMessageProcessedInSheet_try,
      cleanupOldEntriesInSheet, cleanupOldEntriesInSheet_try, now,
      getOrCreateTrackingSpreadsheet, getSheetByName, getLastRow, appendRow,
      deleteRows, reliable, sameOutbox, sameWebhook;
    preserve; try (intros s H; exact H).
Qed.

Lemma addProcessedLabel_preserves (I : World -> Prop) :
  I = reliable \/ (exists o, I = sameOutbox o) \/ (exists u, I = sameWebhook u) ->
  preserves I addProcessedLabel.
Proof.
  intros [->|[[o ->]|[u ->]]];
    unfold addProcessedLabel, reliable, sameOutbox, sameWebhook; preserve.
Qed.

Section CoordinatorFacts.

Variable processMessage : GmailMessage -> bool.

Local Abbreviation perMessage_try := (forEachMessage_try processMessage).
Local Abbreviation perMessage := (forEachMessage processMessage).
Local Abbreviation perThread_try := (forEachThread_try processMessage).
Local Abbreviation perThread := (forEachThread processMessage).
Local Abbreviation failuresOf := (messageFailures processMessage).
Local Abbreviation failuresOfBatch := (batchFailures processMessage).

(** The [try] block of a message iteration counts the message first, and
    leaves the error counter alone. *)
Lemma forEachMessage_try_counters (m : GmailMessage) (r : Run) :
  checkedCount (snd (perMessage_try m r)) = S (checkedCount r) /\
  errorCount (snd (perMessage_try m r)) = errorCount r /\
  (processedCount r <= processedCount (snd (perMessage_try m r)))%nat.
Proof.
  unfold forEachMessage_try, bind, incrChecked, incrProcessed,
    setThreadHasNewMessages, call, inWorld, ret. simpl.
  destruct (isInTrash m) as [[|]|]; simpl; auto.
  destruct (isMessageAlreadyProcessed m (world r)) as [[[|]|] w1]; simpl; auto.
  destruct (getSubject m); simpl; auto.
  destruct (processMessage m); simpl; auto.
  destruct (markMessageProcessedInSheet m w1) as [[|] w2]; simpl; auto.
Qed.

(** Failure isolation for one message: the iteration never throws; the
    message is counted as checked; the error counter grows by one exactly
    when the [try] block threw. *)
Lemma forEachMessage_isolated (m : GmailMessage) (r : Run) :
  exists r',
    perMessage m r = (Normal tt, r') /\
    checkedCount r' = S (checkedCount r) /\
    errorCount r' = (errorCount r + raised (perMessage_try m) r)%nat /\
    (processedCount r <= processedCount r')%nat.
Proof.
  destruct (forEachMessage_try_counters m r) as (Hc & He & Hp).
  unfold forEachMessage, tryCatch, raised, incrError.
  destruct (perMessage_try m r) as [[[]|e] r1]; simpl in *.
  - exists r1. repeat split; auto. lia.
  - eexists. split; [reflexivity|]. simpl. repeat split; auto. lia.
Qed.

(** The batch of messages goes on after a failure: every message is
    checked, and each failure is counted once. *)
Lemma forEach_messages (ms : list GmailMessage) :
  forall r, exists r',
    forEach perMessage ms r = (Normal tt, r') /\
    checkedCount r' = (checkedCount r + length ms)%nat /\
    errorCount r' = (errorCount r + failuresOf ms r)%nat /\
    (processedCount r <= processedCount r')%nat.
Proof.
  induction ms as [|m ms IH]; intros r; simpl.
  - exists r. unfold ret. repeat split; auto; lia.
  - destruct (forEachMessage_isolated m r) as (r1 & E1 & Hc1 & He1 & Hp1).
    destruct (IH r1) as (r' & E' & Hc' & He' & Hp').
    exists r'. unfold bind. rewrite E1, E'. simpl.
    repeat split; auto; lia.
Qed.

Lemma raised_isInTrash (m : GmailMessage) (r : Run) (e : JsString) :
  isInTrash m = Throw e -> raised (perMessage_try m) r = 1%nat.
Proof.
  intros H. unfold raised, forEachMessage_try, bind, incrChecked, call.
  simpl. now rewrite H.
Qed.

Lemma messageFailures_pos (ms : list GmailMessage) (m : GmailMessage) (e : JsString) :
  In m ms -> isInTrash m = Throw e -> forall r, (0 < failuresOf ms r)%nat.
Proof.
  induction ms as [|m' ms IH]; intros Hin He r; [contradiction|].
  simpl. destruct Hin as [->|Hin].
  - rewrite (raised_isInTrash _ _ He). lia.
  - specialize (IH Hin He (snd (perMessage m' r))). lia.
Qed.

Lemma addProcessedLabel_total (w : World) :
  exists w', addProcessedLabel w = (Normal tt, w').
Proof.
  destruct (tryCatch_total (host (fun w => (tt, w)) ;;; host (fun w => (tt, w))) tt w)
    as ([] & w' & E).
  now exists w'.
Qed.

(** Failure isolation for one thread: the iteration never throws; a thread
    whose getters throw costs one error and none of its messages is
    checked; in any other thread every message is checked. *)
Lemma forEachThread_isolated (t : GmailThread) (r : Run) :
  exists r',
    perThread t r = (Normal tt, r') /\
    checkedCount r' =
      (checkedCount r +
       match threadMessages t with Some ms => length ms | None => 0 end)%nat /\
    errorCount r' =
      (errorCount r +
       match threadMessages t with
       | Some ms => failuresOf ms (startThread r)
       | None => 1
       end)%nat /\
    (processedCount r <= processedCount r')%nat.
Proof.
  unfold forEachThread, tryCatch, forEachThread_try, threadMessages, bind, call,
    incrError, setThreadHasNewMessages.
  destruct (getFirstMessageSubject t) as [sj|e]; simpl.
  2: { eexists. split; [reflexivity|]. simpl. repeat split; lia. }
  destruct (getMessages t) as [ms|e]; simpl.
  2: { eexists. split; [reflexivity|]. simpl. repeat split; lia. }
  destruct (forEach_messages ms (startThread r)) as (r1 & E1 & Hc & He & Hp).
  fold (startThread r). rewrite E1.
  destruct (threadHasNewMessages r1).
  - unfold inWorld. destruct (addProcessedLabel_total (world r1)) as (w' & E').
    rewrite E'. eexists. split; [reflexivity|]. simpl. auto.
  - unfold ret. exists r1. auto.
Qed.

Lemma forEach_threads (threads : list GmailThread) :
  forall r, exists r',
    forEach perThread threads r = (Normal tt, r') /\
    checkedCount r' = (checkedCount r + batchSize threads)%nat /\
    errorCount r' = (errorCount r + failuresOfBatch threads r)%nat /\
    (processedCount r <= processedCount r')%nat.
Proof.
  induction threads as [|t threads IH]; intros r; simpl.
  - exists r. unfold ret. repeat split; auto; lia.
  - destruct (forEachThread_isolated t r) as (r1 & E1 & Hc1 & He1 & Hp1).
    destruct (IH r1) as (r' & E' & Hc' & He' & Hp').
    exists r'. unfold bind. rewrite E1, E'. simpl.
    repeat split; auto; lia.
Qed.

Lemma batchFailures_pos (threads : list GmailThread) (t : GmailThread)
      (ms : list GmailMessage) (m : GmailMessage) (e : JsString) :
  In t threads -> threadMessages t = Some ms -> In m ms -> isInTrash m = Throw e ->
  forall r, (0 < failuresOfBatch threads r)%nat.
Proof.
  induction threads as [|t' threads IH]; intros Ht Hms Hm He r; [contradiction|].
  simpl. destruct Ht as [->|Ht].
  - rewrite Hms. pose proof (messageFailures_pos ms m Hm He (startThread r)). lia.
  - specialize (IH Ht Hms Hm He (snd (perThread t' r))). lia.
Qed.

(** The batch keeps the invariants of the host state. *)
Lemma forEachThread_preserves (I : World -> Prop) (threads : list GmailThread) :
  I = reliable \/ (exists o, I = sameOutbox o) \/ (exists u, I = sameWebhook u) ->
  preserves (fun r => I (world r)) (forEach perThread threads).
Proof.
  intros HI. apply preserves_forEach. intros t.
  assert (Hloc : forall (f : Run -> Run),
             (forall r, world (f r) = world r) ->
             preserves (fun r => I (world r)) (fun r => (Normal tt, f r))).
  { intros f Hf r H. simpl. now rewrite Hf. }
  assert (Hmsg : forall m, preserves (fun r => I (world r)) (perMessage m)).
  { intros m. unfold forEachMessage, forEachMessage_try.
    apply preserves_tryCatch; [|intros _; now apply Hloc].
    apply preserves_bind; [now apply Hloc | intros _].
    apply preserves_bind; [apply preserves_call | intros trashed].
    apply preserves_if; [apply preserves_ret|].
    apply preserves_bind;
      [apply preserves_inWorld, isMessageAlreadyProcessed_preserves, HI | intros already].
    apply preserves_if; [apply preserves_ret|].
    apply preserves_bind; [apply preserves_call | intros _].
    apply preserves_if; [|apply preserves_ret].
    apply preserves_bind; [now apply Hloc | intros _].
    apply preserves_bind; [now apply Hloc | intros _].
    apply preserves_inWorld, markMessageProcessedInSheet_preserves, HI. }
  unfold forEachThread, forEachThread_try.
  apply preserves_tryCatch; [|intros _; now apply Hloc].
  apply preserves_bind; [apply preserves_call | intros _].
  apply preserves_bind; [apply preserves_call | intros ms].
  apply preserves_bind; [now apply Hloc | intros _].
  apply preserves_bind; [now apply preserves_forEach | intros _].
  intros r H. destruct (threadHasNewMessages r); [|exact H].
  now apply (preserves_inWorld (addProcessedLabel_preserves HI)).
Qed.

End CoordinatorFacts.

(** ** Posting to the webhook *)

Lemma getProperty_preserves (I : World -> Prop) :
  I = reliable \/ (exists o, I = sameOutbox o) \/ (exists u, I = sameWebhook u) ->
  preserves I getProperty_SLACK_WEBHOOK_URL.
Proof.
  intros [->|[[o ->]|[u ->]]];
    unfold getProperty_SLACK_WEBHOOK_URL, reliable, sameOutbox, sameWebhook;
    (apply preserves_tryCatch; [|intros ?; apply preserves_throw]);
    (apply preserves_bind; [preserve | intros [[|c s]|]; preserve]).
Qed.

Lemma getProperty_reliable (w : World) (c : CodeUnit) (s : JsString) :
  faults w = [] -> webhook w = Some (c :: s) ->
  getProperty_SLACK_WEBHOOK_URL w = (Normal (c :: s), w).
Proof.
  intros Hf Hw. unfold getProperty_SLACK_WEBHOOK_URL, tryCatch, bind.
  rewrite host_reliable by assumption. simpl. now rewrite Hw.
Qed.

(** A fetch either throws and posts nothing, or posts its request. *)
Lemma fetch_outbox (post : SlackPost) (w : World) :
  (exists e, fst (fetch post w) = Throw e /\ outbox (snd (fetch post w)) = outbox w) \/
  (exists code, fst (fetch post w) = Normal code /\
                outbox (snd (fetch post w)) = outbox w ++ [post]).
Proof.
  unfold fetch, host.
  destruct (faults w) as [|[] fs]; simpl.
  - right. destruct (replies w); simpl; eauto.
  - left. eauto.
  - right. destruct (replies w); simpl; eauto.
Qed.

Lemma fetch_reliable (post : SlackPost) (w : World) :
  faults w = [] ->
  exists code w',
    fetch post w = (Normal code, w') /\ outbox w' = outbox w ++ [post] /\
    faults w' = [] /\ webhook w' = webhook w.
Proof.
  intros Hf. unfold fetch. rewrite host_reliable by assumption.
  destruct (replies w); simpl; eauto 10.
Qed.

(** A notification wrapped in a [try] whose [catch] only logs: it never
    throws, and posts its request at most once. *)
Lemma guarded_post (post : SlackPost) (w : World) :
  exists w',
    tryCatch (getProperty_SLACK_WEBHOOK_URL ;;; fetch post ;;; ret tt)
      (fun _ => ret tt) w = (Normal tt, w') /\
    (outbox w' = outbox w \/ outbox w' = outbox w ++ [post]).
Proof.
  pose proof (@getProperty_preserves (sameOutbox (outbox w))
                (or_intror (or_introl (ex_intro _ _ eq_refl))) w eq_refl) as Hp.
  unfold tryCatch, bind, ret.
  destruct (getProperty_SLACK_WEBHOOK_URL w) as [[url|e] w1]; simpl in Hp;
    unfold sameOutbox in Hp.
  2: { exists w1. auto. }
  destruct (fetch_outbox post w1) as [(e & Hc & Ho)|(code & Hc & Ho)];
    destruct (fetch post w1) as [c w2]; simpl in *; subst c;
    exists w2; split; auto; rewrite Ho, Hp; auto.
Qed.

Lemma guarded_post_reliable (post : SlackPost) (w : World) (c : CodeUnit) (s : JsString) :
  faults w = [] -> webhook w = Some (c :: s) ->
  exists w',
    tryCatch (getProperty_SLACK_WEBHOOK_URL ;;; fetch post ;;; ret tt)
      (fun _ => ret tt) w = (Normal tt, w') /\
    outbox w' = outbox w ++ [post].
Proof.
  intros Hf Hw. unfold tryCatch, bind, ret.
  rewrite (getProperty_reliable _ Hf Hw).
  destruct (fetch_reliable post w Hf) as (code & w' & E & Ho & _).
  rewrite E. eauto.
Qed.

Lemma validateConfiguration_preserves (I : World -> Prop) :
  I = reliable \/ (exists o, I = sameOutbox o) \/ (exists u, I = sameWebhook u) ->
  preserves I validateConfiguration.
Proof.
  intros HI. unfold validateConfiguration.
  apply preserves_bind; [now apply getProperty_preserves | intros url].
  apply preserves_if; [apply preserves_throw|].
  destruct HI as [->|[[o ->]|[u ->]]]; unfold reliable, sameOutbox, sameWebhook; preserve.
Qed.

Lemma search_preserves (I : World -> Prop) :
  I = reliable \/ (exists o, I = sameOutbox o) \/ (exists u, I = sameWebhook u) ->
  preserves I search.
Proof.
  intros [->|[[o ->]|[u ->]]]; unfold search, reliable, sameOutbox, sameWebhook; preserve.
Qed.

(** ** The run *)

Section RunFacts.

Variable processMessage : GmailMessage -> bool.

Local Abbreviation failuresOfBatch := (batchFailures processMessage).

(** What the [try] block of [processEmails] can do, for every host state:
    throw before any message is touched, return early on an empty search
    result, or go through the whole batch, report its counters, and post a
    summary at most once, and only when the error counter is positive. *)
Lemma processEmails_try_outcome (startTime : Z) (w : World) :
  match processEmails_try processMessage startTime w with
  | (Normal (Some rep), w') =>
      exists w1 threads,
        threads <> [] /\
        checked rep = batchSize threads /\
        errors rep = failuresOfBatch threads (mkRun w1 0 0 0 false) /\
        (outbox w' = outbox w \/
         (0 < errors rep)%nat /\
         exists t, outbox w' = outbox w ++ [ErrorSummary (processed rep) (errors rep) t])
  | (Normal None, w') => outbox w' = outbox w
  | (Throw e, w') => outbox w' = outbox w
  end.
Proof.
  unfold processEmails_try, bind.
  pose proof (@validateConfiguration_preserves (sameOutbox (outbox w))
                (or_intror (or_introl (ex_intro _ _ eq_refl))) w eq_refl) as Hv.
  destruct (validateConfiguration w) as [[[]|e] w1]; simpl in Hv; unfold sameOutbox in Hv;
    [|exact Hv].
  pose proof (@search_preserves (sameOutbox (outbox w1))
                (or_intror (or_introl (ex_intro _ _ eq_refl))) w1 eq_refl) as Hs.
  destruct (search w1) as [[threads|e] w2]; simpl in Hs; unfold sameOutbox in Hs;
    [|congruence].
  destruct (Nat.eqb (length threads) 0) eqn:L; [unfold ret; congruence|].
  destruct (forEach_threads processMessage threads (mkRun w2 0 0 0 false))
    as (r & Er & Hc & He & Hp).
  pose proof (@forEachThread_preserves processMessage (sameOutbox (outbox w2)) threads
                (or_intror (or_introl (ex_intro _ _ eq_refl)))
                (mkRun w2 0 0 0 false) eq_refl) as Hr.
  rewrite Er in Hr |- *. simpl in Hr. unfold sameOutbox in Hr.
  unfold now, ret. simpl.
  destruct (0 <? errorCount r)%nat eqn:Epos.
  - destruct (guarded_post
                (ErrorSummary (processedCount r) (errorCount r) (clock (world r) - startTime))
                (world r)) as (w' & Es & Ho).
    unfold sendErrorSummary. rewrite Es. simpl.
    exists w2, threads. repeat split; auto.
    + intros ->. discriminate.
    + destruct Ho as [Ho|Ho]; [left; congruence|].
      right. split; [now apply Nat.ltb_lt|].
      exists (clock (world r) - startTime). rewrite Ho. f_equal. congruence.
  - simpl. exists w2, threads. repeat split; auto.
    + intros ->. discriminate.
    + left. congruence.
Qed.

(** The same on a reliable host with a valid webhook and a non-empty search
    result: the run completes, and the summary is posted exactly when the
    error counter is positive. *)
Lemma processEmails_try_reliable (startTime : Z) (w : World) (c : CodeUnit) (s : JsString) :
  faults w = [] ->
  webhook w = Some (c :: s) ->
  startsWith (c :: s) (lit "https://hooks.slack.com/") = true ->
  mailbox w <> [] ->
  exists rep w',
    processEmails_try processMessage startTime w = (Normal (Some rep), w') /\
    checked rep = batchSize (mailbox w) /\
    errors rep = failuresOfBatch (mailbox w) (mkRun w 0 0 0 false) /\
    exists t,
      outbox w' = outbox w ++
                  (if (0 <? errors rep)%nat
                   then [ErrorSummary (processed rep) (errors rep) t] else []).
Proof.
  intros Hf Hw Hurl Hmb.
  unfold processEmails_try, bind, validateConfiguration, bind.
  rewrite (getProperty_reliable _ Hf Hw), Hurl. simpl.
  rewrite host_reliable by assumption. simpl.
  unfold search. rewrite host_reliable by assumption. simpl.
  destruct (mailbox w) as [|t0 threads] eqn:Emb; [contradiction|].
  change (Nat.eqb (length (t0 :: threads)) 0) with false. cbv beta iota.
  set (ts := t0 :: threads).
  destruct (forEach_threads processMessage ts (mkRun w 0 0 0 false))
    as (r & Er & Hc & He & Hp).
  pose proof (@forEachThread_preserves processMessage (sameOutbox (outbox w)) ts
                (or_intror (or_introl (ex_intro _ _ eq_refl)))
                (mkRun w 0 0 0 false) eq_refl) as Ho.
  pose proof (@forEachThread_preserves processMessage reliable ts
                (or_introl eq_refl) (mkRun w 0 0 0 false) Hf) as Hrel.
  pose proof (@forEachThread_preserves processMessage (sameWebhook (webhook w)) ts
                (or_intror (or_intror (ex_intro _ _ eq_refl)))
                (mkRun w 0 0 0 false) eq_refl) as Hwh.
  rewrite Er in Ho, Hrel, Hwh |- *. simpl in Ho, Hrel, Hwh.
  unfold sameOutbox in Ho. unfold reliable in Hrel. unfold sameWebhook in Hwh.
  rewrite Hw in Hwh.
  unfold now, ret. simpl.
  destruct (0 <? errorCount r)%nat eqn:Epos.
  - destruct (@guarded_post_reliable
                (ErrorSummary (processedCount r) (errorCount r) (clock (world r) - startTime))
                (world r) c s Hrel Hwh) as (w' & Es & Ho').
    unfold sendErrorSummary. rewrite Es. simpl.
    do 2 eexists. split; [reflexivity|]. simpl. rewrite Epos.
    split; [auto|]. split; [auto|]. eexists. rewrite Ho', Ho. reflexivity.
  - simpl. do 2 eexists. split; [reflexivity|]. simpl. rewrite Epos.
    split; [auto|]. split; [auto|]. exists 0. rewrite app_nil_r. exact Ho.
Qed.

End RunFacts.



(** ** Recording once *)

Section RecordOnce.

Variable processMessage : GmailMessage -> bool.

Local Abbreviation perMessage := (forEachMessage processMessage).

(** A message iteration on a reliable store, for a message that can be
    read, is not in the trash and is processed successfully: if the ledger
    already holds its identifier the message is skipped; otherwise its row
    is appended (and at most one batch of oldest rows deleted). *)
Lemma forEachMessage_reliable
      (m : GmailMessage) (r : Run) (h : Row) (data : list Row)
      (messageId subject sender : JsString) :
  faults (world r) = [] ->
  sheet (world r) = Some (h :: data) ->
  getId m = Normal messageId ->
  getSubject m = Normal subject ->
  getFrom m = Normal sender ->
  isInTrash m = Normal false ->
  processMessage m = true ->
  perMessage m r =
  if includes (map firstCell data) messageId
  then (Normal tt,
        mkRun (world r) (processedCount r) (errorCount r) (S (checkedCount r))
          (threadHasNewMessages r))
  else (Normal tt,
        mkRun (snd (markMessageProcessedInSheet m (world r)))
          (S (processedCount r)) (errorCount r) (S (checkedCount r)) true).
Proof.
  intros Hf Hs Hid Hsj Hsd Htrash Hpm.
  unfold forEachMessage, forEachMessage_try, tryCatch, bind, incrChecked,
    incrProcessed, setThreadHasNewMessages, call, inWorld, ret.
  simpl. rewrite Htrash. simpl.
  rewrite (isMessageAlreadyProcessed_reliable _ _ Hf Hs Hid).
  destruct (includes (map firstCell data) messageId); simpl; [reflexivity|].
  rewrite Hsj, Hpm. simpl.
  rewrite (markMessageProcessedInSheet_reliable _ _ Hf Hs Hid Hsj Hsd).
  reflexivity.
Qed.

End RecordOnce.

Lemma entriesFor_setSheet (messageId : JsString) (h : Row) (data : list Row) (w : World) :
  entriesFor messageId (setSheet (Some (h :: data)) w) =
  length (filter (fun r => cellIs messageId (firstCell r)) data).
Proof. reflexivity. Qed.

Lemma entriesFor_sheet (messageId : JsString) (h : Row) (data : list Row) (w : World) :
  sheet w = Some (h :: data) ->
  entriesFor messageId w = length (filter (fun r => cellIs messageId (firstCell r)) data).
Proof. unfold entriesFor, dataRows, rowsOf. now intros ->. Qed.

(** C1 (amended).  [markMessageProcessedInSheet] appends without looking;
    the existence check is the one [processEmails] makes, through
    [isMessageAlreadyProcessed], before it processes and records a message.
    On a reliable store, for a message that can be read, is not in the
    trash, is processed successfully and is not yet in the ledger: after the
    message iteration of [processEmails] has run once the ledger holds
    exactly one entry for its identifier, and running it a second time skips
    the message, leaves the host state as it is and the entry single. *)
Theorem processEmails_records_once
        (processMessage : GmailMessage -> bool)
        (m : GmailMessage) (r : Run) (h : Row) (data : list Row)
        (messageId subject sender : JsString) :
  faults (world r) = [] ->
  sheet (world r) = Some (h :: data) ->
  getId m = Normal messageId ->
  getSubject m = Normal subject ->
  getFrom m = Normal sender ->
  isInTrash m = Normal false ->
  processMessage m = true ->
  entriesFor messageId (world r) = 0%nat ->
  let r1 := snd (forEachMessage processMessage m r) in
  let r2 := snd (forEachMessage processMessage m r1) in
  entriesFor messageId (world r1) = 1%nat /\
  processedCount r1 = S (processedCount r) /\
  world r2 = world r1 /\
  processedCount r2 = processedCount r1 /\
  entriesFor messageId (world r2) = 1%nat.
Proof.
  intros Hf Hs Hid Hsj Hsd Htrash Hpm H0 r1 r2.
  rewrite (entriesFor_sheet _ _ Hs) in H0.
  assert (Hnew : includes (map firstCell data) messageId = false)
    by now apply includes_entries.
  destruct (markMessageProcessedInSheet_batch _ _ Hf Hs Hid Hsj Hsd)
    as (n & _ & Hnd & _ & _ & Hmark).
  set (row := ledgerRow messageId subject sender (clock (world r))) in *.
  assert (E1 : r1 = mkRun (setSheet (Some (h :: skipn n (data ++ [row]))) (world r))
                     (S (processedCount r)) (errorCount r) (S (checkedCount r)) true).
  { unfold r1.
    rewrite (forEachMessage_reliable processMessage _ _ Hf Hs Hid Hsj Hsd Htrash Hpm).
    now rewrite Hnew, Hmark. }
  assert (Hcount : length (filter (fun x => cellIs messageId (firstCell x))
                             (skipn n (data ++ [row]))) = 1%nat).
  { rewrite skipn_app. replace (n - length data)%nat with 0%nat by lia.
    rewrite filter_app.
    rewrite (filter_skipn_nil _ n data) by now apply length_zero_iff_nil.
    simpl. unfold row at 1. simpl. now rewrite jsEq_refl. }
  assert (Hold : includes (map firstCell (skipn n (data ++ [row]))) messageId = true).
  { destruct (includes (map firstCell (skipn n (data ++ [row]))) messageId) eqn:E;
      [reflexivity|].
    apply includes_entries in E. congruence. }
  assert (E2 : r2 = mkRun (world r1) (processedCount r1) (errorCount r1)
                     (S (checkedCount r1)) (threadHasNewMessages r1)).
  { assert (Hf1 : faults (world r1) = []) by (rewrite E1; exact Hf).
    assert (Hs1 : sheet (world r1) = Some (h :: skipn n (data ++ [row])))
      by (rewrite E1; reflexivity).
    unfold r2.
    rewrite (forEachMessage_reliable processMessage _ _ Hf1 Hs1 Hid Hsj Hsd Htrash Hpm).
    now rewrite Hold. }
  rewrite E2. simpl. rewrite E1. simpl.
  rewrite entriesFor_setSheet. auto.
Qed.

(** C1, as stated, fails: two record calls in sequence for the same message
    commit two rows, since [markMessageProcessedInSheet] makes no existence
    check of its own. *)
Lemma markMessageProcessedInSheet_twice_duplicates :
  let w1 := snd (markMessageProcessedInSheet (sampleMessage 1) freshWorld) in
  let w2 := snd (markMessageProcessedInSheet (sampleMessage 1) w1) in
  getId (sampleMessage 1) = Normal (lit "msg-1") /\
  entriesFor (lit "msg-1") freshWorld = 0%nat /\
  entriesFor (lit "msg-1") w1 = 1%nat /\
  entriesFor (lit "msg-1") w2 = 2%nat.
Proof. vm_compute. auto. Qed.

Lemma processEmails_records_once_witness :
  let r := mkRun freshWorld 0 0 0 false in
  let r1 := snd (forEachMessage (fun _ => true) (sampleMessage 1) r) in
  let r2 := snd (forEachMessage (fun _ => true) (sampleMessage 1) r1) in
  (faults (world r) = [] /\ sheet (world r) = Some [HEADERS] /\
   isInTrash (sampleMessage 1) = Normal false /\
   entriesFor (lit "msg-1") (world r) = 0%nat) /\
  entriesFor (lit "msg-1") (world r1) = 1%nat /\
  entriesFor (lit "msg-1") (world r2) = 1%nat.
Proof.
  intros r r1 r2.
  split; [repeat split|].
  pose proof (@processEmails_records_once (fun _ => true) (sampleMessage 1) r HEADERS []
                (lit "msg-1") (lit "subject") (lit "sender@example.com")
                eq_refl eq_refl eq_refl eq_refl eq_refl eq_refl eq_refl eq_refl) as H.
  cbv zeta in H. destruct H as (H1 & _ & _ & _ & H2).
  split; assumption.
Defined.

(* ================================================================== *)
(** * The archiver *)

Lemma hasFileNamed_reliable (name : JsString) (w : World) :
  faults w = [] ->
  hasFileNamed name w = (Normal (existsb (jsEq name) (files w)), w).
Proof. intros Hf. unfold hasFileNamed. now rewrite host_reliable. Qed.

(** On a reliable folder the probe loop returns one of its candidates. *)
Lemma probeLoop_candidate (baseName extension : JsString) (w : World) :
  faults w = [] ->
  forall fuel counter,
    (counter <= 99)%nat ->
    exists k,
      (counter <= k <= 99)%nat /\
      probeLoop fuel baseName extension counter w =
      (Normal (candidate baseName extension k), w).
Proof.
  intros Hf. induction fuel as [|fuel IH]; intros counter Hc;
    simpl; unfold bind; rewrite hasFileNamed_reliable by assumption;
    destruct (existsb (jsEq (candidate baseName extension counter)) (files w));
    simpl; unfold ret; try (exists counter; split; [lia | reflexivity]).
  destruct (Nat.ltb_spec (S counter) 100) as [L|L].
  - destruct (IH (S counter)) as (k & Hk & E); [lia|].
    exists k. split; [lia | exact E].
  - exists counter. split; [lia | reflexivity].
Qed.

(** When every candidate up to 99 collides, the loop ends at the cap and
    returns the last candidate it tried, which collides. *)
Lemma probeLoop_exhausted (baseName extension : JsString) (w : World) :
  faults w = [] ->
  (forall k, (1 <= k <= 99)%nat ->
             existsb (jsEq (candidate baseName extension k)) (files w) = true) ->
  forall fuel counter,
    (1 <= counter <= 99)%nat -> (99 <= counter + fuel)%nat ->
    probeLoop fuel baseName extension counter w =
    (Normal (candidate baseName extension 99), w).
Proof.
  intros Hf Hall. induction fuel as [|fuel IH]; intros counter Hc Hfuel;
    simpl; unfold bind; rewrite hasFileNamed_reliable by assumption;
    rewrite (Hall counter Hc); simpl; unfold ret.
  - now replace counter with 99%nat by lia.
  - destruct (Nat.ltb_spec (S counter) 100) as [L|L].
    + apply IH; lia.
    + now replace counter with 99%nat by lia.
Qed.

(** The loop ends by its own condition: any fuel that covers the
    candidates left gives the same result, so the 100 of
    [ensureUniqueFilename] never run out. *)
Lemma probeLoop_fuel (baseName extension : JsString) (fuel : nat) :
  forall (fuel' counter : nat) (w : World),
    (99 <= counter + fuel)%nat -> (99 <= counter + fuel')%nat ->
    probeLoop fuel baseName extension counter w =
    probeLoop fuel' baseName extension counter w.
Proof.
  induction fuel as [|fuel IH]; intros [|fuel'] counter w H H';
    simpl; unfold bind;
    destruct (hasFileNamed (candidate baseName extension counter) w)
      as [[[|]|e] w1]; simpl; try reflexivity.
  - destruct (Nat.ltb_spec (S counter) 100); [lia | reflexivity].
  - destruct (Nat.ltb_spec (S counter) 100); [lia | reflexivity].
  - destruct (Nat.ltb_spec (S counter) 100); [apply IH; lia | reflexivity].
Qed.

(** [ensureUniqueFilename] on a reliable folder: the name itself when it is
    free, else one of the 99 numbered candidates. *)
Lemma ensureUniqueFilename_reliable (fileName : JsString) (w : World) :
  faults w = [] ->
  exists name,
    ensureUniqueFilename fileName w = (Normal name, w) /\
    ((existsb (jsEq fileName) (files w) = false /\ name = fileName) \/
     (existsb (jsEq fileName) (files w) = true /\
      exists k, (1 <= k <= 99)%nat /\
                name = candidate (fst (splitExtension fileName))
                         (snd (splitExtension fileName)) k)).
Proof.
  intros Hf.
  unfold ensureUniqueFilename, ensureUniqueFilename_try, tryCatch, bind.
  generalize 100%nat. intros fuel.
  rewrite hasFileNamed_reliable by assumption.
  destruct (existsb (jsEq fileName) (files w)); simpl.
  - destruct (splitExtension fileName) as [b e]. simpl.
    destruct (@probeLoop_candidate b e w Hf fuel 1) as (k & Hk & E); [lia|].
    rewrite E. exists (candidate b e k). split; [reflexivity|]. right. eauto.
  - unfold ret. exists fileName. auto.
Qed.

(** C7 fails on the code.  In a folder that holds a.txt and all of
    a_1.txt ... a_99.txt, [ensureUniqueFilename] probes the 99 candidates
    (not 100) and returns a_99.txt, a numbered name that is in the folder;
    no timestamp is appended. *)
Theorem ensureUniqueFilename_cap_exhausted :
  faults crowdedWorld = [] /\
  ensureUniqueFilename (lit "a.txt") crowdedWorld = (Normal (lit "a_99.txt"), crowdedWorld) /\
  existsb (jsEq (lit "a_99.txt")) (files crowdedWorld) = true.
Proof. vm_compute. auto. Qed.

(* ================================================================== *)
(** * The classifier on sample patterns *)

Lemma checkMultiplePatterns_any_mode_witness :
  let cfg := mkSubjectPatterns true (Some (lit "any")) (Some samplePatterns) in
  let r := checkMultiplePatterns sampleToString sampleTest sampleMatch cfg (lit "abc") in
  matchModeOf cfg = lit "any" /\
  isMatch r = true /\
  matchedPattern r = Defined (sampleToString (Some (lit "ab"))) /\
  checkedPatterns r = map sampleToString [Some (lit "x"); None; Some (lit "ab")].
Proof.
  intros cfg r.
  assert (Hmode : matchModeOf cfg = lit "any") by reflexivity.
  split; [exact Hmode|].
  destruct (checkMultiplePatterns_any_mode sampleToString sampleTest sampleMatch
              cfg (lit "abc") Hmode) as (_ & Hfirst & _).
  apply (Hfirst [Some (lit "x"); None] (Some (lit "ab")) [Some (lit "a")]).
  - reflexivity.
  - intros q [<-|[<-|[]]]; discriminate.
  - reflexivity.
Defined.

Lemma checkMultiplePatterns_all_mode_witness :
  let cfg := mkSubjectPatterns true (Some (lit "all")) (Some samplePatterns) in
  let r := checkMultiplePatterns sampleToString sampleTest sampleMatch cfg (lit "abc") in
  matchModeOf cfg = lit "all" /\
  checkedPatterns r = map sampleToString samplePatterns /\
  isMatch r = false.
Proof.
  intros cfg r.
  assert (Hmode : matchModeOf cfg = lit "all") by reflexivity.
  split; [exact Hmode|].
  destruct (checkMultiplePatterns_all_mode sampleToString sampleTest sampleMatch
              cfg (lit "abc") Hmode) as (Hchecked & _ & _ & _ & Hall).
  split; [exact Hchecked|].
  destruct (isMatch r) eqn:E; [|reflexivity].
  assert (H : sampleTest None (lit "abc") = Normal true)
    by (apply (proj1 Hall E); simpl; tauto).
  discriminate H.
Defined.

(** ** Splitting a name at its last dot *)

Lemma splitDot_nonempty (s : JsString) : splitDot s <> [].
Proof.
  destruct s as [|c s]; simpl; [discriminate|].
  destruct (N.eqb c dot); [discriminate|].
  destruct (splitDot s); discriminate.
Qed.

Lemma joinDot_cons (p : JsString) (ps : list JsString) :
  ps <> [] -> joinDot (p :: ps) = p ++ dot :: joinDot ps.
Proof. destruct ps; [contradiction | reflexivity]. Qed.

Lemma joinDot_splitDot (s : JsString) : joinDot (splitDot s) = s.
Proof.
  induction s as [|c s IH]; simpl; [reflexivity|].
  destruct (N.eqb_spec c dot) as [->|Hc].
  - rewrite joinDot_cons by apply splitDot_nonempty. now rewrite IH.
  - pose proof (splitDot_nonempty s) as Hne.
    destruct (splitDot s) as [|p ps]; [contradiction|].
    destruct ps as [|q ps]; simpl in *; now rewrite <- IH.
Qed.

Lemma splitDot_noDot (s : JsString) : Forall (fun p => noDot p = true) (splitDot s).
Proof.
  induction s as [|c s IH]; simpl.
  - now constructor.
  - destruct (N.eqb_spec c dot) as [->|Hc].
    + now constructor.
    + destruct (splitDot s) as [|p ps]; [now repeat constructor; simpl; destruct (N.eqb_spec c dot)|].
      inversion IH as [|? ? Hp Hps]; subst. constructor; [|assumption].
      simpl. destruct (N.eqb_spec c dot); [contradiction | exact Hp].
Qed.

Lemma joinDot_snoc (ps : list JsString) (x : JsString) :
  ps <> [] -> joinDot (ps ++ [x]) = joinDot ps ++ dot :: x.
Proof.
  induction ps as [|p ps IH]; [contradiction|]. intros _.
  destruct ps as [|q ps]; [reflexivity|].
  change ((p :: q :: ps) ++ [x]) with (p :: ((q :: ps) ++ [x])).
  rewrite joinDot_cons by (destruct ps; discriminate).
  rewrite IH by discriminate.
  rewrite (@joinDot_cons p (q :: ps)) by discriminate.
  now rewrite <- app_assoc.
Qed.

(** [splitExtension] cuts a name at its last dot: the two parts make up
    the name, and the extension is empty (a name without a dot) or a dot
    followed by a string without a dot. *)
Lemma splitExtension_spec (name : JsString) :
  fst (splitExtension name) ++ snd (splitExtension name) = name /\
  ((snd (splitExtension name) = [] /\ noDot name = true) \/
   exists x, snd (splitExtension name) = dot :: x /\ noDot x = true).
Proof.
  unfold splitExtension, popLast.
  pose proof (joinDot_splitDot name) as Hjoin.
  pose proof (splitDot_noDot name) as Hno.
  pose proof (splitDot_nonempty name) as Hne.
  destruct (splitDot name) as [|p ps]; [contradiction|].
  destruct ps as [|q ps].
  - simpl in *. rewrite app_nil_r. split; [assumption|].
    left. split; [reflexivity|]. inversion Hno; congruence.
  - change (1 <? length (p :: q :: ps))%nat with true. cbv iota.
    set (parts := p :: q :: ps) in *.
    assert (Hparts : parts = removelast parts ++ [last parts []])
      by (apply app_removelast_last; discriminate).
    assert (Hrest : removelast parts <> [])
      by (unfold parts; simpl; destruct ps; discriminate).
    clearbody parts. cbn [fst snd]. split.
    + rewrite <- Hjoin. rewrite <- (joinDot_snoc _ Hrest). now rewrite <- Hparts.
    + right. exists (last parts []). split; [reflexivity|].
      rewrite Forall_forall in Hno. apply Hno.
      rewrite Hparts. apply in_or_app. right.
      rewrite last_last. now left.
Qed.

Lemma generateSimpleFilename_first (t : Z) (name : JsString) :
  trim name <> [] ->
  generateSimpleFilename t 0 name = trim (replaceInvalid name).
Proof.
  intros H. unfold generateSimpleFilename.
  destruct (trim name); [contradiction | reflexivity].
Qed.

Lemma generateSimpleFilename_later (t : Z) (index : nat) (name : JsString) :
  trim name <> [] -> (0 < index)%nat ->
  generateSimpleFilename t index name =
  candidate (fst (splitExtension (trim (replaceInvalid name))))
    (snd (splitExtension (trim (replaceInvalid name)))) (index + 1).
Proof.
  intros H Hi. unfold generateSimpleFilename.
  destruct (trim name); [contradiction|].
  apply Nat.ltb_lt in Hi. rewrite Hi.
  now destruct (splitExtension (trim (replaceInvalid name))).
Qed.

(** ** Two attachments of the same name *)

Lemma createFile_reliable (name : JsString) (w : World) :
  faults w = [] ->
  createFile name w = (Normal tt, setFiles (files w ++ [name]) w).
Proof. intros Hf. unfold createFile. now rewrite host_reliable. Qed.

(** Saving one attachment into a reliable folder. *)
Lemma saveAttachmentToDrive_reliable (a : Attachment) (index : nat) (w : World) :
  faults w = [] ->
  exists name,
    saveAttachmentToDrive a index w =
    (Normal (mkInfo (getName a) (Some name) (getSize a) None),
     setFiles (files w ++ [name]) w) /\
    ensureUniqueFilename (generateSimpleFilename (clock w) index (getName a)) w =
    (Normal name, w).
Proof.
  intros Hf. unfold saveAttachmentToDrive, bind, now.
  destruct (@ensureUniqueFilename_reliable
              (generateSimpleFilename (clock w) index (getName a)) w Hf)
    as (name & E & _).
  rewrite E, createFile_reliable by assumption.
  exists name. split; reflexivity.
Qed.

Lemma report_names_apart :
  forallb (fun a => forallb (fun b => negb (jsEq a b)) secondReportProbes)
    firstReportNames = true.
Proof. vm_compute. reflexivity. Qed.

Lemma report_names_pdf :
  forallb (fun a => endsWith a (lit ".pdf"))
    (lit "report_2.pdf" :: firstReportNames ++ secondReportProbes) = true.
Proof. vm_compute. reflexivity. Qed.

Lemma candidate_In (b e : JsString) (k : nat) :
  (1 <= k <= 99)%nat -> In (candidate b e k) (map (candidate b e) (seq 1 99)).
Proof. intros Hk. apply in_map, in_seq. lia. Qed.

Lemma two_reports_distinct (w : World) (size1 size2 : Z) :
  faults w = [] ->
  exists name1 name2 w',
    processAttachments_forEach
      [mkAttachment (lit "report.pdf") size1; mkAttachment (lit "report.pdf") size2]
      0 [] w =
    (Normal [mkInfo (lit "report.pdf") (Some name1) size1 None;
             mkInfo (lit "report.pdf") (Some name2) size2 None], w') /\
    files w' = files w ++ [name1; name2] /\
    name1 <> name2 /\
    endsWith name1 (lit ".pdf") = true /\ endsWith name2 (lit ".pdf") = true.
Proof.
  intros Hf.
  set (a1 := mkAttachment (lit "report.pdf") size1).
  set (a2 := mkAttachment (lit "report.pdf") size2).
  destruct (@saveAttachmentToDrive_reliable a1 0 w Hf) as (name1 & Esave1 & Eu1).
  set (w1 := setFiles (files w ++ [name1]) w) in *.
  assert (Hf1 : faults w1 = []) by exact Hf.
  destruct (@saveAttachmentToDrive_reliable a2 1 w1 Hf1) as (name2 & Esave2 & Eu2).
  exists name1, name2, (setFiles (files w1 ++ [name2]) w1).
  assert (Hn1 : In name1 firstReportNames).
  { destruct (@ensureUniqueFilename_reliable
                (generateSimpleFilename (clock w) 0 (getName a1)) w Hf)
      as (n & E & [[_ ->]|[_ (k & Hk & ->)]]);
      rewrite Eu1 in E; injection E as ->.
    - now left.
    - right. now apply (candidate_In (lit "report") (lit ".pdf")). }
  assert (Hn2 : (name2 = lit "report_2.pdf" /\
                 existsb (jsEq (lit "report_2.pdf")) (files w1) = false) \/
                In name2 secondReportProbes).
  { destruct (@ensureUniqueFilename_reliable
                (generateSimpleFilename (clock w1) 1 (getName a2)) w1 Hf1)
      as (n & E & [[Hfree ->]|[_ (k & Hk & ->)]]);
      rewrite Eu2 in E; injection E as ->.
    - left. split; [reflexivity | exact Hfree].
    - right. now apply (candidate_In (lit "report_2") (lit ".pdf")). }
  pose proof report_names_pdf as Hpdf. rewrite forallb_forall in Hpdf.
  split; [|split; [|split; [|split]]].
  - simpl. unfold tryCatch, bind. rewrite Esave1. simpl.
    fold w1. rewrite Esave2. reflexivity.
  - simpl. now rewrite <- app_assoc.
  - destruct Hn2 as [[-> Hfree]|Hn2].
    + intros ->. unfold w1 in Hfree. cbn [files setFiles] in Hfree.
      rewrite existsb_app in Hfree. apply orb_false_iff in Hfree as [_ Hfree].
      vm_compute in Hfree. discriminate.
    + pose proof report_names_apart as Hap. rewrite forallb_forall in Hap.
      specialize (Hap name1 Hn1). rewrite forallb_forall in Hap.
      specialize (Hap name2 Hn2). intros ->. now rewrite jsEq_refl in Hap.
  - apply Hpdf. right. apply in_or_app. now left.
  - apply Hpdf. destruct Hn2 as [[-> _]|Hn2]; [now left|].
    right. apply in_or_app. now right.
Qed.

(** C8, as stated, fails: of two attachments a.pdf and b.txt, which share
    no name, the second is stored as b_2.txt. *)
Lemma generateSimpleFilename_suffix_by_position :
  savedNames
    (match fst (processAttachments_forEach
                  [mkAttachment (lit "a.pdf") 10; mkAttachment (lit "b.txt") 20]
                  0 [] freshWorld) with
     | Normal infos => infos
     | Throw _ => []
     end) = [Some (lit "a.pdf"); Some (lit "b_2.txt")] /\
  generateSimpleFilename 0 1 (lit "b.txt") = lit "b_2.txt" /\
  lit "a.pdf" <> lit "b.txt".
Proof. vm_compute. repeat split. discriminate. Qed.

(** C8 (amended).  For an attachment whose name is not blank,
    [generateSimpleFilename] gives the sanitized original name to the
    attachment at position 0, and to every attachment at a later position
    [index] the sanitized name with the suffix [_(index + 1)] put before the
    extension (the part from the last dot on), whether or not another
    attachment has the same name.  Archiving two attachments both named
    report.pdf into one folder whose Drive calls succeed stores them under
    two distinct names that both end in .pdf. *)
Theorem generateSimpleFilename_positional (t : Z) (index : nat) (name : JsString) :
  trim name <> [] ->
  let clean := trim (replaceInvalid name) in
  (index = 0%nat -> generateSimpleFilename t index name = clean) /\
  ((0 < index)%nat ->
   exists base ext,
     base ++ ext = clean /\
     ((ext = [] /\ noDot clean = true) \/ exists x, ext = dot :: x /\ noDot x = true) /\
     generateSimpleFilename t index name =
     base ++ underscore :: decimal (index + 1) ++ ext) /\
  (forall w size1 size2,
      faults w = [] ->
      exists name1 name2 w',
        processAttachments_forEach
          [mkAttachment (lit "report.pdf") size1; mkAttachment (lit "report.pdf") size2]
          0 [] w =
        (Normal [mkInfo (lit "report.pdf") (Some name1) size1 None;
                 mkInfo (lit "report.pdf") (Some name2) size2 None], w') /\
        files w' = files w ++ [name1; name2] /\
        name1 <> name2 /\
        endsWith name1 (lit ".pdf") = true /\ endsWith name2 (lit ".pdf") = true).
Proof.
  intros Hname clean. split; [|split].
  - intros ->. now apply generateSimpleFilename_first.
  - intros Hi.
    destruct (splitExtension_spec clean) as (Hcat & Hext).
    exists (fst (splitExtension clean)), (snd (splitExtension clean)).
    split; [exact Hcat|]. split; [exact Hext|].
    now apply generateSimpleFilename_later.
  - intros w size1 size2 Hf. now apply two_reports_distinct.
Qed.

Lemma generateSimpleFilename_positional_witness :
  trim (lit " my:report.final.pdf ") <> [] /\
  generateSimpleFilename 0 0 (lit " my:report.final.pdf ") = lit "my_report.final.pdf" /\
  exists base ext,
    base ++ ext = lit "my_report.final.pdf" /\
    generateSimpleFilename 0 2 (lit " my:report.final.pdf ") =
    base ++ underscore :: decimal 3 ++ ext.
Proof.
  assert (H : trim (lit " my:report.final.pdf ") <> []) by discriminate.
  split; [exact H|].
  destruct (@generateSimpleFilename_positional 0 2 _ H) as (_ & Hlater & _).
  destruct (@generateSimpleFilename_positional 0 0 _ H) as (Hfirst & _ & _).
  split; [exact (Hfirst eq_refl)|].
  destruct (Hlater ltac:(lia)) as (base & ext & Hcat & _ & E).
  exists base, ext. split; assumption.
Defined.

(* ================================================================== *)
(** * The dispatcher *)

Lemma sendParts_done (fuel : nat) (subject : JsString) (emailDate : option Z)
      (partNumber totalSent : nat) :
  sendParts fuel subject emailDate [] partNumber totalSent = ret (partNumber, totalSent).
Proof. now destruct fuel. Qed.

(** One turn of the loop. *)
Lemma sendParts_turn (fuel : nat) (subject : JsString) (emailDate : option Z)
      (c : CodeUnit) (rest : JsString) (partNumber totalSent : nat) :
  let remainingBody := c :: rest in
  let chunk := substringTo remainingBody (Nat.min chunkSize (length remainingBody)) in
  let remaining' := substringFrom remainingBody (length chunk) in
  sendParts (S fuel) subject emailDate remainingBody partNumber totalSent =
  (sleep 1000 ;;;
   code <- fetch (bodyPartPost subject emailDate partNumber
                    (Nat.eqb (length remaining') 0) chunk) ;;
   if negb (code =? 200) then ret (partNumber, totalSent)
   else sendParts fuel subject emailDate remaining' (S partNumber)
          (totalSent + length chunk)%nat).
Proof. reflexivity. Qed.

Lemma chunkSize_pos : (1 <= chunkSize)%nat.
Proof. apply Nat.leb_le. reflexivity. Qed.

(** The chunk cut off a non-empty remaining body, and what is left. *)
Lemma chunk_cut (remainingBody : JsString) :
  remainingBody <> [] ->
  let chunk := substringTo remainingBody (Nat.min chunkSize (length remainingBody)) in
  let remaining' := substringFrom remainingBody (length chunk) in
  chunk ++ remaining' = remainingBody /\
  (1 <= length chunk <= chunkSize)%nat /\
  (length remaining' < length remainingBody)%nat.
Proof.
  intros Hne chunk remaining'.
  assert (Hlen : (1 <= length remainingBody)%nat)
    by (destruct remainingBody; [contradiction | simpl; lia]).
  assert (Hchunk : length chunk = Nat.min chunkSize (length remainingBody))
    by (unfold chunk, substringTo; rewrite length_firstn; lia).
  pose proof chunkSize_pos as Hpos.
  split; [|split].
  - unfold remaining', substringFrom. rewrite Hchunk.
    unfold chunk, substringTo. apply firstn_skipn.
  - lia.
  - unfold remaining', substringFrom. rewrite length_skipn. lia.
Qed.

#[local] Opaque chunkSize.

Lemma bodyChunks_app (ps qs : list SlackPost) :
  bodyChunks (ps ++ qs) = bodyChunks ps ++ bodyChunks qs.
Proof. unfold bodyChunks. now rewrite flat_map_app. Qed.

(** The loop ends by emptying the remaining body: any fuel that covers its
    length gives the same result, so the fuel of [sendLongEmailBody] never
    runs out. *)
Lemma sendParts_fuel (subject : JsString) (emailDate : option Z) (fuel : nat) :
  forall (fuel' : nat) (remainingBody : JsString) (partNumber totalSent : nat) (w : World),
    (length remainingBody <= fuel)%nat -> (length remainingBody <= fuel')%nat ->
    sendParts fuel subject emailDate remainingBody partNumber totalSent w =
    sendParts fuel' subject emailDate remainingBody partNumber totalSent w.
Proof.
  induction fuel as [|fuel IH]; intros fuel' remainingBody partNumber totalSent w H H'.
  - destruct remainingBody; [|simpl in H; lia]. now rewrite !sendParts_done.
  - destruct remainingBody as [|c body']; [now rewrite !sendParts_done|].
    destruct fuel' as [|fuel']; [simpl in H'; lia|].
    rewrite !sendParts_turn. cbv zeta.
    destruct (@chunk_cut (c :: body') ltac:(discriminate)) as (_ & _ & Hshort).
    cbv zeta in Hshort.
    unfold bind. destruct (sleep 1000 w) as [[[]|e] w1]; [|reflexivity].
    destruct (fetch _ w1) as [[code|e] w2]; [|reflexivity].
    destruct (negb (code =? 200)); [reflexivity|].
    change (length (c :: body')) with (S (length body')) in *.
    apply IH; lia.
Qed.

(** Whatever the host does, the chunks that the loop posts are consecutive
    pieces of the remaining body, from its start on, each of 1 to
    [chunkSize] code units. *)
Lemma sendParts_prefix (subject : JsString) (emailDate : option Z) (fuel : nat) :
  forall (remainingBody : JsString) (partNumber totalSent : nat) (w : World),
  exists parts rest,
    outbox (snd (sendParts fuel subject emailDate remainingBody partNumber totalSent w))
    = outbox w ++ parts /\
    length (bodyChunks parts) = length parts /\
    concat (bodyChunks parts) ++ rest = remainingBody /\
    Forall (fun chunk => (1 <= length chunk <= chunkSize)%nat) (bodyChunks parts).
Proof.
  induction fuel as [|fuel IH]; intros remainingBody partNumber totalSent w.
  - exists [], remainingBody. rewrite app_nil_r.
    destruct remainingBody; simpl; auto.
  - destruct remainingBody as [|c body'].
    { exists [], []. rewrite app_nil_r. simpl. auto. }
    rewrite sendParts_turn. cbv zeta.
    destruct (@chunk_cut (c :: body') ltac:(discriminate)) as (Hcat & Hsize & _).
    cbv zeta in Hcat, Hsize.
    set (chunk := substringTo (c :: body') (Nat.min chunkSize (length (c :: body')))) in *.
    set (remaining' := substringFrom (c :: body') (length chunk)) in *.
    set (post := bodyPartPost subject emailDate partNumber
                   (Nat.eqb (length remaining') 0) chunk).
    unfold bind.
    assert (Hsleep : outbox (snd (sleep 1000 w)) = outbox w).
    { unfold sleep, host. destruct (faults w) as [|[] fs]; reflexivity. }
    destruct (sleep 1000 w) as [[[]|e] w1]; simpl in Hsleep.
    2: { exists [], (c :: body'). rewrite app_nil_r. simpl. auto. }
    destruct (fetch_outbox post w1) as [(e & Hc & Ho)|(code & Hc & Ho)];
      destruct (fetch post w1) as [r w2]; simpl in Hc, Ho; subst r.
    { exists [], (c :: body'). rewrite app_nil_r. simpl. split; [congruence | auto]. }
    destruct (negb (code =? 200)).
    + exists [post], remaining'. unfold ret. simpl. rewrite app_nil_r.
      repeat split; auto; try congruence; try lia.
    + destruct (IH remaining' (S partNumber) (totalSent + length chunk)%nat w2)
        as (parts & rest & Hout & Hall & Hcat' & Hsizes).
      exists (post :: parts), rest. rewrite Hout, Ho, Hsleep, <- app_assoc.
      simpl. repeat split; auto; try lia.
      rewrite <- app_assoc, Hcat'. exact Hcat.
Qed.

(** When no host call fails and every request is answered 200, the loop
    posts the whole remaining body and leaves the host as reliable. *)
Lemma sendParts_complete (subject : JsString) (emailDate : option Z) (fuel : nat) :
  forall (remainingBody : JsString) (partNumber totalSent : nat) (w : World),
    faults w = [] ->
    Forall (fun code => code = 200) (replies w) ->
    (length remainingBody <= fuel)%nat ->
    exists parts w',
      sendParts fuel subject emailDate remainingBody partNumber totalSent w =
      (Normal ((partNumber + length parts)%nat, (totalSent + length remainingBody)%nat), w') /\
      outbox w' = outbox w ++ parts /\
      length (bodyChunks parts) = length parts /\
      concat (bodyChunks parts) = remainingBody /\
      Forall (fun chunk => (1 <= length chunk <= chunkSize)%nat) (bodyChunks parts).
Proof.
  induction fuel as [|fuel IH]; intros remainingBody partNumber totalSent w Hf Hr Hfuel.
  - destruct remainingBody; [|simpl in Hfuel; lia].
    exists [], w. simpl. unfold ret. rewrite app_nil_r, !Nat.add_0_r. auto.
  - destruct remainingBody as [|c body'].
    { exists [], w. rewrite sendParts_done. unfold ret.
      simpl. rewrite app_nil_r, !Nat.add_0_r. auto. }
    rewrite sendParts_turn. cbv zeta.
    destruct (@chunk_cut (c :: body') ltac:(discriminate)) as (Hcat & Hsize & Hshort).
    cbv zeta in Hcat, Hsize, Hshort.
    set (chunk := substringTo (c :: body') (Nat.min chunkSize (length (c :: body')))) in *.
    set (remaining' := substringFrom (c :: body') (length chunk)) in *.
    set (post := bodyPartPost subject emailDate partNumber
                   (Nat.eqb (length remaining') 0) chunk).
    unfold bind, sleep. rewrite host_reliable by assumption. cbn [fst snd].
    unfold fetch. rewrite host_reliable by assumption.
    assert (Hcode : exists rest,
               (match replies w with
                | code :: rest => (code, setReplies rest (setOutbox (outbox w ++ [post]) w))
                | [] => (200, setOutbox (outbox w ++ [post]) w)
                end) = (200, setReplies rest (setOutbox (outbox w ++ [post]) w)) /\
               Forall (fun code => code = 200) rest).
    { destruct (replies w) as [|code rest] eqn:R.
      - exists []. split; [|constructor]. f_equal.
        destruct w; simpl in *. now subst.
      - inversion Hr; subst. now exists rest. }
    destruct Hcode as (rest & -> & Hrest). cbn [fst snd].
    change (negb (200 =? 200)) with false. cbv iota.
    destruct (IH remaining' (S partNumber) (totalSent + length chunk)%nat
                (setReplies rest (setOutbox (outbox w ++ [post]) w)))
      as (parts & w' & E & Hout & Hall & Hcat' & Hsizes);
      [exact Hf | exact Hrest | simpl in Hfuel, Hshort; lia |].
    assert (Hl : length (chunk ++ remaining') = length (c :: body'))
      by now rewrite Hcat.
    rewrite length_app in Hl.
    assert (H1 : (S partNumber + length parts = partNumber + length (post :: parts))%nat)
      by (simpl; lia).
    assert (H2 : (totalSent + length chunk + length remaining'
                  = totalSent + length (c :: body'))%nat) by lia.
    exists (post :: parts), w'. rewrite E, H1, H2.
    split; [|split; [|split; [|split]]].
    + reflexivity.
    + rewrite Hout. simpl. now rewrite <- app_assoc.
    + simpl. now rewrite Hall.
    + simpl. rewrite Hcat'. exact Hcat.
    + simpl. constructor; [lia | assumption].
Qed.

(** What [formatEmailBody] leaves alone: a body that is not blank, is
    trimmed, has no run of blank lines to collapse and is not longer than
    [BODY_PREVIEW_LENGTH], shown in full. *)
Lemma formatEmailBody_clean (cfg : BodyConfig) (body : JsString) :
  SHOW_FULL_EMAIL_BODY cfg = true ->
  body <> [] ->
  trim body = body ->
  replaceBlankRuns body = body ->
  Z.of_nat (length body) <= BODY_PREVIEW_LENGTH cfg ->
  formatEmailBody cfg body = body.
Proof.
  intros Hfull Hne Htrim Hruns Hlen. unfold formatEmailBody.
  rewrite Hruns, Htrim, Hfull.
  destruct body as [|c body']; [contradiction|].
  cbn [negb andb].
  now apply Z.leb_le in Hlen as ->.
Qed.

(** C6, as stated, fails, in two ways.
    - A body of 20001 code units is cut by [formatEmailBody] at
      [BODY_PREVIEW_LENGTH] and given a mark before it reaches the
      dispatcher: with every request answered 200, the six chunks posted
      make up 20012 code units, not the body.
    - For a body of 3501 code units whose first continuation request the
      webhook answers with 500, the loop of [sendLongEmailBody] stops at that
      part: the chunks posted are the first 3500 code units, not the body. *)
Lemma sendLongEmailBody_not_whole_body :
  let cut := notifiedEmailData CONFIG_body (lit "subject") (lit "sender@example.com")
               None veryLongBody in
  let w1 := snd (sendSlackNotification_longBody cut freshWorld) in
  let emailData := mkEmailData (lit "subject") (lit "sender@example.com") None longBody in
  let w2 := snd (sendSlackNotification_longBody emailData rejectingWorld) in
  (Z.of_nat (length veryLongBody) = 20001 /\
   faults freshWorld = [] /\ replies freshWorld = [] /\
   map (fun chunk => Z.of_nat (length chunk)) (bodyChunks (outbox w1))
   = [3500; 3500; 3500; 3500; 3500; 2512] /\
   concat (bodyChunks (outbox w1)) <> veryLongBody) /\
  (Z.of_nat (length longBody) = 3501 /\
   faults rejectingWorld = [] /\ replies rejectingWorld = [500] /\
   map (fun chunk => Z.of_nat (length chunk)) (bodyChunks (outbox w2)) = [3500] /\
   concat (bodyChunks (outbox w2)) <> longBody).
Proof.
  intros cut w1 emailData w2.
  assert (L1 : Z.of_nat (length (concat (bodyChunks (outbox w1)))) = 20012)
    by (vm_compute; reflexivity).
  assert (L2 : Z.of_nat (length (concat (bodyChunks (outbox w2)))) = 3500)
    by (vm_compute; reflexivity).
  split.
  - split; [vm_compute; reflexivity|].
    split; [reflexivity|]. split; [reflexivity|].
    split; [vm_compute; reflexivity|].
    intros H. rewrite H in L1. vm_compute in L1. discriminate L1.
  - split; [vm_compute; reflexivity|].
    split; [reflexivity|]. split; [reflexivity|].
    split; [vm_compute; reflexivity|].
    intros H. rewrite H in L2. vm_compute in L2. discriminate L2.
Qed.

(** C6 (amended).  [sendLongEmailBody] never throws, and whatever the host
    does the chunks it posts are consecutive pieces of the body it is given,
    from its start on and in order, each of 1 to 3500 code units (so no
    gap, no overlap).  [sendSlackNotification] calls it only for a body
    longer than 1000 code units.  When no host call fails, the webhook URL
    is set and every request is answered 200, the chunks posted make up the
    whole body it is given, for a body of any length (none is posted for
    the empty body); a request answered otherwise ends the loop.  The body
    it is given is the output of [formatEmailBody], which is the mail body
    itself when that is trimmed, not blank, without a run of blank lines
    and not longer than [BODY_PREVIEW_LENGTH] (full display on). *)
Theorem sendLongEmailBody_round_trip
        (subject sender fullBody : JsString) (emailDate : option Z) (w : World)
        (c : CodeUnit) (s : JsString) (cfg : BodyConfig) :
  (exists w', sendLongEmailBody subject fullBody emailDate w = (Normal tt, w')) /\
  (exists parts rest,
      outbox (snd (sendLongEmailBody subject fullBody emailDate w)) = outbox w ++ parts /\
      length (bodyChunks parts) = length parts /\
      concat (bodyChunks parts) ++ rest = fullBody /\
      Forall (fun chunk => (1 <= length chunk <= 3500)%nat) (bodyChunks parts)) /\
  sendSlackNotification_longBody (mkEmailData subject sender emailDate fullBody) w =
  (if (1000 <? length fullBody)%nat
   then sendLongEmailBody subject fullBody emailDate w
   else (Normal tt, w)) /\
  (faults w = [] ->
   webhook w = Some (c :: s) ->
   Forall (fun code => code = 200) (replies w) ->
   exists parts w',
     sendLongEmailBody subject fullBody emailDate w = (Normal tt, w') /\
     outbox w' = outbox w ++ parts /\
     length (bodyChunks parts) = length parts /\
     concat (bodyChunks parts) = fullBody /\
     Forall (fun chunk => (1 <= length chunk <= 3500)%nat) (bodyChunks parts)) /\
  (SHOW_FULL_EMAIL_BODY cfg = true ->
   fullBody <> [] ->
   trim fullBody = fullBody ->
   replaceBlankRuns fullBody = fullBody ->
   Z.of_nat (length fullBody) <= BODY_PREVIEW_LENGTH cfg ->
   notifiedEmailData cfg subject sender emailDate fullBody =
   mkEmailData subject sender emailDate fullBody).
Proof.
  split; [|split; [|split; [|split]]].
  - destruct (tryCatch_total
                (getProperty_SLACK_WEBHOOK_URL ;;;
                 sendParts (length fullBody) subject emailDate fullBody 1 0 ;;;
                 ret tt) tt w) as ([] & w' & E).
    now exists w'.
  - unfold sendLongEmailBody, tryCatch, bind, ret.
    pose proof (@getProperty_preserves (sameOutbox (outbox w))
                  (or_intror (or_introl (ex_intro _ _ eq_refl))) w eq_refl) as Hp.
    destruct (getProperty_SLACK_WEBHOOK_URL w) as [[url|e] w1]; simpl in Hp;
      unfold sameOutbox in Hp.
    2: { exists [], fullBody. rewrite app_nil_r. simpl. auto. }
    destruct (sendParts_prefix subject emailDate (length fullBody) fullBody 1 0 w1)
      as (parts & rest & Hout & Hall & Hcat & Hsizes).
    exists parts, rest.
    destruct (sendParts (length fullBody) subject emailDate fullBody 1 0 w1)
      as [[r|e] w2]; simpl in *; rewrite Hout, Hp; auto.
  - unfold sendSlackNotification_longBody. simpl.
    destruct fullBody as [|c0 body']; [reflexivity|].
    now destruct (1000 <? length (c0 :: body'))%nat.
  - intros Hf Hw Hr.
    destruct (@sendParts_complete subject emailDate (length fullBody) fullBody 1 0 w
                Hf Hr (le_n _)) as (parts & w' & E & Hout & Hall & Hcat & Hsizes).
    exists parts, w'. unfold sendLongEmailBody, tryCatch, bind, ret.
    rewrite (getProperty_reliable _ Hf Hw), E. auto.
  - intros Hfull Hne Htrim Hruns Hlen. unfold notifiedEmailData.
    now rewrite formatEmailBody_clean.
Qed.

Lemma sendLongEmailBody_round_trip_witness :
  (faults freshWorld = [] /\
   webhook freshWorld = Some (lit "https://hooks.slack.com/services/T/B/x") /\
   Forall (fun code => code = 200) (replies freshWorld)) /\
  (SHOW_FULL_EMAIL_BODY CONFIG_body = true /\ longBody <> [] /\
   trim longBody = longBody /\ replaceBlankRuns longBody = longBody /\
   Z.of_nat (length longBody) <= BODY_PREVIEW_LENGTH CONFIG_body) /\
  (exists parts w',
      sendLongEmailBody (lit "subject") longBody None freshWorld = (Normal tt, w') /\
      outbox w' = parts /\
      concat (bodyChunks parts) = longBody) /\
  notifiedEmailData CONFIG_body (lit "subject") (lit "sender@example.com") None longBody =
  mkEmailData (lit "subject") (lit "sender@example.com") None longBody.
Proof.
  assert (H1 : faults freshWorld = []) by reflexivity.
  assert (H2 : webhook freshWorld = Some (104%N :: lit "ttps://hooks.slack.com/services/T/B/x"))
    by reflexivity.
  assert (H3 : Forall (fun code => code = 200) (replies freshWorld)) by constructor.
  assert (F1 : SHOW_FULL_EMAIL_BODY CONFIG_body = true) by reflexivity.
  assert (F2 : longBody <> []) by discriminate.
  assert (F3 : trim longBody = longBody) by (vm_compute; reflexivity).
  assert (F4 : replaceBlankRuns longBody = longBody) by (vm_compute; reflexivity).
  assert (F5 : Z.of_nat (length longBody) <= BODY_PREVIEW_LENGTH CONFIG_body)
    by (vm_compute; discriminate).
  split; [split; [exact H1 | split; [reflexivity | exact H3]]|].
  split; [repeat split; assumption|].
  pose proof (sendLongEmailBody_round_trip (lit "subject") (lit "sender@example.com")
                longBody None freshWorld 104%N
                (lit "ttps://hooks.slack.com/services/T/B/x") CONFIG_body) as H.
  destruct H as (_ & _ & _ & H & Hfmt).
  destruct (H H1 H2 H3) as (parts & w' & E & Hout & _ & Hcat & _).
  split; [|exact (Hfmt F1 F2 F3 F4 F5)].
  exists parts, w'. split; [exact E|]. split; [exact Hout | exact Hcat].
Defined.

(* ================================================================== *)
(** * Further facts about the ledger *)

Lemma readable_getters (message : GmailMessage) :
  readable message = true ->
  exists messageId subject sender,
    getId message = Normal messageId /\ getSubject message = Normal subject /\
    getFrom message = Normal sender.
Proof.
  unfold readable.
  destruct (getId message) as [i|], (getSubject message) as [s|],
    (getFrom message) as [f|]; try discriminate.
  intros _. now exists i, s, f.
Qed.

Lemma setSheet_same (w : World) : setSheet (sheet w) w = w.
Proof. now destruct w. Qed.

(** Record, then query: on a store whose calls succeed, whatever the size
    of the sheet, the entry just recorded is found by both queries, and the
    queries leave the store as it is. *)
Theorem record_then_query
        (message : GmailMessage) (w : World) (h : Row) (data : list Row)
        (messageId : JsString) :
  faults w = [] ->
  sheet w = Some (h :: data) ->
  readable message = true ->
  getId message = Normal messageId ->
  let w' := snd (markMessageProcessedInSheet message w) in
  isMessageProcessedInSheet messageId w' = (Normal true, w') /\
  isMessageAlreadyProcessed message w' = (Normal true, w').
Proof.
  intros Hf Hs Hr Hid.
  destruct (readable_getters _ Hr) as (i & subject & sender & Hi & Hsj & Hsd).
  assert (i = messageId) by congruence. subst i.
  destruct (markMessageProcessedInSheet_batch _ _ Hf Hs Hid Hsj Hsd)
    as (n & _ & Hn & _ & _ & Hmark).
  rewrite Hmark. cbn [snd].
  set (row := ledgerRow messageId subject sender (clock w)).
  set (w' := setSheet (Some (h :: skipn n (data ++ [row]))) w).
  assert (Hf' : faults w' = []) by (destruct w; exact Hf).
  assert (Hs' : sheet w' = Some (h :: skipn n (data ++ [row]))) by (now destruct w).
  assert (Hin : includes (map firstCell (skipn n (data ++ [row]))) messageId = true).
  { apply includes_In with (subject := subject) (sender := sender) (t := clock w).
    apply last_In with (d := []); [|discriminate].
    now apply last_skipn_snoc. }
  split.
  - rewrite (isMessageProcessedInSheet_reliable messageId _ Hf' Hs').
    cbn [tl]. now rewrite Hin.
  - rewrite (isMessageAlreadyProcessed_reliable _ _ Hf' Hs' Hid). now rewrite Hin.
Qed.

Lemma record_then_query_witness :
  (faults freshWorld = [] /\ sheet freshWorld = Some [HEADERS] /\
   readable (sampleMessage 7) = true /\
   getId (sampleMessage 7) = Normal (lit "msg-7")) /\
  let w' := snd (markMessageProcessedInSheet (sampleMessage 7) freshWorld) in
  isMessageProcessedInSheet (lit "msg-7") w' = (Normal true, w').
Proof.
  split; [repeat split|].
  exact (proj1 (@record_then_query (sampleMessage 7) freshWorld HEADERS []
                  (lit "msg-7") eq_refl eq_refl eq_refl eq_refl)).
Defined.

Lemma filter_snoc {A} (f : A -> bool) (l : list A) (x : A) :
  filter f (l ++ [x]) = filter f l ++ (if f x then [x] else []).
Proof. rewrite filter_app. simpl. now destruct (f x). Qed.

(** Below the cleanup threshold a record call adds exactly one row, at the
    end, and changes nothing else of the sheet: the entries of the recorded
    identifier grow by one, those of any other identifier stay. *)
Theorem record_adds_one_entry
        (message : GmailMessage) (w : World) (h : Row) (data : list Row)
        (messageId : JsString) :
  faults w = [] ->
  sheet w = Some (h :: data) ->
  readable message = true ->
  getId message = Normal messageId ->
  Z.of_nat (length data) + 2 <= MAX_ROWS + CLEANUP_BATCH_SIZE ->
  let w' := snd (markMessageProcessedInSheet message w) in
  (exists row, sheet w' = Some (h :: data ++ [row]) /\ firstCell row = CStr messageId) /\
  entriesFor messageId w' = S (entriesFor messageId w) /\
  (forall other, other <> messageId -> entriesFor other w' = entriesFor other w).
Proof.
  intros Hf Hs Hr Hid Hsmall.
  destruct (readable_getters _ Hr) as (i & subject & sender & Hi & Hsj & Hsd).
  assert (i = messageId) by congruence. subst i.
  destruct (markMessageProcessedInSheet_batch _ _ Hf Hs Hid Hsj Hsd)
    as (n & _ & _ & H0 & _ & Hmark).
  rewrite (H0 Hsmall) in Hmark. rewrite Hmark. cbn [snd skipn].
  set (row := ledgerRow messageId subject sender (clock w)).
  split; [exists row; split; [now destruct w | reflexivity]|].
  rewrite !entriesFor_setSheet, !(entriesFor_sheet _ _ Hs).
  split.
  - rewrite filter_snoc. cbn [row ledgerRow firstCell nth cellIs].
    rewrite jsEq_refl, length_app. simpl. lia.
  - intros other Hne. rewrite entriesFor_setSheet, (entriesFor_sheet _ _ Hs).
    rewrite filter_snoc. cbn [row ledgerRow firstCell nth cellIs].
    replace (jsEq messageId other) with false
      by (symmetry; apply jsEq_neq; congruence).
    now rewrite app_nil_r.
Qed.

Lemma record_adds_one_entry_witness :
  (faults freshWorld = [] /\ sheet freshWorld = Some [HEADERS] /\
   readable (sampleMessage 7) = true /\
   getId (sampleMessage 7) = Normal (lit "msg-7") /\
   Z.of_nat (@length Row []) + 2 <= MAX_ROWS + CLEANUP_BATCH_SIZE) /\
  let w' := snd (markMessageProcessedInSheet (sampleMessage 7) freshWorld) in
  entriesFor (lit "msg-7") w' = S (entriesFor (lit "msg-7") freshWorld).
Proof.
  assert (H : Z.of_nat (@length Row []) + 2 <= MAX_ROWS + CLEANUP_BATCH_SIZE)
    by (vm_compute; discriminate).
  split; [repeat split; exact H|].
  exact (proj1 (proj2 (@record_adds_one_entry (sampleMessage 7) freshWorld HEADERS []
                         (lit "msg-7") eq_refl eq_refl eq_refl eq_refl H))).
Defined.


(** The cleanup never throws.  On a store whose calls succeed it keeps the
    header and deletes only oldest data rows, at most [CLEANUP_BATCH_SIZE]
    of them, and never so many that fewer than [MAX_ROWS] entries are left;
    a sheet of at most [MAX_ROWS] entries is left as it is. *)
Theorem cleanup_keeps_newest (w : World) :
  (exists w', cleanupOldEntriesInSheet w = (Normal tt, w')) /\
  (forall h data,
      faults w = [] ->
      sheet w = Some (h :: data) ->
      exists n,
        cleanupOldEntriesInSheet w = (Normal tt, setSheet (Some (h :: skipn n data)) w) /\
        Z.of_nat n <= CLEANUP_BATCH_SIZE /\
        (Z.of_nat (length data) <= MAX_ROWS -> n = 0%nat) /\
        (MAX_ROWS < Z.of_nat (length data) ->
         (0 < n)%nat /\ MAX_ROWS <= Z.of_nat (length data) - Z.of_nat n)).
Proof.
  split.
  - unfold cleanupOldEntriesInSheet.
    destruct (tryCatch_total cleanupOldEntriesInSheet_try tt w) as ([] & w' & H).
    now exists w'.
  - intros h data Hf Hs.
    destruct w as [sh fs ck wh ob rp fl mb]. simpl in Hf, Hs. subst fs sh.
    unfold cleanupOldEntriesInSheet, cleanupOldEntriesInSheet_try, tryCatch, bind,
      getOrCreateTrackingSpreadsheet, getSheetByName, getLastRow, deleteRows, host, ret.
    simpl. unfold MAX_ROWS, CLEANUP_BATCH_SIZE.
    destruct (Z.leb_spec (Z.of_nat (S (length data)) - 10000 - 1) 0) as [E|E]; simpl.
    + exists 0%nat. simpl. split; [reflexivity|]. repeat split; lia.
    + exists (Z.to_nat (Z.min (Z.of_nat (S (length data)) - 10000 - 1) 1000)).
      split; [|repeat split; lia].
      unfold setSheet. simpl. do 3 f_equal.
      replace (Z.to_nat (2 - 1)) with 1%nat by lia. simpl. f_equal.
      replace (Z.to_nat (2 - 1 + Z.min (Z.of_nat (S (length data)) - 10000 - 1) 1000))
        with (S (Z.to_nat (Z.min (Z.of_nat (S (length data)) - 10000 - 1) 1000))) by lia.
      reflexivity.
Qed.

(** The membership queries change nothing of the host but the schedule of
    its faults: they keep every property of the state that consuming
    scheduled outcomes keeps. *)
Lemma isMessageProcessedInSheet_reads (messageId : JsString) (I : World -> Prop) :
  (forall w b fs, I w -> faults w = b :: fs -> I (setFaults fs w)) ->
  preserves I (isMessageProcessedInSheet messageId).
Proof.
  intros HI.
  unfold isMessageProcessedInSheet, isMessageProcessedInSheet_try,
    getOrCreateTrackingSpreadsheet, getSheetByName, getLastRow, getColumnValues.
  repeat first
    [ apply preserves_ret
    | apply preserves_bind; [|intros ?]
    | apply preserves_tryCatch; [|intros ?]
    | apply preserves_if
    | apply preserves_host; [exact HI | intros ? H; exact H] ].
Qed.

Lemma isMessageAlreadyProcessed_reads (message : GmailMessage) (I : World -> Prop) :
  (forall w b fs, I w -> faults w = b :: fs -> I (setFaults fs w)) ->
  preserves I (isMessageAlreadyProcessed message).
Proof.
  intros HI. unfold isMessageAlreadyProcessed, isMessageAlreadyProcessed_try.
  apply preserves_tryCatch; [|intros ?; apply preserves_ret].
  apply preserves_bind; [apply preserves_call|intros i].
  apply preserves_bind; [apply isMessageProcessedInSheet_reads, HI|intros b].
  destruct b; apply preserves_ret.
Qed.


(* ================================================================== *)
(** * Further facts about strings *)

Lemma trimStart_In (c : CodeUnit) (s : JsString) : In c (trimStart s) -> In c s.
Proof.
  induction s as [|a s IH]; simpl; [tauto|].
  destruct (isWhiteSpace a); simpl; tauto.
Qed.

Lemma trimEnd_In (c : CodeUnit) (s : JsString) : In c (trimEnd s) -> In c s.
Proof.
  induction s as [|a s IH]; simpl; [tauto|].
  destruct (trimEnd s) as [|b k].
  - destruct (isWhiteSpace a); simpl; tauto.
  - simpl in *. tauto.
Qed.

Lemma trim_In (c : CodeUnit) (s : JsString) : In c (trim s) -> In c s.
Proof. intros H. now apply trimStart_In, trimEnd_In. Qed.

Lemma trimStart_nil (s : JsString) : trimStart s = [] <-> forallb isWhiteSpace s = true.
Proof.
  induction s as [|a s IH]; simpl; [tauto|].
  destruct (isWhiteSpace a); simpl; [exact IH|].
  split; discriminate.
Qed.

Lemma trimEnd_nil (s : JsString) : trimEnd s = [] <-> forallb isWhiteSpace s = true.
Proof.
  induction s as [|a s IH]; simpl; [tauto|].
  destruct (trimEnd s) as [|b k].
  - destruct (isWhiteSpace a); simpl; [|split; discriminate].
    split; [intros _; now apply IH | reflexivity].
  - split; [discriminate|].
    intros H. apply andb_true_iff in H. destruct H as [_ H].
    apply IH in H. discriminate.
Qed.

Lemma trimStart_white (s : JsString) :
  forallb isWhiteSpace (trimStart s) = forallb isWhiteSpace s.
Proof.
  induction s as [|a s IH]; simpl; [reflexivity|].
  destruct (isWhiteSpace a) eqn:E; simpl; [exact IH | now rewrite E].
Qed.

(** [trim] leaves nothing exactly when the string is all white space. *)
Lemma trim_nil (s : JsString) : trim s = [] <-> forallb isWhiteSpace s = true.
Proof. unfold trim. now rewrite trimEnd_nil, trimStart_white. Qed.

Lemma uintUnits_digits (d : Decimal.uint) :
  Forall (fun c => (48 <= c <= 57)%N) (uintUnits d).
Proof. induction d; simpl; constructor; auto; lia. Qed.

Lemma uintUnits_inj (d d' : Decimal.uint) : uintUnits d = uintUnits d' -> d = d'.
Proof.
  revert d'. induction d; destruct d'; simpl; intros H;
    try discriminate; try reflexivity;
    injection H as H; f_equal; auto.
Qed.

Lemma decimal_inj (n m : nat) : decimal n = decimal m -> n = m.
Proof.
  unfold decimal. intros H. apply uintUnits_inj in H.
  rewrite <- (DecimalNat.Unsigned.of_to n), <- (DecimalNat.Unsigned.of_to m).
  now rewrite H.
Qed.

Lemma candidate_inj (b e : JsString) (n m : nat) :
  candidate b e n = candidate b e m -> n = m.
Proof.
  unfold candidate. intros H. apply app_inv_head in H.
  injection H as H. apply app_inv_tail in H. now apply decimal_inj.
Qed.

(* ================================================================== *)
(** * Further facts about the archiver *)

Lemma existsb_jsEq (name : JsString) (l : list JsString) :
  existsb (jsEq name) l = true <-> In name l.
Proof.
  rewrite existsb_exists. split.
  - intros (x & Hx & E). apply jsEq_eq in E. now subst.
  - intros H. exists name. split; [exact H | apply jsEq_refl].
Qed.

Lemma existsb_jsEq_false (name : JsString) (l : list JsString) :
  existsb (jsEq name) l = false <-> ~ In name l.
Proof.
  rewrite <- existsb_jsEq. destruct (existsb (jsEq name) l); split; congruence.
Qed.

Lemma NoDup_map_injective {A B} (f : A -> B) (l : list A) :
  (forall x y, f x = f y -> x = y) -> NoDup l -> NoDup (map f l).
Proof.
  intros Hinj. induction 1 as [|x l Hx Hl IH]; simpl; constructor; [|exact IH].
  intros Hin. apply in_map_iff in Hin. destruct Hin as (y & E & Hy).
  apply Hinj in E. now subst.
Qed.

(** The 99 candidates are distinct, so a folder of fewer than 99 files
    leaves one of them free. *)
Lemma candidate_free (b e : JsString) (l : list JsString) :
  (length l < 99)%nat ->
  exists k, (1 <= k <= 99)%nat /\ existsb (jsEq (candidate b e k)) l = false.
Proof.
  intros Hl.
  destruct (forallb (fun k => existsb (jsEq (candidate b e k)) l) (seq 1 99)) eqn:E.
  - exfalso.
    assert (Hincl : incl (map (candidate b e) (seq 1 99)) l).
    { intros x Hx. apply in_map_iff in Hx. destruct Hx as (k & <- & Hk).
      apply existsb_jsEq. rewrite forallb_forall in E. auto. }
    assert (Hnd : NoDup (map (candidate b e) (seq 1 99))).
    { apply NoDup_map_injective; [|apply seq_NoDup].
      intros n m. apply candidate_inj. }
    apply NoDup_incl_length in Hincl; [|exact Hnd].
    rewrite length_map, length_seq in Hincl. lia.
  - assert (H : exists k, In k (seq 1 99) /\
                          existsb (jsEq (candidate b e k)) l = false).
    { clear Hl. induction (seq 1 99) as [|k ks IH]; simpl in E; [discriminate|].
      destruct (existsb (jsEq (candidate b e k)) l) eqn:Ek.
      - destruct (IH E) as (k' & Hk' & Ek'). exists k'. simpl. auto.
      - exists k. simpl. auto. }
    destruct H as (k & Hk & Ek). apply in_seq in Hk. exists k. split; [lia|exact Ek].
Qed.

(** On a reliable folder the probe loop returns the first free candidate,
    when there is one from [counter] on. *)
Lemma probeLoop_first_free (baseName extension : JsString) (w : World) :
  faults w = [] ->
  forall fuel counter k,
    (99 <= counter + fuel)%nat ->
    (counter <= k <= 99)%nat ->
    existsb (jsEq (candidate baseName extension k)) (files w) = false ->
    exists j,
      (counter <= j <= k)%nat /\
      probeLoop fuel baseName extension counter w =
      (Normal (candidate baseName extension j), w) /\
      existsb (jsEq (candidate baseName extension j)) (files w) = false.
Proof.
  intros Hf. induction fuel as [|fuel IH]; intros counter k Hfuel Hk Efree;
    simpl; unfold bind; rewrite hasFileNamed_reliable by assumption;
    destruct (existsb (jsEq (candidate baseName extension counter)) (files w)) eqn:E;
    simpl; unfold ret; try (exists counter; repeat split; [lia|lia|exact E]).
  - assert (counter = k) by lia. subst. congruence.
  - assert (counter <> k) by congruence.
    destruct (Nat.ltb_spec (S counter) 100) as [L|L]; [|lia].
    destruct (IH (S counter) k) as (j & Hj & Ej & Fj); [lia|lia|exact Efree|].
    exists j. repeat split; [lia|lia|exact Ej|exact Fj].
Qed.

(** [ensureUniqueFilename] on a reliable folder with a free name. *)
Lemma ensureUniqueFilename_free (fileName : JsString) (w : World) :
  faults w = [] ->
  existsb (jsEq fileName) (files w) = false \/
  (exists k, (1 <= k <= 99)%nat /\
             existsb (jsEq (candidate (fst (splitExtension fileName))
                              (snd (splitExtension fileName)) k)) (files w) = false) ->
  exists name,
    ensureUniqueFilename fileName w = (Normal name, w) /\
    ~ In name (files w) /\
    (name = fileName \/
     exists k, (1 <= k <= 99)%nat /\
               name = candidate (fst (splitExtension fileName))
                        (snd (splitExtension fileName)) k).
Proof.
  intros Hf H.
  unfold ensureUniqueFilename, ensureUniqueFilename_try, tryCatch, bind.
  rewrite hasFileNamed_reliable by assumption.
  remember 100%nat as fuel eqn:Efuel.
  destruct (existsb (jsEq fileName) (files w)) eqn:E; simpl.
  - destruct H as [H|Hk]; [discriminate|].
    destruct (splitExtension fileName) as [b e]. cbn [fst snd] in *. cbv beta iota.
    destruct Hk as (k & Hk & Ek).
    destruct (@probeLoop_first_free b e w Hf fuel 1 k) as (j & Hj & Ej & Fj);
      [lia|lia|exact Ek|].
    rewrite Ej. exists (candidate b e j). split; [reflexivity|].
    split; [now apply existsb_jsEq_false|].
    right. exists j. split; [lia|reflexivity].
  - unfold ret. exists fileName. split; [reflexivity|].
    split; [now apply existsb_jsEq_false | now left].
Qed.

Lemma ensureUniqueFilename_fresh_aux (fileName : JsString) (w : World) :
  faults w = [] ->
  (length (files w) < 99)%nat ->
  exists name,
    ensureUniqueFilename fileName w = (Normal name, w) /\ ~ In name (files w).
Proof.
  intros Hf Hl.
  destruct (@ensureUniqueFilename_free fileName w Hf) as (name & E & Hn & _).
  - right. now apply candidate_free.
  - eauto.
Qed.

(** [ensureUniqueFilename] gives a name that is not in the folder whenever
    the name asked for, or one of its 99 numbered candidates, is free; a
    folder of fewer than 99 files always leaves one free.  The name is the
    one asked for or a numbered candidate that keeps its extension. *)
Theorem ensureUniqueFilename_fresh (fileName : JsString) (w : World) :
  faults w = [] ->
  (length (files w) < 99)%nat \/
  existsb (jsEq fileName) (files w) = false \/
  (exists k, (1 <= k <= 99)%nat /\
             existsb (jsEq (candidate (fst (splitExtension fileName))
                              (snd (splitExtension fileName)) k)) (files w) = false) ->
  exists name,
    ensureUniqueFilename fileName w = (Normal name, w) /\
    ~ In name (files w) /\
    (name = fileName \/
     exists k, (1 <= k <= 99)%nat /\
               name = fst (splitExtension fileName) ++
                      underscore :: decimal k ++ snd (splitExtension fileName)).
Proof.
  intros Hf H. apply ensureUniqueFilename_free; [exact Hf|].
  destruct H as [H|[H|H]]; [right; now apply candidate_free|now left|now right].
Qed.

Lemma ensureUniqueFilename_fresh_witness :
  let w := setFiles [lit "a.txt"; lit "a_1.txt"] freshWorld in
  (faults w = [] /\ (length (files w) < 99)%nat) /\
  exists name,
    ensureUniqueFilename (lit "a.txt") w = (Normal name, w) /\ ~ In name (files w).
Proof.
  cbv zeta.
  assert (Hl : (length (files (setFiles [lit "a.txt"; lit "a_1.txt"] freshWorld)) < 99)%nat)
    by (simpl; lia).
  split; [split; [reflexivity|exact Hl]|].
  destruct (@ensureUniqueFilename_fresh (lit "a.txt")
              (setFiles [lit "a.txt"; lit "a_1.txt"] freshWorld) eq_refl (or_introl Hl))
    as (name & E & Hn & _).
  exists name. split; [exact E|exact Hn].
Defined.

(** [ensureUniqueFilename] never throws: when a lookup in the folder
    throws, the name asked for is returned with the time appended, and is
    not looked up. *)
Theorem ensureUniqueFilename_fallback (fileName : JsString) (w : World) :
  (exists name w', ensureUniqueFilename fileName w = (Normal name, w')) /\
  (forall e w',
      ensureUniqueFilename_try fileName w = (Throw e, w') ->
      ensureUniqueFilename fileName w =
      (Normal (fileName ++ underscore :: decimalZ (clock w')), w')) /\
  (forall fs,
      faults w = true :: fs ->
      ensureUniqueFilename fileName w =
      (Normal (fileName ++ underscore :: decimalZ (clock w)), setFaults fs w)).
Proof.
  split; [|split].
  - unfold ensureUniqueFilename, tryCatch, bind, now, ret.
    destruct (ensureUniqueFilename_try fileName w) as [[name|e] w']; eauto.
  - intros e w' H. unfold ensureUniqueFilename, tryCatch, bind, now, ret.
    now rewrite H.
  - intros fs Hf. destruct w as [sh f ck wh ob rp fl mb]. simpl in Hf. subst f.
    reflexivity.
Qed.

(** The characters that [generateSimpleFilename] replaces are no white
    space, and neither is the underscore that replaces them. *)
Lemma replaceInvalid_white (s : JsString) :
  forallb isWhiteSpace (replaceInvalid s) = forallb isWhiteSpace s.
Proof.
  induction s as [|c s IH]; simpl; [reflexivity|]. rewrite IH. f_equal.
  destruct (isInvalidNameChar c) eqn:E; [|reflexivity].
  unfold isInvalidNameChar in E. apply existsb_exists in E.
  destruct E as (x & Hx & E). apply N.eqb_eq in E. subst x.
  simpl in Hx. repeat (destruct Hx as [<-|Hx]; [reflexivity|]). contradiction.
Qed.

Lemma replaceInvalid_valid (s : JsString) :
  forallb (fun c => negb (isInvalidNameChar c)) (replaceInvalid s) = true.
Proof.
  induction s as [|c s IH]; simpl; [reflexivity|]. rewrite IH.
  destruct (isInvalidNameChar c) eqn:E; [reflexivity | now rewrite E].
Qed.

Lemma trim_forallb (P : CodeUnit -> bool) (s : JsString) :
  forallb P s = true -> forallb P (trim s) = true.
Proof.
  rewrite !forallb_forall. intros H c Hc. now apply H, trim_In.
Qed.

Lemma digits_valid (s : JsString) :
  Forall (fun c => (48 <= c <= 57)%N) s ->
  forallb (fun c => negb (isInvalidNameChar c)) s = true.
Proof.
  induction 1 as [|c s Hc Hs IH]; simpl; [reflexivity|]. rewrite IH.
  unfold isInvalidNameChar. simpl.
  repeat (rewrite (proj2 (N.eqb_neq c _)) by lia). reflexivity.
Qed.

Lemma pad2_digits (z : Z) : Forall (fun c => (48 <= c <= 57)%N) (pad2 z).
Proof.
  unfold pad2, decimalZ. destruct (z <? 10); [constructor; [lia|]|];
    apply uintUnits_digits.
Qed.

Lemma formatHHmmss_digits (t : Z) : Forall (fun c => (48 <= c <= 57)%N) (formatHHmmss t).
Proof. unfold formatHHmmss. repeat (apply Forall_app; split); apply pad2_digits. Qed.

(** Whatever the attachment is called, and at whatever position it comes,
    the name [generateSimpleFilename] gives is not empty and holds none of
    the characters that are illegal in a file name. *)
Theorem generateSimpleFilename_safe (t : Z) (index : nat) (originalName : JsString) :
  generateSimpleFilename t index originalName <> [] /\
  forallb (fun c => negb (isInvalidNameChar c))
    (generateSimpleFilename t index originalName) = true.
Proof.
  unfold generateSimpleFilename.
  destruct (trim originalName) as [|c0 s0] eqn:Et.
  - split; [discriminate|].
    change (lit "attachment_" ++ decimal (index + 1) ++ underscore :: formatHHmmss t)
      with (lit "attachment_" ++ decimal (index + 1) ++ [underscore] ++ formatHHmmss t).
    rewrite !forallb_app. unfold decimal.
    rewrite (digits_valid (uintUnits_digits _)), (digits_valid (formatHHmmss_digits t)).
    reflexivity.
  - assert (Hne : trim (replaceInvalid originalName) <> []).
    { intros H. apply trim_nil in H. rewrite replaceInvalid_white in H.
      apply trim_nil in H. congruence. }
    assert (Hv : forallb (fun c => negb (isInvalidNameChar c))
                   (trim (replaceInvalid originalName)) = true)
      by apply trim_forallb, replaceInvalid_valid.
    destruct (0 <? index)%nat; [|split; assumption].
    destruct (splitExtension_spec (trim (replaceInvalid originalName))) as [Hs _].
    destruct (splitExtension (trim (replaceInvalid originalName))) as [b e].
    cbn [fst snd] in Hs. unfold candidate. split.
    + destruct b; discriminate.
    + rewrite <- Hs, forallb_app in Hv. apply andb_true_iff in Hv. destruct Hv as [Hb He].
      change (b ++ underscore :: decimal (index + 1) ++ e)
        with (b ++ [underscore] ++ decimal (index + 1) ++ e).
      rewrite !forallb_app, Hb, He. unfold decimal.
      rewrite (digits_valid (uintUnits_digits _)). reflexivity.
Qed.

Lemma hasFileNamed_files (l : list JsString) (name : JsString) :
  preserves (fun x => files x = l) (hasFileNamed name).
Proof.
  apply preserves_host; [now intros [] ? ? ? ?|intros ? H; exact H].
Qed.

Lemma probeLoop_files (l : list JsString) (b e : JsString) (fuel : nat) :
  forall counter, preserves (fun x => files x = l) (probeLoop fuel b e counter).
Proof.
  induction fuel as [|fuel IH]; intros counter; simpl.
  - apply preserves_bind; [apply hasFileNamed_files|intros c].
    destruct (negb c); apply preserves_ret.
  - apply preserves_bind; [apply hasFileNamed_files|intros c].
    destruct (negb c); [apply preserves_ret|].
    destruct (S counter <? 100)%nat; [apply IH|apply preserves_ret].
Qed.

Lemma ensureUniqueFilename_files (fileName : JsString) (w : World) :
  files (snd (ensureUniqueFilename fileName w)) = files w.
Proof.
  assert (P : preserves (fun x => files x = files w) (ensureUniqueFilename fileName)).
  { unfold ensureUniqueFilename, ensureUniqueFilename_try.
    apply preserves_tryCatch.
    - apply preserves_bind; [apply hasFileNamed_files|intros c].
      destruct (negb c); [apply preserves_ret|].
      destruct (splitExtension fileName) as [b e]. apply probeLoop_files.
    - intros e. apply preserves_bind; [intros s H; exact H|intros ?; apply preserves_ret]. }
  now apply P.
Qed.

Lemma ensureUniqueFilename_total (fileName : JsString) (w : World) :
  exists name w', ensureUniqueFilename fileName w = (Normal name, w').
Proof.
  unfold ensureUniqueFilename, tryCatch, bind, now, ret.
  destruct (ensureUniqueFilename_try fileName w) as [[name|e] w']; eauto.
Qed.

(** Saving one attachment either creates exactly one file, whose name the
    info reports, or throws and creates none. *)
Lemma saveAttachmentToDrive_outcome (a : Attachment) (index : nat) (w : World) :
  match saveAttachmentToDrive a index w with
  | (Normal info, w') =>
      exists name,
        info = mkInfo (getName a) (Some name) (getSize a) None /\
        files w' = files w ++ [name]
  | (Throw _, w') => files w' = files w
  end.
Proof.
  unfold saveAttachmentToDrive, bind, now.
  pose proof (ensureUniqueFilename_files
                (generateSimpleFilename (clock w) index (getName a)) w) as Hfl.
  destruct (ensureUniqueFilename_total
              (generateSimpleFilename (clock w) index (getName a)) w) as (name & w1 & E).
  rewrite E in *. cbn [snd] in Hfl.
  unfold createFile, host, ret.
  destruct w1 as [sh fs ck wh ob rp fl mb]. simpl in *. subst fl.
  destruct fs as [|[] fs]; simpl; eauto.
Qed.

(** The loop over the attachments never throws and makes one info for each
    attachment, in order. *)
Lemma processAttachments_forEach_total
      (attachments : list Attachment) (index : nat) (attachmentInfo : list AttachmentInfo)
      (w : World) :
  exists infos w',
    processAttachments_forEach attachments index attachmentInfo w =
    (Normal (attachmentInfo ++ infos), w') /\
    map originalName infos = map getName attachments /\
    map size infos = map getSize attachments /\
    Forall (fun info => savedName info = None <-> errorInfo info <> None) infos /\
    files w' = files w ++ savedFiles infos.
Proof.
  revert index attachmentInfo w.
  induction attachments as [|a rest IH]; intros index acc w; simpl.
  - exists [], w. unfold ret. rewrite !app_nil_r. repeat split. constructor.
  - unfold bind, tryCatch.
    pose proof (saveAttachmentToDrive_outcome a index w) as Ho.
    destruct (saveAttachmentToDrive a index w) as [[info|e] w1].
    + destruct Ho as (name & -> & Hfl).
      destruct (IH (S index) (acc ++ [mkInfo (getName a) (Some name) (getSize a) None]) w1)
        as (infos & w' & E & Hn & Hs & Hf & Hfiles).
      exists (mkInfo (getName a) (Some name) (getSize a) None :: infos), w'.
      rewrite E, <- app_assoc. simpl. rewrite Hn, Hs, Hfiles, Hfl, <- app_assoc.
      repeat split. constructor; [|exact Hf].
      simpl. split; [discriminate | intros H; now elim H].
    + unfold ret.
      destruct (IH (S index) (acc ++ [mkInfo (getName a) None (getSize a) (Some e)]) w1)
        as (infos & w' & E & Hn & Hs & Hf & Hfiles).
      exists (mkInfo (getName a) None (getSize a) (Some e) :: infos), w'.
      rewrite E, <- app_assoc. simpl. rewrite Hn, Hs, Hfiles, Ho.
      repeat split. constructor; [|exact Hf].
      simpl. split; [discriminate | reflexivity].
Qed.


Lemma NoDup_snoc {A} (l : list A) (x : A) : NoDup l -> ~ In x l -> NoDup (l ++ [x]).
Proof.
  induction 1 as [|a l Ha Hl IH]; simpl; intros Hx.
  - constructor; [tauto|constructor].
  - constructor.
    + rewrite in_app_iff. simpl. intuition congruence.
    + apply IH. tauto.
Qed.

Lemma processAttachments_saved (attachments : list Attachment) :
  forall (index : nat) (attachmentInfo : list AttachmentInfo) (w : World),
    faults w = [] ->
    NoDup (files w) ->
    (length (files w) + length attachments <= 99)%nat ->
    exists names w',
      processAttachments_forEach attachments index attachmentInfo w =
      (Normal (attachmentInfo ++
               map (fun p => mkInfo (getName (fst p)) (Some (snd p)) (getSize (fst p)) None)
                 (combine attachments names)), w') /\
      length names = length attachments /\
      files w' = files w ++ names /\
      NoDup (files w') /\
      faults w' = [].
Proof.
  induction attachments as [|a rest IH]; intros index acc w Hf Hnd Hl; simpl.
  - exists [], w. unfold ret. rewrite !app_nil_r. auto.
  - unfold bind, tryCatch.
    destruct (@saveAttachmentToDrive_reliable a index w Hf) as (name & E & Hname).
    rewrite E.
    assert (Hfresh : ~ In name (files w)).
    { destruct (@ensureUniqueFilename_fresh_aux
                  (generateSimpleFilename (clock w) index (getName a)) w Hf)
        as (name' & E' & Hn'); [simpl in Hl; lia|].
      rewrite Hname in E'. now injection E' as ->. }
    destruct (IH (S index) (acc ++ [mkInfo (getName a) (Some name) (getSize a) None])
                (setFiles (files w ++ [name]) w)) as (names & w' & E' & Hlen & Hfl & Hnd' & Hf').
    + now destruct w.
    + destruct w; simpl in *. now apply NoDup_snoc.
    + destruct w; simpl in *. rewrite length_app. simpl. lia.
    + exists (name :: names), w'. rewrite E'.
      assert (Hfl2 : files w' = files w ++ name :: names).
      { rewrite Hfl. destruct w; simpl. now rewrite <- app_assoc. }
      split; [now rewrite <- app_assoc|].
      split; [simpl; now rewrite Hlen|].
      split; [exact Hfl2|]. split; assumption.
Qed.

(** On a reliable folder without two files of one name, archiving a list
    of attachments that leaves the folder at 99 files or fewer saves every
    attachment under a name of its own: the folder gains one file per
    attachment and still has no two files of one name. *)
Theorem processAttachments_distinct_names (attachments : list Attachment) (w : World) :
  faults w = [] ->
  NoDup (files w) ->
  (length (files w) + length attachments <= 99)%nat ->
  exists names w',
    processAttachments_forEach attachments 0 [] w =
    (Normal (map (fun p => mkInfo (getName (fst p)) (Some (snd p)) (getSize (fst p)) None)
               (combine attachments names)), w') /\
    length names = length attachments /\
    files w' = files w ++ names /\
    NoDup (files w').
Proof.
  intros Hf Hnd Hl.
  destruct (@processAttachments_saved attachments 0 [] w Hf Hnd Hl)
    as (names & w' & E & Hlen & Hfl & Hnd' & _).
  exists names, w'. auto.
Qed.

Lemma processAttachments_distinct_names_witness :
  let attachments := [mkAttachment (lit "a.pdf") 1; mkAttachment (lit "a.pdf") 2;
                      mkAttachment (lit "a.pdf") 3] in
  (faults freshWorld = [] /\ NoDup (files freshWorld) /\
   (length (files freshWorld) + length attachments <= 99)%nat) /\
  exists names w',
    fst (processAttachments_forEach attachments 0 [] freshWorld) =
    Normal (map (fun p => mkInfo (getName (fst p)) (Some (snd p)) (getSize (fst p)) None)
              (combine attachments names)) /\
    files w' = names /\ NoDup names.
Proof.
  cbv zeta.
  assert (Hnd : NoDup (files freshWorld)) by constructor.
  assert (Hl : (length (files freshWorld) +
                length [mkAttachment (lit "a.pdf") 1; mkAttachment (lit "a.pdf") 2;
                        mkAttachment (lit "a.pdf") 3] <= 99)%nat) by (simpl; lia).
  split; [split; [reflexivity|split; assumption]|].
  destruct (@processAttachments_distinct_names
              [mkAttachment (lit "a.pdf") 1; mkAttachment (lit "a.pdf") 2;
               mkAttachment (lit "a.pdf") 3] freshWorld eq_refl Hnd Hl)
    as (names & w' & E & _ & Hfl & Hnd').
  exists names, w'. rewrite E. simpl in Hfl. rewrite Hfl in Hnd'. auto.
Defined.

(* ================================================================== *)
(** * Further facts about the classifier *)

Section ClassifierModes.

Variable Pattern : Type.
Variable toString : Pattern -> JsString.
Variable test : Pattern -> JsString -> Completion bool.
Variable MatchArray : Type.
Variable jsMatch : JsString -> Pattern -> MatchArray.

Local Abbreviation evaluate := (evaluatePattern toString test jsMatch).
Local Abbreviation classify := (checkMultiplePatterns toString test jsMatch).
Local Abbreviation classifySubject := (checkSubjectPattern toString test jsMatch).
Local Abbreviation matchesP := (matches test).

Lemma filter_evaluate (S : JsString) (ps : list Pattern) :
  length (filter (@isMatchP MatchArray) (map (evaluate S) ps)) =
  length (filter (matchesP S) ps).
Proof.
  induction ps as [|p ps IH]; simpl; [reflexivity|].
  rewrite evaluatePattern_isMatch. destruct (matchesP S p); simpl; now rewrite IH.
Qed.

(** Only the exact string 'any' selects the any-mode.  Under every other
    configured mode ('all', but also a misspelt 'ANY') the subject matches
    only when every pattern does; every pattern is checked, and the summary
    counts the patterns that matched.  A missing or empty mode is 'any'. *)
Theorem checkMultiplePatterns_other_modes (cfg : SubjectPatterns Pattern) (S : JsString) :
  (MATCH_MODE cfg = None \/ MATCH_MODE cfg = Some [] -> matchModeOf cfg = lit "any") /\
  (matchModeOf cfg <> lit "any" ->
   let r := classify cfg S in
   (isMatch r = true <->
    forall p, In p (patternsOf cfg) -> test p S = Normal true) /\
   checkedPatterns r = map toString (patternsOf cfg) /\
   matchMode r = Some (matchModeOf cfg) /\
   summary r =
   Some (mkSummary (length (patternsOf cfg))
           (length (filter (matchesP S) (patternsOf cfg))) (isMatch r))).
Proof.
  split.
  - unfold matchModeOf. intros [-> | ->]; reflexivity.
  - intros Hmode. cbv zeta.
    assert (Hm : jsEq (matchModeOf cfg) (lit "any") = false) by now apply jsEq_neq.
    unfold checkMultiplePatterns.
    rewrite (patternLoop_all toString test jsMatch _ S (patternsOf cfg) [] [] Hm).
    rewrite Hm. simpl.
    rewrite forallb_evaluate, filter_evaluate.
    repeat split; try reflexivity.
    + intros H p Hp. rewrite forallb_forall in H. now apply matches_true, H.
    + intros H. apply forallb_forall. intros p Hp. now apply matches_true, H.
Qed.

(** The single legacy pattern decides exactly when the multi-pattern
    classifier is absent or disabled: the subject matches when the test of
    the legacy pattern returns true; a test that throws is a non-match that
    carries the error message and lists no checked pattern.  When the
    multi-pattern classifier is enabled, the legacy pattern plays no part. *)
Theorem checkSubjectPattern_legacy (cfg : PatternConfig Pattern) (S : JsString) :
  ((SUBJECT_PATTERNS cfg = None \/
    exists sp, SUBJECT_PATTERNS cfg = Some sp /\ ENABLE_MULTIPLE_PATTERNS sp = false) ->
   let r := classifySubject cfg S in
   (isMatch r = true <-> test (SUBJECT_PATTERN cfg) S = Normal true) /\
   (isMatch r = true ->
    matchedPattern r = Defined (toString (SUBJECT_PATTERN cfg))) /\
   (forall b, test (SUBJECT_PATTERN cfg) S = Normal b ->
              checkedPatterns r = [toString (SUBJECT_PATTERN cfg)] /\ error r = None) /\
   (forall message, test (SUBJECT_PATTERN cfg) S = Throw message ->
                    isMatch r = false /\ error r = Some message /\
                    checkedPatterns r = [])) /\
  (forall sp legacy,
      SUBJECT_PATTERNS cfg = Some sp -> ENABLE_MULTIPLE_PATTERNS sp = true ->
      classifySubject cfg S =
      classifySubject (mkPatternConfig (Some sp) legacy) S).
Proof.
  split.
  - intros H. cbv zeta.
    assert (E : classifySubject cfg S = legacyPattern toString test jsMatch cfg S).
    { unfold checkSubjectPattern. destruct H as [-> | (sp & -> & ->)]; reflexivity. }
    rewrite E. unfold legacyPattern.
    destruct (test (SUBJECT_PATTERN cfg) S) as [[|]|msg]; simpl;
      repeat split; try congruence; try discriminate;
      intros; try discriminate; try (injection H0 as <-); auto.
  - intros sp legacy Hsp Hen. unfold checkSubjectPattern. rewrite Hsp. simpl.
    now rewrite Hen.
Qed.

End ClassifierModes.

(* ================================================================== *)
(** * Further facts about the dispatcher *)

(** A post guarded by the lookup of the webhook URL, inside a [try] whose
    [catch] only logs, is not reached when the property is missing. *)
Lemma unposted (post : Script unit) (w : World) :
  webhook w = None \/ webhook w = Some [] ->
  exists w',
    tryCatch (getProperty_SLACK_WEBHOOK_URL ;;; post) (fun _ => ret tt) w =
    (Normal tt, w') /\
    outbox w' = outbox w /\ sheet w' = sheet w /\ files w' = files w /\
    webhook w' = webhook w /\ replies w' = replies w /\
    (faults w = [] -> w' = w).
Proof.
  intros Hw. destruct w as [sh fs ck wh ob rp fl mb]. simpl in Hw.
  unfold tryCatch, bind, getProperty_SLACK_WEBHOOK_URL, tryCatch, bind, host, throw, ret.
  simpl.
  destruct fs as [|[] fs]; destruct Hw as [-> | ->]; simpl;
    eexists; (split; [reflexivity|]); simpl; repeat split; auto; discriminate.
Qed.

(** Without a webhook URL in the script properties nothing is sent: none
    of the senders posts, and none throws, whatever the host does. *)
Theorem senders_need_webhook
        (subject fullBody errorMessage : JsString) (emailDate : option Z)
        (processed errors : nat) (executionTime : Z) (w : World) :
  webhook w = None \/ webhook w = Some [] ->
  (exists w', sendLongEmailBody subject fullBody emailDate w = (Normal tt, w') /\
              outbox w' = outbox w) /\
  (exists w', sendErrorSummary processed errors executionTime w = (Normal tt, w') /\
              outbox w' = outbox w) /\
  (exists w', sendErrorNotification errorMessage w = (Normal tt, w') /\
              outbox w' = outbox w).
Proof.
  intros Hw. split; [|split].
  - destruct (@unposted
                (sendParts (length fullBody) subject emailDate fullBody 1 0 ;;; ret tt)
                w Hw) as (w' & E & Ho & _).
    exists w'. split; [exact E|exact Ho].
  - destruct (@unposted
                (fetch (ErrorSummary processed errors executionTime) ;;; ret tt)
                w Hw) as (w' & E & Ho & _).
    exists w'. split; [exact E|exact Ho].
  - destruct (@unposted (fetch (ErrorNotification errorMessage) ;;; ret tt)
                w Hw) as (w' & E & Ho & _).
    exists w'. split; [exact E|exact Ho].
Qed.

Lemma senders_need_webhook_witness :
  let w := mkWorld (Some [HEADERS]) [false; true] 0 None [] [500] [] [] in
  (webhook w = None \/ webhook w = Some []) /\
  exists w', sendErrorNotification (lit "boom") w = (Normal tt, w') /\ outbox w' = outbox w.
Proof.
  cbv zeta. split; [now left|].
  exact (proj2 (proj2 (@senders_need_webhook [] [] (lit "boom") None 0 0 0
                         (mkWorld (Some [HEADERS]) [false; true] 0 None [] [500] [] [])
                         (or_introl eq_refl)))).
Defined.

Lemma firstn_min_length {A} (n : nat) (l : list A) :
  firstn (Nat.min n (length l)) l = firstn n l.
Proof.
  destruct (Nat.le_ge_cases n (length l)) as [H|H].
  - now rewrite Nat.min_l.
  - rewrite Nat.min_r by assumption. now rewrite firstn_all, firstn_all2.
Qed.

(** The posts of the loop of [sendLongEmailBody] when every request is
    answered 200: part [k] (from 0) carries the number [partNumber + k], the
    [chunkSize] code units from position [k * chunkSize] on, and is the one
    marked as last exactly when it is the last; there are as many parts as
    the body needs, no more. *)
Lemma sendParts_layout (subject : JsString) (emailDate : option Z) (fuel : nat) :
  forall (remainingBody : JsString) (partNumber totalSent : nat) (w : World),
    faults w = [] ->
    Forall (fun code => code = 200) (replies w) ->
    (length remainingBody <= fuel)%nat ->
    exists parts w',
      sendParts fuel subject emailDate remainingBody partNumber totalSent w =
      (Normal ((partNumber + length parts)%nat, (totalSent + length remainingBody)%nat), w') /\
      outbox w' = outbox w ++ parts /\
      (length remainingBody <= length parts * chunkSize)%nat /\
      (length parts * chunkSize < length remainingBody + chunkSize)%nat /\
      forall k post,
        nth_error parts k = Some post ->
        post = bodyPartPost subject emailDate (partNumber + k)
                 (Nat.eqb (S k) (length parts))
                 (firstn chunkSize (skipn (k * chunkSize) remainingBody)).
Proof.
  pose proof chunkSize_pos as Hpos.
  induction fuel as [|fuel IH]; intros remainingBody partNumber totalSent w Hf Hr Hfuel.
  - destruct remainingBody; [|simpl in Hfuel; lia].
    exists [], w. simpl. unfold ret. rewrite app_nil_r, !Nat.add_0_r.
    repeat split; auto; try lia. intros [|k] post; discriminate.
  - destruct remainingBody as [|c body'].
    { exists [], w. rewrite sendParts_done. unfold ret.
      simpl. rewrite app_nil_r, !Nat.add_0_r.
      repeat split; auto; try lia. intros [|k] post; discriminate. }
    rewrite sendParts_turn. cbv zeta.
    destruct (@chunk_cut (c :: body') ltac:(discriminate)) as (Hcat & Hsize & Hshort).
    cbv zeta in Hcat, Hsize, Hshort.
    assert (Hchunk : substringTo (c :: body') (Nat.min chunkSize (length (c :: body')))
                     = firstn chunkSize (c :: body'))
      by apply firstn_min_length.
    rewrite Hchunk in *.
    set (chunk := firstn chunkSize (c :: body')) in *.
    set (remaining' := substringFrom (c :: body') (length chunk)) in *.
    set (post := bodyPartPost subject emailDate partNumber
                   (Nat.eqb (length remaining') 0) chunk).
    unfold bind, sleep. rewrite host_reliable by assumption. cbn [fst snd].
    unfold fetch. rewrite host_reliable by assumption.
    assert (Hcode : exists rest,
               (match replies w with
                | code :: rest => (code, setReplies rest (setOutbox (outbox w ++ [post]) w))
                | [] => (200, setOutbox (outbox w ++ [post]) w)
                end) = (200, setReplies rest (setOutbox (outbox w ++ [post]) w)) /\
               Forall (fun code => code = 200) rest).
    { destruct (replies w) as [|code rest] eqn:R.
      - exists []. split; [|constructor]. f_equal.
        destruct w; simpl in *. now subst.
      - inversion Hr; subst. now exists rest. }
    destruct Hcode as (rest & -> & Hrest). cbn [fst snd].
    change (negb (200 =? 200)) with false. cbv iota.
    destruct (IH remaining' (S partNumber) (totalSent + length chunk)%nat
                (setReplies rest (setOutbox (outbox w ++ [post]) w)))
      as (parts & w' & E & Hout & Hlo & Hhi & Hnth);
      [exact Hf | exact Hrest | simpl in Hfuel, Hshort; lia |].
    assert (Hl : length (chunk ++ remaining') = length (c :: body'))
      by now rewrite Hcat.
    rewrite length_app in Hl.
    assert (Hck : length chunk = Nat.min chunkSize (length (c :: body')))
      by (unfold chunk; apply length_firstn).
    assert (H1 : (S partNumber + length parts = partNumber + length (post :: parts))%nat)
      by (simpl; lia).
    assert (H2 : (totalSent + length chunk + length remaining'
                  = totalSent + length (c :: body'))%nat) by lia.
    exists (post :: parts), w'. rewrite E, H1, H2.
    split; [reflexivity|].
    split; [rewrite Hout; simpl; now rewrite <- app_assoc|].
    assert (Hcases : (length remaining' = 0 /\ length parts = 0)%nat \/
                     (0 < length remaining' /\ 0 < length parts /\ length chunk = chunkSize)%nat).
    { destruct (length remaining') eqn:Er.
      - left. split; [reflexivity|]. destruct parts; [reflexivity|simpl in Hhi; nia].
      - right. destruct parts; [simpl in Hlo; lia|]. simpl. lia. }
    change (length (post :: parts)) with (S (length parts)).
    rewrite Nat.mul_succ_l.
    split; [destruct Hcases as [[H0 H0']|(? & ? & ?)]; [rewrite H0' in *; lia | lia]|].
    split; [destruct Hcases as [[H0 H0']|(? & ? & ?)]; [rewrite H0' in *; lia | lia]|].
    intros [|k] p Hp.
    + simpl in Hp. injection Hp as <-. rewrite Nat.add_0_r. simpl skipn.
      unfold post. f_equal.
      destruct Hcases as [[-> ->]|(Hr' & Hp' & _)]; [reflexivity|].
      destruct (length remaining'); [lia|]. destruct parts; [simpl in Hp'; lia|reflexivity].
    + simpl in Hp. pose proof (Hnth k p Hp) as Hk.
      assert (Hlt : (k < length parts)%nat) by (apply nth_error_Some; congruence).
      destruct Hcases as [[_ H0]|(_ & _ & Hfull)]; [lia|].
      rewrite Hk. replace (S partNumber + k)%nat with (partNumber + S k)%nat by lia.
      f_equal. f_equal. unfold remaining', substringFrom.
      rewrite skipn_skipn, Hfull. f_equal. simpl. lia.
Qed.

(** The follow-up messages for a long body, when the webhook is configured,
    the host does not fail and Slack answers 200 to each: the body goes out
    in as few parts of at most 3500 code units as it takes, in order; part
    [k] (from 0) holds the code units from [3500 * k] on and is numbered
    [k + 1]; the last part, and only the last, is marked as final. *)
Theorem sendLongEmailBody_parts
        (subject fullBody : JsString) (emailDate : option Z) (w : World)
        (c : CodeUnit) (s : JsString) :
  faults w = [] ->
  webhook w = Some (c :: s) ->
  Forall (fun code => code = 200) (replies w) ->
  exists parts w',
    sendLongEmailBody subject fullBody emailDate w = (Normal tt, w') /\
    outbox w' = outbox w ++ parts /\
    length parts = ((length fullBody + 3499) / 3500)%nat /\
    forall k post,
      nth_error parts k = Some post ->
      post = bodyPartPost subject emailDate (k + 1) (Nat.eqb (k + 1) (length parts))
               (firstn 3500 (skipn (k * 3500) fullBody)).
Proof.
  intros Hf Hw Hr.
  destruct (@sendParts_layout subject emailDate (length fullBody) fullBody 1 0 w
              Hf Hr (le_n _)) as (parts & w' & E & Hout & Hlo & Hhi & Hnth).
  exists parts, w'. unfold sendLongEmailBody, tryCatch, bind, ret.
  rewrite (getProperty_reliable _ Hf Hw), E.
  split; [reflexivity|]. split; [exact Hout|].
  change chunkSize with 3500%nat in Hlo, Hhi.
  split.
  - apply Nat.div_unique with (r := (length fullBody + 3499 - 3500 * length parts)%nat);
      lia.
  - intros k post Hk. rewrite (Hnth k post Hk).
    replace (1 + k)%nat with (k + 1)%nat by lia.
    replace (S k) with (k + 1)%nat by lia. reflexivity.
Qed.

Lemma sendLongEmailBody_parts_witness :
  (faults freshWorld = [] /\
   webhook freshWorld = Some (lit "https://hooks.slack.com/services/T/B/x") /\
   Forall (fun code => code = 200) (replies freshWorld)) /\
  exists parts w',
    sendLongEmailBody (lit "subject") longBody None freshWorld = (Normal tt, w') /\
    outbox w' = outbox freshWorld ++ parts /\
    length parts = 2%nat.
Proof.
  assert (Hr : Forall (fun code => code = 200) (replies freshWorld)) by constructor.
  split; [split; [reflexivity|split; [reflexivity|exact Hr]]|].
  destruct (@sendLongEmailBody_parts (lit "subject") longBody None freshWorld
              104%N (lit "ttps://hooks.slack.com/services/T/B/x") eq_refl eq_refl Hr)
    as (parts & w' & E & Ho & Hl & _).
  exists parts, w'. split; [exact E|]. split; [exact Ho|].
  rewrite Hl. reflexivity.
Defined.

(* ================================================================== *)
(** * Further facts about the coordinator *)

(** A run on a host that does not fail, with a webhook property that is
    missing or is no Slack webhook URL: the run throws before it searches
    the mailbox.  With the property missing or empty the error notification
    cannot be sent either, and the host is left as it was; with a URL of
    another form the critical error is posted to that URL, once. *)
Theorem processEmails_misconfigured (processMessage : GmailMessage -> bool) (w : World) :
  faults w = [] ->
  (webhook w = None \/ webhook w = Some [] ->
   exists e, processEmails processMessage w = (Throw e, w)) /\
  (forall c s,
      webhook w = Some (c :: s) ->
      startsWith (c :: s) (lit "https://hooks.slack.com/") = false ->
      processEmails processMessage w =
      (Throw (lit "Invalid Slack webhook URL in script properties"),
       setReplies (tl (replies w))
         (setOutbox
            (outbox w ++
             [ErrorNotification
                (lit "Critical error in Gmail forwarder: " ++
                 lit "Invalid Slack webhook URL in script properties")]) w))).
Proof.
  intros Hf. destruct w as [sh fs ck wh ob rp fl mb]. simpl in Hf. subst fs. split.
  - simpl. intros [-> | ->]; eexists; reflexivity.
  - cbn [webhook]. intros c s -> Hurl.
    unfold processEmails, processEmails_try, validateConfiguration, bind, now, tryCatch,
      getProperty_SLACK_WEBHOOK_URL, tryCatch, bind, host, ret, throw.
    cbn [faults webhook]. cbv beta iota. rewrite Hurl. cbn [negb]. cbv beta iota.
    unfold sendErrorNotification, tryCatch, bind, getProperty_SLACK_WEBHOOK_URL, tryCatch,
      bind, host, fetch, host, ret, throw.
    cbn [faults webhook replies]. cbv beta iota.
    destruct rp as [|code rp]; reflexivity.
Qed.

Lemma processEmails_misconfigured_witness :
  let w := mkWorld (Some [HEADERS]) [] 0 (Some (lit "http://example.com/hook")) [] [] [] [] in
  faults w = [] /\
  exists w',
    processEmails (fun _ => true) w =
    (Throw (lit "Invalid Slack webhook URL in script properties"), w') /\
    length (outbox w') = 1%nat.
Proof.
  cbv zeta. split; [reflexivity|].
  eexists. split.
  - exact (proj2 (@processEmails_misconfigured (fun _ => true)
                    (mkWorld (Some [HEADERS]) [] 0 (Some (lit "http://example.com/hook"))
                       [] [] [] []) eq_refl)
             104%N (lit "ttp://example.com/hook") eq_refl eq_refl).
  - reflexivity.
Defined.



(** What the run does not touch.  A message in the trash is counted as
    checked and nothing else happens.  A message that [processMessage]
    rejects is neither counted as processed nor recorded, whatever the host
    does, so the next run looks at it again.  And on a host that does not
    fail, a message whose identifier is in the sheet is skipped without
    consulting [processMessage]. *)
Theorem processEmails_skips
        (processMessage : GmailMessage -> bool) (m : GmailMessage) (r : Run) :
  let skipped :=
    mkRun (world r) (processedCount r) (errorCount r) (S (checkedCount r))
      (threadHasNewMessages r) in
  (isInTrash m = Normal true ->
   forEachMessage processMessage m r = (Normal tt, skipped)) /\
  (processMessage m = false ->
   let r' := snd (forEachMessage processMessage m r) in
   sheet (world r') = sheet (world r) /\
   outbox (world r') = outbox (world r) /\
   processedCount r' = processedCount r /\
   threadHasNewMessages r' = threadHasNewMessages r) /\
  (forall h data messageId,
      faults (world r) = [] ->
      sheet (world r) = Some (h :: data) ->
      isInTrash m = Normal false ->
      getId m = Normal messageId ->
      includes (map firstCell data) messageId = true ->
      forEachMessage processMessage m r = (Normal tt, skipped)).
Proof.
  cbv zeta. split; [|split].
  - intros Ht. unfold forEachMessage, forEachMessage_try, tryCatch, bind, incrChecked, call.
    simpl. now rewrite Ht.
  - intros Hpm.
    pose proof (@isMessageAlreadyProcessed_reads m (fun x => sheet x = sheet (world r))
                  ltac:(now intros [] ? ? ? ?) (world r) eq_refl) as Hs.
    pose proof (@isMessageAlreadyProcessed_reads m (fun x => outbox x = outbox (world r))
                  ltac:(now intros [] ? ? ? ?) (world r) eq_refl) as Ho.
    unfold forEachMessage, forEachMessage_try, tryCatch, bind, incrChecked, incrError,
      call, inWorld, ret.
    simpl. rewrite Hpm.
    destruct (isInTrash m) as [[|]|e]; simpl; auto.
    destruct (isMessageAlreadyProcessed m (world r)) as [[[|]|e] w1]; simpl in *; auto.
    destruct (getSubject m); simpl; auto.
  - intros h data messageId Hf Hsh Ht Hid Hin.
    unfold forEachMessage, forEachMessage_try, tryCatch, bind, incrChecked, call, inWorld.
    simpl. rewrite Ht. simpl.
    rewrite (isMessageAlreadyProcessed_reliable _ _ Hf Hsh Hid), Hin. reflexivity.
Qed.

(* ================================================================== *)
(** * Folder names *)

Lemma trimStart_suffix (s : JsString) : exists a, s = a ++ trimStart s.
Proof.
  induction s as [|c s [a IH]]; simpl; [now exists []|].
  destruct (isWhiteSpace c); [|now exists []].
  exists (c :: a). simpl. now rewrite <- IH.
Qed.

Lemma trimEnd_prefix (s : JsString) : exists b, s = trimEnd s ++ b.
Proof.
  induction s as [|c s [b IH]]; simpl; [now exists []|].
  destruct (trimEnd s) as [|d k] eqn:E.
  - destruct (isWhiteSpace c); [now exists (c :: s)|].
    exists b. simpl in *. now f_equal.
  - exists b. simpl in *. now f_equal.
Qed.

Lemma trimStart_head (s : JsString) :
  match trimStart s with c :: _ => isWhiteSpace c = false | [] => True end.
Proof.
  induction s as [|c s IH]; simpl; [exact I|].
  destruct (isWhiteSpace c) eqn:E; [exact IH | exact E].
Qed.

Lemma trimEnd_head (s : JsString) :
  match trimEnd s with c :: _ => hd_error s = Some c | [] => True end.
Proof.
  destruct s as [|c s]; simpl; [exact I|].
  destruct (trimEnd s); [destruct (isWhiteSpace c)|]; simpl; auto.
Qed.

Lemma trim_head (s : JsString) :
  match trim s with c :: _ => isWhiteSpace c = false | [] => True end.
Proof.
  unfold trim. pose proof (trimStart_head s) as H1.
  pose proof (trimEnd_head (trimStart s)) as H2.
  destruct (trimEnd (trimStart s)) as [|c k]; [exact I|].
  destruct (trimStart s) as [|d t]; simpl in H2; [discriminate|].
  now injection H2 as ->.
Qed.

Lemma firstn_In {A} (n : nat) (l : list A) (x : A) : In x (firstn n l) -> In x l.
Proof.
  intros H. rewrite <- (firstn_skipn n l). apply in_or_app. now left.
Qed.

Lemma spaced_suffix (a b : JsString) : spaced (a ++ b) = true -> spaced b = true.
Proof.
  induction a as [|c a IH]; simpl; [auto|].
  destruct (a ++ b) as [|d k] eqn:E.
  - destruct a; [simpl in E; now subst | discriminate].
  - intros H. apply andb_true_iff in H. now apply IH.
Qed.

Lemma spaced_prefix (a b : JsString) : spaced (a ++ b) = true -> spaced a = true.
Proof.
  induction a as [|c a IH]; [reflexivity|].
  destruct a as [|d a]; [reflexivity|].
  change (spaced ((c :: d :: a) ++ b)) with
    (negb (isWhiteSpace c && isWhiteSpace d) && spaced ((d :: a) ++ b)).
  change (spaced (c :: d :: a)) with
    (negb (isWhiteSpace c && isWhiteSpace d) && spaced (d :: a)).
  intros H. apply andb_true_iff in H. destruct H as [H1 H2].
  now rewrite H1, IH.
Qed.

Lemma spaced_trim (s : JsString) : spaced s = true -> spaced (trim s) = true.
Proof.
  intros H. unfold trim.
  destruct (trimStart_suffix s) as [a Ea].
  destruct (trimEnd_prefix (trimStart s)) as [b Eb].
  rewrite Ea in H. apply spaced_suffix in H.
  rewrite Eb in H. now apply spaced_prefix in H.
Qed.

Lemma spaced_firstn (n : nat) (s : JsString) : spaced s = true -> spaced (firstn n s) = true.
Proof. intros H. rewrite <- (firstn_skipn n s) in H. now apply spaced_prefix in H. Qed.

Lemma collapseWhite_head (s : JsString) :
  match collapseWhite true s with c :: _ => isWhiteSpace c = false | [] => True end.
Proof.
  induction s as [|c s IH]; simpl; [exact I|].
  destruct (isWhiteSpace c) eqn:E; [exact IH | exact E].
Qed.

Lemma collapseWhite_spaced (s : JsString) :
  forall inRun, spaced (collapseWhite inRun s) = true.
Proof.
  induction s as [|c s IH]; intros inRun; [reflexivity|].
  simpl collapseWhite. destruct (isWhiteSpace c) eqn:E.
  - destruct inRun; [apply IH|].
    pose proof (collapseWhite_head s) as Hh. pose proof (IH true) as Hs.
    destruct (collapseWhite true s) as [|d k]; [reflexivity|].
    change (spaced (space :: d :: k)) with
      (negb (isWhiteSpace space && isWhiteSpace d) && spaced (d :: k)).
    rewrite Hh, andb_false_r. exact Hs.
  - pose proof (IH false) as Hs.
    destruct (collapseWhite false s) as [|d k]; [reflexivity|].
    change (spaced (c :: d :: k)) with
      (negb (isWhiteSpace c && isWhiteSpace d) && spaced (d :: k)).
    rewrite E. exact Hs.
Qed.

(** What [collapseWhite] gives holds the units of its argument that are no
    white space, and for white space only spaces. *)
Lemma collapseWhite_In (c : CodeUnit) (s : JsString) :
  forall inRun, In c (collapseWhite inRun s) ->
                c = space \/ (In c s /\ isWhiteSpace c = false).
Proof.
  induction s as [|d s IH]; intros inRun; simpl; [tauto|].
  destruct (isWhiteSpace d) eqn:E.
  - destruct inRun; simpl; intros H.
    + destruct (IH _ H) as [?|[? ?]]; auto.
    + destruct H as [<-|H]; [now left|]. destruct (IH _ H) as [?|[? ?]]; auto.
  - simpl. intros [<-|H]; [right; auto|]. destruct (IH _ H) as [?|[? ?]]; auto.
Qed.

Lemma collapseWhite_white (s : JsString) :
  forall inRun, forallb isWhiteSpace (collapseWhite inRun s) = forallb isWhiteSpace s.
Proof.
  induction s as [|d s IH]; intros inRun; simpl; [reflexivity|].
  destruct (isWhiteSpace d) eqn:E; simpl.
  - destruct inRun; simpl; now rewrite IH.
  - now rewrite E.
Qed.

Lemma replaceEach_forall (P : CodeUnit -> Prop) (units : list CodeUnit) (s : JsString) :
  P underscore -> Forall P s -> Forall P (replaceEach units s).
Proof.
  intros Hu. induction 1 as [|c s Hc Hs IH]; simpl; constructor; [|exact IH].
  now destruct (existsb (N.eqb c) units).
Qed.

Lemma replaceEach_gone (units : list CodeUnit) (s : JsString) :
  existsb (N.eqb underscore) units = false ->
  Forall (fun c => existsb (N.eqb c) units = false) (replaceEach units s).
Proof.
  intros Hu. induction s as [|c s IH]; simpl; constructor; [|exact IH].
  destruct (existsb (N.eqb c) units) eqn:E; assumption.
Qed.

Lemma replaceEach_whiteness (units : list CodeUnit) (c : CodeUnit) :
  forallb (fun u => negb (isWhiteSpace u)) units = true ->
  isWhiteSpace (if existsb (N.eqb c) units then underscore else c) = isWhiteSpace c.
Proof.
  intros Hu. destruct (existsb (N.eqb c) units) eqn:E; [|reflexivity].
  apply existsb_exists in E. destruct E as (u & Hin & E). apply N.eqb_eq in E. subst u.
  rewrite forallb_forall in Hu. specialize (Hu c Hin).
  apply negb_true_iff in Hu. now rewrite Hu.
Qed.

Lemma replaceEach_spaced (units : list CodeUnit) (s : JsString) :
  forallb (fun u => negb (isWhiteSpace u)) units = true ->
  spaced (replaceEach units s) = spaced s.
Proof.
  intros Hu. induction s as [|c s IH]; [reflexivity|].
  destruct s as [|d s]; [reflexivity|].
  change (spaced (replaceEach units (c :: d :: s))) with
    (negb (isWhiteSpace (if existsb (N.eqb c) units then underscore else c) &&
           isWhiteSpace (if existsb (N.eqb d) units then underscore else d)) &&
     spaced (replaceEach units (d :: s))).
  now rewrite !replaceEach_whiteness, IH.
Qed.

Lemma replaceEach_white (units : list CodeUnit) (s : JsString) :
  forallb (fun u => negb (isWhiteSpace u)) units = true ->
  Forall (fun c => isWhiteSpace c = true -> c = space) s ->
  Forall (fun c => isWhiteSpace c = true -> c = space) (replaceEach units s).
Proof.
  intros Hu. induction 1 as [|c s Hc Hs IH]; simpl; constructor; [|exact IH].
  destruct (existsb (N.eqb c) units); [discriminate|exact Hc].
Qed.

(** The folder name made of a subject: at most 100 code units; none of the
    characters illegal in a file name, no Japanese bracket and no slash;
    white space only as single spaces between other characters, never at
    the start.  A subject of white space only, or none, gives the empty
    name. *)
Theorem cleanSubjectForFolder_safe (subject : JsString) :
  let name := cleanSubjectForFolder subject in
  (length name <= 100)%nat /\
  forallb (fun c => negb (isUnwantedInFolderName c)) name = true /\
  Forall (fun c => isWhiteSpace c = true -> c = space) name /\
  spaced name = true /\
  match name with c :: _ => isWhiteSpace c = false | [] => True end /\
  (name = [] <-> forallb isWhiteSpace subject = true).
Proof.
  cbv zeta. unfold cleanSubjectForFolder.
  set (cut := substringTo (trim (replaceWhiteRuns (replaceInvalid subject))) 100).
  assert (Hsub : forall c, In c cut ->
                   c = space \/ (In c (replaceInvalid subject) /\ isWhiteSpace c = false)).
  { intros c Hc. unfold cut, substringTo in Hc. apply firstn_In in Hc.
    apply trim_In in Hc. now apply collapseWhite_In in Hc. }
  assert (Hvalid : Forall (fun c => isInvalidNameChar c = false) cut).
  { apply Forall_forall. intros c Hc. destruct (Hsub c Hc) as [->|[Hin _]]; [reflexivity|].
    pose proof (replaceInvalid_valid subject) as Hv. rewrite forallb_forall in Hv.
    specialize (Hv c Hin). now apply negb_true_iff in Hv. }
  assert (Hwhite : Forall (fun c => isWhiteSpace c = true -> c = space) cut).
  { apply Forall_forall. intros c Hc Hw. destruct (Hsub c Hc) as [->|[_ Hn]]; congruence. }
  assert (Hspaced : spaced cut = true).
  { unfold cut, substringTo. apply spaced_firstn, spaced_trim.
    apply collapseWhite_spaced. }
  split; [|split; [|split; [|split; [|split]]]].
  - unfold replaceEach. rewrite !length_map. unfold cut, substringTo.
    rewrite length_firstn. lia.
  - set (name := replaceEach slashes
                    (replaceEach quoteBrackets (replaceEach cornerBrackets cut))).
    assert (F0 : Forall (fun c => isInvalidNameChar c = false) name)
      by (repeat (apply replaceEach_forall; [reflexivity|]); exact Hvalid).
    assert (F1 : Forall (fun c => existsb (N.eqb c) cornerBrackets = false) name)
      by (do 2 (apply replaceEach_forall; [reflexivity|]); now apply replaceEach_gone).
    assert (F2 : Forall (fun c => existsb (N.eqb c) quoteBrackets = false) name)
      by (apply replaceEach_forall; [reflexivity|]; now apply replaceEach_gone).
    assert (F3 : Forall (fun c => existsb (N.eqb c) slashes = false) name)
      by now apply replaceEach_gone.
    rewrite Forall_forall in F0, F1, F2, F3.
    apply forallb_forall. intros c Hc. apply negb_true_iff.
    unfold isUnwantedInFolderName. rewrite !existsb_app.
    pose proof (F0 c Hc) as E0. pose proof (F1 c Hc) as E1.
    pose proof (F2 c Hc) as E2. pose proof (F3 c Hc) as E3.
    unfold CodeUnit in *. now rewrite E0, E1, E2, E3.
  - repeat (apply replaceEach_white; [reflexivity|]). exact Hwhite.
  - rewrite !replaceEach_spaced by reflexivity. exact Hspaced.
  - pose proof (trim_head (replaceWhiteRuns (replaceInvalid subject))) as Hh.
    unfold cut, substringTo.
    destruct (trim (replaceWhiteRuns (replaceInvalid subject))) as [|c k]; [exact I|].
    change (firstn 100 (c :: k)) with (c :: firstn 99 k).
    cbn [replaceEach map]. now rewrite !replaceEach_whiteness.
  - unfold replaceEach, cut, substringTo.
    rewrite <- replaceInvalid_white.
    rewrite <- (collapseWhite_white (replaceInvalid subject) false).
    fold (replaceWhiteRuns (replaceInvalid subject)).
    rewrite <- (trim_nil (replaceWhiteRuns (replaceInvalid subject))).
    destruct (trim (replaceWhiteRuns (replaceInvalid subject))); simpl; split;
      (reflexivity || discriminate).
Qed.

(* ================================================================== *)
(** * Blank runs *)

Lemma takeWhite_white (s : JsString) : forallb isWhiteSpace (takeWhite s) = true.
Proof.
  induction s as [|c s IH]; simpl; [reflexivity|].
  destruct (isWhiteSpace c) eqn:E; simpl; [now rewrite E|reflexivity].
Qed.

(** A string is its white prefix and a rest that does not start with white
    space. *)
Lemma takeWhite_split (s : JsString) :
  exists rest, s = takeWhite s ++ rest /\ takeWhite rest = [].
Proof.
  induction s as [|c s (rest & E & Hr)]; simpl; [now exists []|].
  destruct (isWhiteSpace c) eqn:Ec.
  - exists rest. simpl. split; [now f_equal|exact Hr].
  - exists (c :: s). simpl. now rewrite Ec.
Qed.

Lemma takeWhite_app (ws rest : JsString) :
  forallb isWhiteSpace ws = true -> takeWhite rest = [] -> takeWhite (ws ++ rest) = ws.
Proof.
  intros Hw Hr. induction ws as [|c ws IH]; simpl in *; [exact Hr|].
  apply andb_true_iff in Hw. destruct Hw as [Hc Hw]. now rewrite Hc, IH.
Qed.

Lemma newline_white (c : CodeUnit) : N.eqb c newline = true -> isWhiteSpace c = true.
Proof. intros H. apply N.eqb_eq in H. now subst. Qed.

Lemma countNewlines_cons (c : CodeUnit) (s : JsString) :
  countNewlines (c :: s) =
  ((if N.eqb c newline then 1 else 0) + countNewlines s)%nat.
Proof.
  unfold countNewlines. cbn [filter]. rewrite (N.eqb_sym newline c).
  now destruct (N.eqb c newline).
Qed.

Lemma countNewlines_app (a b : JsString) :
  countNewlines (a ++ b) = (countNewlines a + countNewlines b)%nat.
Proof. unfold countNewlines. now rewrite filter_app, length_app. Qed.

Lemma throughLastNewline_le (s : JsString) : (throughLastNewline s <= length s)%nat.
Proof.
  induction s as [|c s IH]; simpl; [lia|].
  destruct (0 <? throughLastNewline s)%nat; [lia|].
  destruct (N.eqb c newline); lia.
Qed.

(** Nothing after the last newline is a newline. *)
Lemma after_last_newline (s : JsString) :
  countNewlines (skipn (throughLastNewline s) s) = 0%nat.
Proof.
  induction s as [|c s IH]; [reflexivity|].
  simpl throughLastNewline.
  destruct (Nat.ltb_spec 0 (throughLastNewline s)) as [L|L].
  - exact IH.
  - assert (E0 : throughLastNewline s = 0%nat) by lia. rewrite E0 in IH. simpl in IH.
    destruct (N.eqb c newline) eqn:Ec; simpl skipn; [exact IH|].
    rewrite countNewlines_cons, Ec, IH. reflexivity.
Qed.

Lemma collapseFrom_skip (s : JsString) :
  forall skip, collapseFrom skip s = collapseFrom 0 (skipn skip s).
Proof.
  induction s as [|c s IH]; intros [|k]; try reflexivity.
  simpl. apply IH.
Qed.

Lemma collapseFrom_nil (skip : nat) : collapseFrom skip [] = [].
Proof. now destruct skip. Qed.

(** White space that holds at most one newline, before a character that
    is no white space or at the end, has nothing to collapse. *)
Lemma collapseFrom_white (ws rest : JsString) :
  forallb isWhiteSpace ws = true ->
  (countNewlines ws <= 1)%nat ->
  takeWhite rest = [] ->
  collapseFrom 0 (ws ++ rest) = ws ++ collapseFrom 0 rest.
Proof.
  intros Hw Hn Hr. induction ws as [|c ws IH]; [reflexivity|].
  simpl in Hw. apply andb_true_iff in Hw. destruct Hw as [Hc Hw].
  rewrite countNewlines_cons in Hn.
  simpl app. cbn [collapseFrom].
  rewrite (takeWhite_app _ _ Hw Hr).
  destruct (N.eqb c newline) eqn:Ec.
  - destruct (Nat.leb_spec 2 (countNewlines ws)) as [L|L]; [lia|].
    rewrite IH by (assumption || lia). reflexivity.
  - rewrite IH by (assumption || lia). reflexivity.
Qed.

Lemma collapseFrom_stop (rest : JsString) :
  takeWhite rest = [] -> takeWhite (collapseFrom 0 rest) = [].
Proof.
  destruct rest as [|d t]; [reflexivity|]. simpl.
  destruct (isWhiteSpace d) eqn:Ed; [discriminate|]. intros _.
  destruct (N.eqb d newline) eqn:En.
  - apply newline_white in En. congruence.
  - simpl. now rewrite Ed.
Qed.

Lemma blankRunFree_app (ws rest : JsString) :
  forallb (fun c => negb (N.eqb c newline)) ws = true ->
  blankRunFree (ws ++ rest) = blankRunFree rest.
Proof.
  intros H. induction ws as [|c ws IH]; [reflexivity|].
  simpl in H. apply andb_true_iff in H. destruct H as [Hc Hw].
  apply negb_true_iff in Hc. simpl. now rewrite Hc, IH.
Qed.

Lemma no_newline (s : JsString) :
  countNewlines s = 0%nat -> forallb (fun c => negb (N.eqb c newline)) s = true.
Proof.
  induction s as [|c s IH]; [reflexivity|].
  rewrite countNewlines_cons. simpl.
  destruct (N.eqb c newline); [discriminate|]. intros H. now apply IH.
Qed.

Lemma forallb_skipn {A} (f : A -> bool) (n : nat) (l : list A) :
  forallb f l = true -> forallb f (skipn n l) = true.
Proof.
  intros H. rewrite <- (firstn_skipn n l), forallb_app in H.
  now apply andb_true_iff in H.
Qed.

Lemma replaceBlankRuns_free (n : nat) :
  forall s, (length s <= n)%nat -> blankRunFree (collapseFrom 0 s) = true.
Proof.
  induction n as [|n IH]; intros s Hl.
  - destruct s; [reflexivity|simpl in Hl; lia].
  - destruct s as [|c s]; [reflexivity|]. simpl in Hl.
    destruct (takeWhite_split s) as (rest & Es & Hrest).
    pose proof (takeWhite_white s) as Hw.
    set (run := takeWhite s) in *.
    assert (Hlen : (length rest <= n)%nat).
    { assert (length s = length (run ++ rest)) by now rewrite <- Es.
      rewrite length_app in *. lia. }
    cbn [collapseFrom]. fold run.
    destruct (N.eqb c newline) eqn:Ec.
    + destruct (Nat.leb_spec 2 (countNewlines run)) as [L|L].
      * rewrite collapseFrom_skip.
        pose proof (throughLastNewline_le run) as Hk.
        pose proof (after_last_newline run) as Hz.
        set (k := throughLastNewline run) in *.
        assert (Esk : skipn k s = skipn k run ++ rest).
        { rewrite Es at 1. rewrite skipn_app.
          replace (k - length run)%nat with 0%nat by lia. reflexivity. }
        rewrite Esk.
        assert (Hw' : forallb isWhiteSpace (skipn k run) = true)
          by now apply forallb_skipn.
        rewrite collapseFrom_white by (assumption || lia).
        pose proof (collapseFrom_stop _ Hrest) as Hstop.
        cbn [blankRunFree].
        change (newline =? newline)%N with true. cbn [andb].
        rewrite !(takeWhite_app _ _ Hw' Hstop).
        assert (E1 : takeWhite (newline :: skipn k run ++ collapseFrom 0 rest)
                     = newline :: skipn k run).
        { change (newline :: skipn k run ++ collapseFrom 0 rest)
            with ((newline :: skipn k run) ++ collapseFrom 0 rest).
          apply takeWhite_app; [simpl; now rewrite Hw'|exact Hstop]. }
        rewrite E1, countNewlines_cons, Hz.
        change (newline =? newline)%N with true. simpl Nat.leb. cbn [negb andb].
        rewrite blankRunFree_app by now apply no_newline.
        now apply IH.
      * cbn [blankRunFree]. rewrite Ec.
        assert (E1 : collapseFrom 0 s = run ++ collapseFrom 0 rest).
        { rewrite Es at 1. apply collapseFrom_white; [exact Hw|lia|exact Hrest]. }
        assert (E2 : takeWhite (collapseFrom 0 s) = run).
        { rewrite E1. apply takeWhite_app; [exact Hw|].
          now apply collapseFrom_stop. }
        rewrite E2.
        destruct (Nat.leb_spec 2 (countNewlines run)) as [L'|L']; [lia|].
        simpl. apply IH. lia.
    + cbn [blankRunFree]. rewrite Ec. simpl. apply IH. lia.
Qed.

Lemma replaceBlankRuns_fixed (s : JsString) :
  blankRunFree s = true -> collapseFrom 0 s = s.
Proof.
  induction s as [|c s IH]; [reflexivity|].
  simpl. intros H. apply andb_true_iff in H. destruct H as [H1 H2].
  destruct (N.eqb c newline); simpl in H1.
  - apply negb_true_iff in H1. rewrite H1. now rewrite IH.
  - now rewrite IH.
Qed.

Lemma blankRunFree_suffix (a b : JsString) :
  blankRunFree (a ++ b) = true -> blankRunFree b = true.
Proof.
  induction a as [|c a IH]; simpl; [auto|].
  intros H. apply andb_true_iff in H. now apply IH.
Qed.

(** Collapsing the runs of blank lines leaves none: no newline of the
    result is followed by white space with two more newlines, and in
    particular the result never has three newlines in a row.  A text
    without such a run is left as it is, so collapsing twice is collapsing
    once. *)
Theorem replaceBlankRuns_idempotent (s : JsString) :
  blankRunFree (replaceBlankRuns s) = true /\
  (forall a b, replaceBlankRuns s <> a ++ newline :: newline :: newline :: b) /\
  (blankRunFree s = true -> replaceBlankRuns s = s) /\
  replaceBlankRuns (replaceBlankRuns s) = replaceBlankRuns s.
Proof.
  unfold replaceBlankRuns.
  assert (H : blankRunFree (collapseFrom 0 s) = true)
    by now apply (@replaceBlankRuns_free (length s)).
  split; [exact H|]. split; [|split].
  - intros a b E. rewrite E in H. apply blankRunFree_suffix in H.
    cbn [blankRunFree] in H. apply andb_true_iff in H. destruct H as [H _].
    change (takeWhite (newline :: newline :: b))
      with (newline :: newline :: takeWhite b) in H.
    rewrite !countNewlines_cons in H.
    change (newline =? newline)%N with true in H. simpl in H. discriminate.
  - apply replaceBlankRuns_fixed.
  - now apply replaceBlankRuns_fixed.
Qed.

(* ================================================================== *)
(** * The formatted body *)

Lemma takeWhite_firstn (s : JsString) (k : nat) :
  (k <= length (takeWhite s))%nat -> forallb isWhiteSpace (firstn k s) = true.
Proof.
  intros Hk. destruct (takeWhite_split s) as (rest & E & _).
  rewrite E, firstn_app. replace (k - length (takeWhite s))%nat with 0%nat by lia.
  simpl. rewrite app_nil_r.
  pose proof (takeWhite_white s) as Hw.
  rewrite <- (firstn_skipn k (takeWhite s)), forallb_app in Hw.
  now apply andb_true_iff in Hw.
Qed.

(** Collapsing blank runs drops white space only. *)
Lemma collapseFrom_keeps (c : CodeUnit) (s : JsString) :
  isWhiteSpace c = false ->
  forall skip,
    forallb isWhiteSpace (firstn skip s) = true ->
    In c s -> In c (collapseFrom skip s).
Proof.
  intros Hc. induction s as [|d s IH]; intros skip Hskip Hin; [contradiction|].
  destruct skip as [|k].
  - cbn [collapseFrom].
    destruct (N.eqb d newline) eqn:Ed.
    + assert (Hcd : d <> c).
      { intros ->. apply newline_white in Ed. congruence. }
      destruct Hin as [?|Hin]; [contradiction|].
      destruct (2 <=? countNewlines (takeWhite s))%nat.
      * right. right. apply IH; [|exact Hin].
        apply takeWhite_firstn, throughLastNewline_le.
      * right. now apply IH.
    + destruct Hin as [->|Hin]; [now left|]. right. now apply IH.
  - simpl in Hskip. apply andb_true_iff in Hskip. destruct Hskip as [Hd Hk].
    destruct Hin as [->|Hin]; [congruence|].
    simpl. now apply IH.
Qed.

Lemma nonblank_unit (s : JsString) :
  trim s <> [] <-> exists c, In c s /\ isWhiteSpace c = false.
Proof.
  rewrite trim_nil. split.
  - intros H. induction s as [|c s IH]; simpl in H; [congruence|].
    destruct (isWhiteSpace c) eqn:E.
    + destruct IH as (x & Hx & Ex); [exact H|]. exists x. simpl. auto.
    + exists c. simpl. auto.
  - intros (c & Hc & E) H. rewrite forallb_forall in H. rewrite (H c Hc) in E.
    discriminate.
Qed.

Lemma replaceBlankRuns_nonblank (s : JsString) :
  trim s <> [] -> trim (replaceBlankRuns s) <> [].
Proof.
  rewrite !nonblank_unit. intros (c & Hc & E). exists c. split; [|exact E].
  unfold replaceBlankRuns. now apply collapseFrom_keeps.
Qed.

(** An occurrence of a non-empty needle ends within the string. *)
Lemma lastIndexFrom_le (needle : JsString) (s : JsString) :
  needle <> [] ->
  forall i found,
    lastIndexFrom i s needle found <= Z.max found (i + Z.of_nat (length s) - 1).
Proof.
  intros Hn. induction s as [|c s IH]; intros i found.
  - simpl. destruct needle; [contradiction|]. simpl. lia.
  - cbn [lastIndexFrom]. specialize (IH (i + 1)
      (if startsWith (c :: s) needle then i else found)).
    cbn [length]. destruct (startsWith (c :: s) needle); lia.
Qed.

Lemma lastIndexOf_lt (s needle : JsString) :
  needle <> [] -> lastIndexOf s needle < Z.of_nat (length s) \/ length s = 0%nat.
Proof.
  intros Hn. unfold lastIndexOf.
  pose proof (@lastIndexFrom_le needle s Hn 0 (-1)).
  destruct s; [now right|left]. cbn [length] in *. lia.
Qed.

Lemma length_substringTo (s : JsString) (n : nat) : (length (substringTo s n) <= n)%nat.
Proof. unfold substringTo. rewrite length_firstn. lia. Qed.

Lemma length_substringTo_le (s : JsString) (n : nat) :
  (length (substringTo s n) <= length s)%nat.
Proof. unfold substringTo. rewrite length_firstn. lia. Qed.


(* ================================================================== *)
(** * The main message and its follow-up *)

(** The body field of the main message never exceeds 1000 code units.  It
    shows the body whole exactly when the body has at most 1000 code units,
    and then no follow-up is sent; a longer body is shown as its first 500
    code units and a note, and then, and only then, the whole body is
    handed to [sendLongEmailBody]. *)
Theorem buildSlackMessage_preview (emailData : EmailData) (w : World) :
  let preview := buildSlackMessage_bodyPreview emailData in
  (length preview <= 1000)%nat /\
  (body emailData = [] ->
   preview = noBodyText /\
   sendSlackNotification_longBody emailData w = (Normal tt, w)) /\
  (body emailData <> [] -> (length (body emailData) <= 1000)%nat ->
   preview = body emailData /\
   sendSlackNotification_longBody emailData w = (Normal tt, w)) /\
  ((1000 < length (body emailData))%nat ->
   preview = substringTo (body emailData) 500 ++ previewMark /\
   sendSlackNotification_longBody emailData w =
   sendLongEmailBody (subject emailData) (body emailData) (date emailData) w).
Proof.
  cbv zeta. unfold buildSlackMessage_bodyPreview, sendSlackNotification_longBody.
  destruct (body emailData) as [|c b] eqn:Eb.
  - simpl. repeat split; try lia; intros; (congruence || (simpl in *; lia)).
  - destruct (Nat.ltb_spec 1000 (length (c :: b))) as [L|L].
    + split.
      * rewrite length_app. unfold substringTo. rewrite length_firstn.
        change (length previewMark) with 27%nat. lia.
      * split; [discriminate|]. split; [intros _ H; lia|]. intros _. split; reflexivity.
    + split; [exact L|]. split; [discriminate|].
      split; [intros _ _; split; reflexivity|]. intros H. lia.
Qed.

(* ================================================================== *)
(** * Folder links *)

Lemma jsEq_sym (s t : JsString) : jsEq s t = jsEq t s.
Proof.
  destruct (jsEq t s) eqn:E.
  - apply jsEq_eq in E. subst. apply jsEq_refl.
  - apply jsEq_neq in E. apply jsEq_neq. congruence.
Qed.

Lemma mapSet_keys (key : JsString) (value : FolderLink)
      (entries : list (JsString * FolderLink)) :
  map fst (mapSet key value entries) =
  if existsb (jsEq key) (map fst entries)
  then map fst entries
  else map fst entries ++ [key].
Proof.
  induction entries as [|[k v] rest IH]; [reflexivity|].
  simpl. rewrite (jsEq_sym key k).
  destruct (jsEq k key) eqn:E; simpl; [reflexivity|]. rewrite IH.
  now destruct (existsb (jsEq key) (map fst rest)).
Qed.

Lemma mapSet_NoDup (key : JsString) (value : FolderLink)
      (entries : list (JsString * FolderLink)) :
  NoDup (map fst entries) -> NoDup (map fst (mapSet key value entries)).
Proof.
  intros H. rewrite mapSet_keys.
  destruct (existsb (jsEq key) (map fst entries)) eqn:E; [exact H|].
  apply NoDup_snoc; [exact H|]. now apply existsb_jsEq_false.
Qed.

Lemma mapSet_In (key : JsString) (value : FolderLink)
      (entries : list (JsString * FolderLink)) (e : JsString * FolderLink) :
  In e (mapSet key value entries) -> In e entries \/ e = (key, value).
Proof.
  induction entries as [|[k v] rest IH]; simpl.
  - intros [<-|[]]. now right.
  - destruct (jsEq k key) eqn:E; simpl.
    + apply jsEq_eq in E. subst k. intros [<-|H]; auto.
    + intros [<-|H]; auto. destruct (IH H); auto.
Qed.

(** [new Map(pairs)], seen from an accumulator: the keys are those of the
    pairs, each once; every entry is one of the pairs. *)
Lemma newMap_spec (pairs : list (JsString * FolderLink)) :
  forall entries,
    NoDup (map fst entries) ->
    let result := fold_left (fun entries p => mapSet (fst p) (snd p) entries) pairs entries in
    NoDup (map fst result) /\
    (forall k, In k (map fst result) <-> In k (map fst entries) \/ In k (map fst pairs)) /\
    (forall e, In e result -> In e entries \/ In e pairs).
Proof.
  induction pairs as [|[k v] pairs IH]; intros entries Hnd; cbv zeta; simpl.
  - split; [exact Hnd|]. split; [tauto|]. auto.
  - destruct (IH (mapSet k v entries) (mapSet_NoDup k v _ Hnd)) as (H1 & H2 & H3).
    cbv zeta in H1, H2, H3.
    split; [exact H1|]. split.
    + intros x. rewrite H2, mapSet_keys.
      destruct (existsb (jsEq k) (map fst entries)) eqn:E.
      * apply existsb_jsEq in E. split; [tauto|].
        intros [?|[<-|?]]; auto.
      * rewrite in_app_iff. simpl. tauto.
    + intros e He. destruct (H3 e He) as [H|H]; [|auto].
      destruct (mapSet_In _ _ _ _ H) as [H'|H']; [auto|subst e; simpl; auto].
Qed.

Lemma folderPair_spec (att : SavedAttachment) (e : JsString * FolderLink) :
  In e (folderPair att) <->
  fst e <> [] /\ path (snd e) <> [] /\ url (snd e) = fst e /\
  folderUrl att = Some (fst e) /\ folderPath att = Some (path (snd e)).
Proof.
  unfold folderPair. destruct e as [k [u p]]. cbn [fst snd url path].
  split.
  - destruct (folderUrl att) as [[|c u']|]; try contradiction;
      destruct (folderPath att) as [[|d p']|]; try contradiction.
    intros [H|[]]. injection H as E1 E2 E3. subst. repeat split; discriminate.
  - intros (H1 & H2 & H3 & H4 & H5). rewrite H4, H5. subst u.
    destruct k; [contradiction|]. destruct p; [contradiction|]. now left.
Qed.

(** The folders listed in the Drive notification: every folder of an
    attachment that has both a folder URL and a folder path is listed, under
    its URL, exactly once, whatever the number of attachments saved in it;
    each link listed is the URL and path of one of the attachments; so
    there are never more folders than files. *)
Theorem uniqueFolders_unique (savedAttachments : list SavedAttachment) :
  let folders := uniqueFolders savedAttachments in
  NoDup (map url folders) /\
  (forall u,
      In u (map url folders) <->
      exists att p,
        In att savedAttachments /\ u <> [] /\ p <> [] /\
        folderUrl att = Some u /\ folderPath att = Some p) /\
  (forall link,
      In link folders ->
      exists att,
        In att savedAttachments /\
        folderUrl att = Some (url link) /\ folderPath att = Some (path link)) /\
  (length folders <= length savedAttachments)%nat.
Proof.
  cbv zeta. unfold uniqueFolders, newMap.
  set (pairs := flat_map folderPair savedAttachments).
  destruct (@newMap_spec pairs [] (NoDup_nil _)) as (Hnd & Hkeys & Hin).
  cbv zeta in Hnd, Hkeys, Hin.
  set (result := fold_left (fun entries p => mapSet (fst p) (snd p) entries) pairs []) in *.
  assert (Hpair : forall e, In e result ->
                    exists att, In att savedAttachments /\ In e (folderPair att)).
  { intros e He. destruct (Hin e He) as [[]|H].
    unfold pairs in H. apply in_flat_map in H. exact H. }
  assert (Hurl : map url (map snd result) = map fst result).
  { rewrite map_map. apply map_ext_in. intros e He.
    destruct (Hpair e He) as (att & _ & H). apply folderPair_spec in H. tauto. }
  split; [now rewrite Hurl|]. split; [|split].
  - intros u. rewrite Hurl, Hkeys. simpl. split.
    + intros [[]|H]. apply in_map_iff in H. destruct H as (e & <- & He).
      unfold pairs in He. apply in_flat_map in He. destruct He as (att & Ha & He).
      apply folderPair_spec in He. exists att, (path (snd e)). tauto.
    + intros (att & p & Ha & Hu & Hp & Eu & Ep). right.
      apply in_map_iff. exists (u, mkFolderLink u p). split; [reflexivity|].
      unfold pairs. apply in_flat_map. exists att. split; [exact Ha|].
      apply folderPair_spec. simpl. auto.
  - intros link Hl. apply in_map_iff in Hl. destruct Hl as (e & <- & He).
    destruct (Hpair e He) as (att & Ha & H). apply folderPair_spec in H.
    exists att. destruct H as (_ & _ & -> & H4 & H5). auto.
  - rewrite length_map.
    assert (Hincl : incl (map fst result) (map fst pairs)).
    { intros k Hk. apply Hkeys in Hk. destruct Hk as [[]|Hk]. exact Hk. }
    apply NoDup_incl_length in Hincl; [|exact Hnd].
    rewrite !length_map in Hincl.
    assert (Hlen : (length pairs <= length savedAttachments)%nat).
    { unfold pairs. clear. induction savedAttachments as [|a l IH]; simpl; [lia|].
      rewrite length_app.
      assert ((length (folderPair a) <= 1)%nat).
      { unfold folderPair.
        destruct (folderUrl a) as [[|? ?]|], (folderPath a) as [[|? ?]|]; simpl; lia. }
      lia. }
    clearbody result pairs. lia.
Qed.

(* ================================================================== *)
(** * Ledger statistics *)

Lemma fold_left_min (ts : list Z) :
  forall t,
    In (fold_left Z.min ts t) (t :: ts) /\
    forall x, In x (t :: ts) -> fold_left Z.min ts t <= x.
Proof.
  induction ts as [|a ts IH]; intros t; simpl.
  - split; [now left|]. intros x [<-|[]]. lia.
  - destruct (IH (Z.min t a)) as (H1 & H2). split.
    + destruct H1 as [H1|H1]; [|auto].
      rewrite <- H1. destruct (Z.min_spec t a) as [[_ ->]|[_ ->]]; auto.
    + intros x Hx. pose proof (H2 (Z.min t a) (or_introl eq_refl)) as H0.
      destruct Hx as [<-|[<-|Hx]]; [lia|lia|]. apply H2. now right.
Qed.

Lemma fold_left_max (ts : list Z) :
  forall t,
    In (fold_left Z.max ts t) (t :: ts) /\
    forall x, In x (t :: ts) -> x <= fold_left Z.max ts t.
Proof.
  induction ts as [|a ts IH]; intros t; simpl.
  - split; [now left|]. intros x [<-|[]]. lia.
  - destruct (IH (Z.max t a)) as (H1 & H2). split.
    + destruct H1 as [H1|H1]; [|auto].
      rewrite <- H1. destruct (Z.max_spec t a) as [[_ ->]|[_ ->]]; auto.
    + intros x Hx. pose proof (H2 (Z.max t a) (or_introl eq_refl)) as H0.
      destruct Hx as [<-|[<-|Hx]]; [lia|lia|]. apply H2. now right.
Qed.

(** The statistics of a sheet on a host that does not fail. *)
Lemma getTrackingStats_reliable (w : World) (h : Row) (data : list Row) :
  faults w = [] ->
  sheet w = Some (h :: data) ->
  let times := validDateTimes (map (fun r => nth 3 r (CStr [])) data) in
  exists stats,
    getTrackingStats w = (Normal (Some stats), w) /\
    messageCount stats = Z.of_nat (length data) /\
    rowLimit stats = MAX_ROWS /\
    (times = [] -> oldestDate stats = None /\ newestDate stats = None) /\
    (times <> [] ->
     exists o n,
       oldestDate stats = Some o /\ newestDate stats = Some n /\
       In o times /\ In n times /\
       forall t, In t times -> o <= t <= n).
Proof.
  intros Hf Hs times.
  destruct w as [sh fs ck wh ob rp fl mb]. simpl in Hf, Hs. subst fs sh.
  unfold getTrackingStats, getTrackingStats_try, tryCatch, bind,
    getOrCreateTrackingSpreadsheet, getSheetByName, getLastRow, getRangeColumn, host, ret.
  simpl.
  replace (Z.max 0 (Z.of_nat (S (length data)) - 1)) with (Z.of_nat (length data)) by lia.
  destruct (Z.ltb_spec 0 (Z.of_nat (length data))) as [L|L].
  - replace (Z.to_nat (2 - 1)) with 1%nat by lia.
    replace (Z.to_nat (4 - 1)) with 3%nat by lia.
    rewrite Nat2Z.id. simpl. rewrite firstn_all. fold times.
    destruct times as [|t ts] eqn:Et.
    + eexists. split; [reflexivity|]. cbn. repeat split; auto. intros H. now elim H.
    + eexists. split; [reflexivity|]. cbn.
      destruct (fold_left_min ts t) as (M1 & M2).
      destruct (fold_left_max ts t) as (X1 & X2).
      repeat split; auto; try discriminate.
      intros _. do 2 eexists. repeat split; eauto.
  - assert (data = []) by (destruct data; [reflexivity|cbn [length] in L; lia]).
    subst data. eexists. split; [reflexivity|]. cbn. repeat split; auto.
    intros H. now elim H.
Qed.

(** [getTrackingStats] never throws.  Without the sheet it answers null.
    On a host that does not fail it counts the data rows and reports, among
    the dates of the fourth column, the earliest and the latest, or none
    when no such date is there; it changes nothing.  After a record call
    below the cleanup threshold the count is one more, and the latest date
    is not before the time of the call. *)
Theorem getTrackingStats_summary (w : World) :
  (exists r w', getTrackingStats w = (Normal r, w')) /\
  (faults w = [] -> sheet w = None -> getTrackingStats w = (Normal None, w)) /\
  (forall h data,
      faults w = [] ->
      sheet w = Some (h :: data) ->
      let times := validDateTimes (map (fun r => nth 3 r (CStr [])) data) in
      exists stats,
        getTrackingStats w = (Normal (Some stats), w) /\
        messageCount stats = Z.of_nat (length data) /\
        rowLimit stats = MAX_ROWS /\
        (times = [] -> oldestDate stats = None /\ newestDate stats = None) /\
        (times <> [] ->
         exists o n,
           oldestDate stats = Some o /\ newestDate stats = Some n /\
           In o times /\ In n times /\
           forall t, In t times -> o <= t <= n)) /\
  (forall h data message,
      faults w = [] ->
      sheet w = Some (h :: data) ->
      readable message = true ->
      Z.of_nat (length data) + 2 <= MAX_ROWS + CLEANUP_BATCH_SIZE ->
      let w' := snd (markMessageProcessedInSheet message w) in
      exists stats n,
        getTrackingStats w' = (Normal (Some stats), w') /\
        messageCount stats = Z.of_nat (length data) + 1 /\
        newestDate stats = Some n /\ clock w <= n).
Proof.
  split; [|split; [|split]].
  - unfold getTrackingStats, tryCatch, ret.
    destruct (getTrackingStats_try w) as [[r|e] w']; eauto.
  - intros Hf Hs. destruct w as [sh fs ck wh ob rp fl mb]. simpl in Hf, Hs. subst fs sh.
    reflexivity.
  - intros h data Hf Hs. exact (getTrackingStats_reliable _ Hf Hs).
  - intros h data message Hf Hs Hr Hsmall. cbv zeta.
    destruct (readable_getters _ Hr) as (i & subject & sender & Hi & Hsj & Hsd).
    destruct (markMessageProcessedInSheet_batch _ _ Hf Hs Hi Hsj Hsd)
      as (k & _ & _ & H0 & _ & Hmark).
    rewrite (H0 Hsmall) in Hmark. rewrite Hmark. cbn [snd skipn].
    set (row := ledgerRow i subject sender (clock w)).
    set (w' := setSheet (Some (h :: data ++ [row])) w).
    assert (Hf' : faults w' = []) by (destruct w; exact Hf).
    assert (Hs' : sheet w' = Some (h :: data ++ [row])) by (now destruct w).
    destruct (getTrackingStats_reliable _ Hf' Hs') as (stats & E & Hc & _ & _ & Hd).
    assert (Hin : In (clock w)
                    (validDateTimes (map (fun r => nth 3 r (CStr [])) (data ++ [row])))).
    { unfold validDateTimes. apply in_flat_map. exists (CDate (clock w)).
      split; [|now left]. apply in_map_iff. exists row. split; [reflexivity|].
      apply in_or_app. right. now left. }
    destruct Hd as (o & n & _ & Hn & _ & _ & Hall).
    { intros H. rewrite H in Hin. contradiction. }
    exists stats, n. split; [exact E|]. split.
    + rewrite Hc, length_app. simpl. lia.
    + split; [exact Hn|]. apply (Hall _ Hin).
Qed.

(* ================================================================== *)
(** * Message processing *)

Section ProcessMessageFacts.

Variable Pattern : Type.
Variable toString : Pattern -> JsString.
Variable test : Pattern -> JsString -> Completion bool.
Variable MatchArray : Type.
Variable jsMatch : JsString -> Pattern -> MatchArray.
Variable patternConfig : PatternConfig Pattern.
Variable bodyConfig : BodyConfig.
Variable processAttachments :
  list Attachment -> JsString -> Z -> Script (list AttachmentInfo).
Variable sendSlackNotification : EmailData -> list AttachmentInfo -> Script unit.

Local Abbreviation process :=
  (processMessage toString test jsMatch patternConfig bodyConfig
     processAttachments sendSlackNotification).
Local Abbreviation subjectMatches :=
  (fun subject => isMatch (checkSubjectPattern toString test jsMatch patternConfig subject)).



End ProcessMessageFacts.

(* ================================================================== *)
(** * The counters of a run *)

Section TallyFacts.

Variable processMessage : GmailMessage -> bool.

Local Abbreviation perMessage := (forEachMessage processMessage).
Local Abbreviation perThread := (forEachThread processMessage).

Lemma markMessageProcessedInSheet_total (message : GmailMessage) (w : World) :
  exists w', markMessageProcessedInSheet message w = (Normal tt, w').
Proof.
  unfold markMessageProcessedInSheet.
  destruct (tryCatch_total (markMessageProcessedInSheet_try message) tt w)
    as ([] & w' & H).
  now exists w'.
Qed.

(** One message moves the counters by at most one: it is counted as
    processed, or as failed, or as neither. *)
Lemma forEachMessage_tally (m : GmailMessage) (r : Run) :
  let r' := snd (perMessage m r) in
  (processedCount r' + errorCount r' <= processedCount r + errorCount r + 1)%nat /\
  (processedCount r <= processedCount r')%nat /\
  (errorCount r <= errorCount r')%nat.
Proof.
  cbv zeta.
  unfold forEachMessage, tryCatch, forEachMessage_try, bind, incrChecked, incrProcessed,
    incrError, setThreadHasNewMessages, call, inWorld, ret. simpl.
  destruct (isInTrash m) as [[|]|]; simpl; try lia.
  destruct (isMessageAlreadyProcessed m (world r)) as [[[|]|] w1]; simpl; try lia.
  destruct (getSubject m); simpl; try lia.
  destruct (processMessage m); simpl; try lia.
  destruct (markMessageProcessedInSheet_total m w1) as (w2 & ->). simpl. lia.
Qed.

Lemma forEach_messages_tally (ms : list GmailMessage) :
  forall r,
    let r' := snd (forEach perMessage ms r) in
    (processedCount r' + errorCount r' <= processedCount r + errorCount r + length ms)%nat /\
    (processedCount r <= processedCount r')%nat /\
    (errorCount r <= errorCount r')%nat.
Proof.
  induction ms as [|m ms IH]; intros r; cbv zeta; simpl.
  - lia.
  - destruct (forEachMessage_isolated processMessage m r) as (r1 & E1 & _).
    pose proof (forEachMessage_tally m r) as H1. cbv zeta in H1.
    unfold bind. rewrite E1 in *. cbn [snd] in H1.
    specialize (IH r1). cbv zeta in IH. lia.
Qed.

Lemma forEachThread_tally (t : GmailThread) (r : Run) :
  let r' := snd (perThread t r) in
  (processedCount r' + errorCount r' <=
   processedCount r + errorCount r +
   match threadMessages t with Some ms => length ms | None => 1 end)%nat /\
  (processedCount r' <=
   processedCount r +
   match threadMessages t with Some ms => length ms | None => 0 end)%nat /\
  (errorCount r <= errorCount r')%nat.
Proof.
  cbv zeta.
  unfold forEachThread, tryCatch, forEachThread_try, threadMessages, bind, call,
    incrError, setThreadHasNewMessages.
  destruct (getFirstMessageSubject t) as [sj|e]; simpl; [|lia].
  destruct (getMessages t) as [ms|e]; simpl; [|lia].
  destruct (forEach_messages processMessage ms (startThread r)) as (r1 & E1 & _).
  pose proof (forEach_messages_tally ms (startThread r)) as H1. cbv zeta in H1.
  fold (startThread r). rewrite E1 in *. cbn [snd] in H1.
  change (processedCount (startThread r)) with (processedCount r) in H1.
  change (errorCount (startThread r)) with (errorCount r) in H1.
  destruct (threadHasNewMessages r1).
  - unfold inWorld. destruct (addProcessedLabel_total (world r1)) as (w' & E').
    rewrite E'. simpl. lia.
  - unfold ret. simpl. lia.
Qed.

Lemma forEach_threads_tally (threads : list GmailThread) :
  forall r,
    let r' := snd (forEach perThread threads r) in
    (processedCount r' + errorCount r' <=
     processedCount r + errorCount r + batchSize threads +
     length (filter unreadable threads))%nat /\
    (processedCount r' <= processedCount r + batchSize threads)%nat.
Proof.
  induction threads as [|t threads IH]; intros r; cbv zeta.
  - simpl. lia.
  - cbn [forEach batchSize filter].
    destruct (forEachThread_isolated processMessage t r) as (r1 & E1 & _).
    pose proof (forEachThread_tally t r) as H1. cbv zeta in H1.
    unfold bind. rewrite E1 in *. cbn [snd] in H1.
    specialize (IH r1). cbv zeta in IH.
    unfold unreadable at 1.
    destruct (threadMessages t) as [ms|]; cbn [length]; lia.
Qed.

(** The report of a run on a host that does not fail, with a valid webhook
    URL and a mailbox that is not empty: no message is counted twice.  The
    messages processed and the failures together are at most the messages
    checked and the threads that could not be read; the messages processed
    alone are at most the messages checked. *)
Theorem processEmails_tally (w : World) (c : CodeUnit) (s : JsString) :
  faults w = [] ->
  webhook w = Some (c :: s) ->
  startsWith (c :: s) (lit "https://hooks.slack.com/") = true ->
  mailbox w <> [] ->
  exists rep w',
    processEmails processMessage w = (Normal (Some rep), w') /\
    checked rep = batchSize (mailbox w) /\
    (processed rep + errors rep <=
     checked rep + length (filter unreadable (mailbox w)))%nat /\
    (processed rep <= checked rep)%nat.
Proof.
  intros Hf Hw Hurl Hmb.
  unfold processEmails, bind, now, tryCatch.
  unfold processEmails_try, bind, validateConfiguration, bind.
  rewrite (getProperty_reliable _ Hf Hw), Hurl. simpl.
  rewrite host_reliable by assumption. simpl.
  unfold search. rewrite host_reliable by assumption. simpl.
  assert (Hlen : Nat.eqb (length (mailbox w)) 0 = false)
    by (destruct (mailbox w); [contradiction|reflexivity]).
  rewrite Hlen. cbv beta iota.
  destruct (forEach_threads processMessage (mailbox w) (mkRun w 0 0 0 false))
    as (r & Er & Hc & _ & _).
  pose proof (forEach_threads_tally (mailbox w) (mkRun w 0 0 0 false)) as Ht.
  cbv zeta in Ht.
  rewrite Er in *. cbn [snd processedCount errorCount checkedCount] in Ht, Hc.
  unfold now, ret. cbn [fst snd].
  assert (Hsum : exists w', sendErrorSummary (processedCount r) (errorCount r)
                              (clock (world r) - clock w) (world r) = (Normal tt, w')).
  { unfold sendErrorSummary.
    destruct (tryCatch_total
                (getProperty_SLACK_WEBHOOK_URL ;;;
                 fetch (ErrorSummary (processedCount r) (errorCount r)
                          (clock (world r) - clock w)) ;;; ret tt) tt (world r))
      as ([] & w' & E).
    now exists w'. }
  destruct (0 <? errorCount r)%nat.
  - destruct Hsum as (w' & ->).
    do 2 eexists. split; [reflexivity|]. cbn [checked processed errors]. lia.
  - do 2 eexists. split; [reflexivity|]. cbn [checked processed errors]. lia.
Qed.

End TallyFacts.

Lemma processEmails_tally_witness :
  (faults sampleMailboxWorld = [] /\
   webhook sampleMailboxWorld = Some (lit "https://hooks.slack.com/services/T/B/x") /\
   mailbox sampleMailboxWorld <> []) /\
  exists rep w',
    processEmails (fun _ => true) sampleMailboxWorld = (Normal (Some rep), w') /\
    (processed rep + errors rep <= 3)%nat.
Proof.
  assert (Hmb : mailbox sampleMailboxWorld <> []) by discriminate.
  split; [split; [reflexivity|split; [reflexivity|exact Hmb]]|].
  destruct (@processEmails_tally (fun _ => true) sampleMailboxWorld 104%N
              (lit "ttps://hooks.slack.com/services/T/B/x") eq_refl eq_refl eq_refl Hmb)
    as (rep & w' & E & Hc & Hs & _).
  exists rep, w'. split; [exact E|].
  change (batchSize (mailbox sampleMailboxWorld)) with 3%nat in Hc.
  change (length (filter unreadable (mailbox sampleMailboxWorld))) with 0%nat in Hs.
  lia.
Defined.

(* ================================================================== *)
(** * The entry point of the archiver *)

Section ProcessAttachmentsFacts.

Variable getProperty_DRIVE_FOLDER_ID : Script JsString.
Variable openEmailFolder : JsString -> JsString -> Z -> Script unit.

Local Abbreviation archive :=
  (processAttachments getProperty_DRIVE_FOLDER_ID openEmailFolder).


End ProcessAttachmentsFacts.


(* ================================================================== *)
(** * The extension of a saved file *)

Lemma splitDot_app_dot (b x : JsString) :
  splitDot (b ++ dot :: x) = splitDot b ++ splitDot x.
Proof.
  induction b as [|c b IH]; [reflexivity|].
  simpl. destruct (N.eqb c dot).
  - now rewrite IH.
  - rewrite IH. pose proof (splitDot_nonempty b) as Hne.
    destruct (splitDot b) as [|p ps]; [contradiction|reflexivity].
Qed.

Lemma splitDot_noDot_single (x : JsString) : noDot x = true -> splitDot x = [x].
Proof.
  unfold noDot. induction x as [|c x IH]; [reflexivity|].
  simpl. destruct (N.eqb c dot); [discriminate|]. simpl. intros H. now rewrite IH.
Qed.

(** A name that ends with a dot and a string without a dot is cut there. *)
Lemma splitExtension_dot (b x : JsString) :
  noDot x = true -> splitExtension (b ++ dot :: x) = (b, dot :: x).
Proof.
  intros Hx. unfold splitExtension, popLast.
  rewrite splitDot_app_dot, (splitDot_noDot_single _ Hx).
  pose proof (splitDot_nonempty b) as Hne.
  assert (Hl : (1 <? length (splitDot b ++ [x]))%nat = true).
  { apply Nat.ltb_lt. rewrite length_app. simpl.
    destruct (splitDot b); [contradiction|simpl; lia]. }
  rewrite Hl, last_last, removelast_last, joinDot_splitDot. reflexivity.
Qed.

Lemma splitExtension_noDot (s : JsString) : noDot s = true -> splitExtension s = (s, []).
Proof.
  intros Hs. unfold splitExtension. now rewrite (splitDot_noDot_single _ Hs).
Qed.

Lemma noDot_app (a b : JsString) : noDot (a ++ b) = noDot a && noDot b.
Proof. apply forallb_app. Qed.

Lemma noDot_digits (s : JsString) :
  Forall (fun c => (48 <= c <= 57)%N) s -> noDot s = true.
Proof.
  unfold noDot. induction 1 as [|c s Hc Hs IH]; simpl; [reflexivity|]. rewrite IH.
  unfold dot. rewrite (proj2 (N.eqb_neq c 46)) by lia. reflexivity.
Qed.

(** A numbered candidate of a name has the extension of the name. *)
Lemma splitExtension_candidate (name : JsString) (n : nat) :
  splitExtension
    (candidate (fst (splitExtension name)) (snd (splitExtension name)) n) =
  (fst (splitExtension name) ++ underscore :: decimal n, snd (splitExtension name)).
Proof.
  destruct (splitExtension_spec name) as (Hcat & [[He Hno]|(x & He & Hx)]);
    unfold candidate; rewrite He in *.
  - rewrite app_nil_r in *. rewrite Hcat.
    apply splitExtension_noDot.
    change (name ++ underscore :: decimal n) with (name ++ [underscore] ++ decimal n).
    rewrite !noDot_app, Hno. unfold decimal.
    now rewrite (noDot_digits (uintUnits_digits _)).
  - change (fst (splitExtension name) ++ underscore :: decimal n ++ dot :: x)
      with (fst (splitExtension name) ++ (underscore :: decimal n) ++ dot :: x).
    rewrite app_assoc. now apply splitExtension_dot.
Qed.

(** Archiving keeps the extension.  On a host that does not fail, an
    attachment whose name is not blank is saved under a name that ends with
    the extension of its cleaned name, which is empty or a dot and what
    follows the last dot, whatever its position among the attachments and
    whatever the folder holds. *)
Theorem saveAttachmentToDrive_keeps_extension (a : Attachment) (index : nat) (w : World) :
  faults w = [] ->
  trim (getName a) <> [] ->
  let extension := snd (splitExtension (trim (replaceInvalid (getName a)))) in
  exists name stem,
    saveAttachmentToDrive a index w =
    (Normal (mkInfo (getName a) (Some name) (getSize a) None),
     setFiles (files w ++ [name]) w) /\
    name = stem ++ extension /\
    (extension = [] \/ exists x, extension = dot :: x /\ noDot x = true).
Proof.
  intros Hf Hne. cbv zeta.
  set (clean := trim (replaceInvalid (getName a))).
  destruct (@saveAttachmentToDrive_reliable a index w Hf) as (name & E & Hname).
  destruct (@ensureUniqueFilename_reliable
              (generateSimpleFilename (clock w) index (getName a)) w Hf)
    as (name' & E' & Hshape).
  rewrite Hname in E'. injection E' as <-.
  destruct (splitExtension_spec clean) as (Hcat & Hext).
  assert (Hsafe : exists stem,
             generateSimpleFilename (clock w) index (getName a)
             = stem ++ snd (splitExtension clean) /\
             splitExtension (generateSimpleFilename (clock w) index (getName a))
             = (stem, snd (splitExtension clean))).
  { destruct index as [|i].
    - rewrite generateSimpleFilename_first by assumption. fold clean.
      exists (fst (splitExtension clean)). split; [now rewrite Hcat|].
      now destruct (splitExtension clean).
    - rewrite generateSimpleFilename_later by (assumption || lia). fold clean.
      exists (fst (splitExtension clean) ++ underscore :: decimal (S i + 1)).
      split; [unfold candidate; now rewrite <- app_assoc|].
      apply splitExtension_candidate. }
  destruct Hsafe as (stem & Hshape1 & Hsplit).
  assert (Hext' : snd (splitExtension clean) = [] \/
                  exists x, snd (splitExtension clean) = dot :: x /\ noDot x = true).
  { destruct Hext as [[He _]|H]; auto. }
  destruct Hshape as [[_ ->]|(_ & k & _ & ->)].
  - exists (generateSimpleFilename (clock w) index (getName a)), stem. auto.
  - rewrite Hsplit in E. cbn [fst snd] in E. unfold candidate in E.
    exists (stem ++ underscore :: decimal k ++ snd (splitExtension clean)),
      (stem ++ underscore :: decimal k).
    split; [exact E|]. split; [now rewrite <- app_assoc|exact Hext'].
Qed.

Lemma saveAttachmentToDrive_keeps_extension_witness :
  let a := mkAttachment (lit "my report.final.pdf") 10 in
  let w := setFiles [lit "my report.final_3.pdf"] freshWorld in
  (faults w = [] /\ trim (getName a) <> []) /\
  exists name stem,
    fst (saveAttachmentToDrive a 2 w) =
    Normal (mkInfo (getName a) (Some name) (getSize a) None) /\
    name = stem ++ lit ".pdf".
Proof.
  cbv zeta. split; [split; [reflexivity|discriminate]|].
  destruct (@saveAttachmentToDrive_keeps_extension
              (mkAttachment (lit "my report.final.pdf") 10) 2
              (setFiles [lit "my report.final_3.pdf"] freshWorld) eq_refl
              ltac:(discriminate)) as (name & stem & E & Hn & _).
  exists name, stem. rewrite E. split; [reflexivity|exact Hn].
Defined.
